(** * ros::serialization (roslib, serialization.h)

    A shallow embedding of the serialization core of roslib: the three
    streams ([Stream] with [IStream]/[OStream], and [LStream]), the
    [Serializer] specialisations for the primitive types, [bool],
    [std::string], [ros::Time] and [ros::Duration], the three
    [VectorSerializer] and [ArraySerializer] strategies, and the message
    framing functions.

    Modelling conventions.
    - Machine integers are [Z]; a conversion to [uint32_t] is [to_u32].
      [size_t] values (container sizes, [sizeof]) are unbounded [Z]: every
      place where the source uses one converts it to [uint32_t] before it
      reaches a stream, and that conversion is written out.
    - A byte is a [Z] in [0, 256).  Memory is one allocated buffer, a
      [list Z]; a [uint8_t*] into it is the offset from its first byte.
    - A function taking a stream by reference is a computation in the
      monad [M St]: it returns a result (or the failure that was raised)
      together with the stream as the call left it.  The stream survives a
      failure, as the object does in C++ when the exception unwinds.
    - Touching memory outside the allocated buffer is undefined behaviour
      in C++; the model makes it the failure [UndefinedBehaviour]. *)

From Stdlib Require Import ZArith List Bool Lia.
Import ListNotations.
Local Open Scope Z_scope.

(** ** Integers and bytes *)

Definition to_u32 (z : Z) : Z := z mod 2 ^ 32.

(** [std::size_t] count of a container, as an integer. *)
Definition len {A : Type} (l : list A) : Z := Z.of_nat (length l).

(** ** Failures and the stream monad *)

Inductive failure : Type :=
| StreamOverrunException   (* ros::serialization::StreamOverrunException *)
| OutOfRange               (* front() of a zero-length boost::array *)
| UndefinedBehaviour.      (* access outside the allocated buffer *)

Inductive result (A : Type) : Type :=
| Ok (a : A)
| Fail (f : failure).
Arguments Ok {A} a.
Arguments Fail {A} f.

Definition M (St A : Type) : Type := St -> result A * St.

Definition ret {St A : Type} (a : A) : M St A := fun s => (Ok a, s).

Definition throw {St A : Type} (f : failure) : M St A := fun s => (Fail f, s).

Definition bind {St A B : Type} (m : M St A) (k : A -> M St B) : M St B :=
  fun s =>
    match m s with
    | (Ok a, s') => k a s'
    | (Fail f, s') => (Fail f, s')
    end.

Declare Scope stream_scope.
Delimit Scope stream_scope with stream.
Notation "x <- m ;; k" := (bind m (fun x => k))
  (at level 61, m at next level, right associativity) : stream_scope.
Notation "m ;; k" := (bind m (fun _ => k))
  (at level 61, right associativity) : stream_scope.
Local Open Scope stream_scope.

(** A C++ [for] loop over a container calling [stream.next( *it )]. *)
Fixpoint for_each {St T : Type} (next : T -> M St unit) (v : list T) : M St unit :=
  match v with
  | [] => ret tt
  | x :: v' => next x ;; for_each next v'
  end.

(** The same loop when [next] assigns to the element it is given (the
    [read] direction): the elements are replaced in order. *)
Fixpoint for_each_mut {St T : Type} (next : T -> M St T) (v : list T) : M St (list T) :=
  match v with
  | [] => ret []
  | x :: v' =>
      x' <- next x ;;
      r <- for_each_mut next v' ;;
      ret (x' :: r)
  end.

(** ** The streams *)

(** What the codecs use of a stream: [advance] and [getLength]. *)
Class StreamOps (St : Type) : Type := {
  advance : Z -> M St Z;
  getLength : M St Z
}.

(** [struct Stream]: the cursor [data_] and the bound [end_], with the
    buffer they point into. *)
Record Stream : Type := mkStream {
  buf : list Z;
  data_ : Z;
  end_ : Z
}.

(** [Stream(uint8_t* _data, uint32_t _count)] over the buffer [mem]. *)
Definition Stream_new (mem : list Z) (_data _count : Z) : Stream :=
  mkStream mem _data (_data + to_u32 _count).

Definition getData : M Stream Z := fun s => (Ok (data_ s), s).

Definition throwStreamOverrun {A : Type} : M Stream A :=
  throw StreamOverrunException.

(** [Stream::advance(uint32_t len)]: the cursor is moved first and compared
    with the bound afterwards. *)
Definition Stream_advance (len : Z) : M Stream Z :=
  fun s =>
    let old_data := data_ s in
    let s' := mkStream (buf s) (data_ s + to_u32 len) (end_ s) in
    if end_ s' <? data_ s' then throwStreamOverrun s' else (Ok old_data, s').

(** [Stream::getLength()]: [(uint32_t)(end_ - data_)]. *)
Definition Stream_getLength : M Stream Z :=
  fun s => (Ok (to_u32 (end_ s - data_ s)), s).

#[export] Instance Stream_ops : StreamOps Stream :=
  {| advance := Stream_advance; getLength := Stream_getLength |}.

(** [IStream] and [OStream] add nothing to [Stream] but [next]. *)
Definition IStream : Type := Stream.
Definition OStream : Type := Stream.
Definition IStream_new : list Z -> Z -> Z -> IStream := Stream_new.
Definition OStream_new : list Z -> Z -> Z -> OStream := Stream_new.

(** [struct LStream]: a 32-bit counter. *)
Record LStream : Type := mkLStream { count_ : Z }.

Definition LStream_new : LStream := mkLStream 0.

(** [LStream::advance(uint32_t len)]: [count_ += len], returns the null
    pointer. *)
Definition LStream_advance (len : Z) : M LStream Z :=
  fun s => (Ok 0, mkLStream (to_u32 (count_ s + to_u32 len))).

Definition LStream_getLength : M LStream Z :=
  fun s => (Ok (count_ s), s).

#[export] Instance LStream_ops : StreamOps LStream :=
  {| advance := LStream_advance; getLength := LStream_getLength |}.

(** ** Memory access through a pointer into the buffer *)

Definition in_buffer (mem : list Z) (p n : Z) : bool :=
  (0 <=? p) && (0 <=? n) && (p + n <=? len mem).

(** [memcpy(p, src, len src)] and a store through [reinterpret_cast]. *)
Definition store (p : Z) (src : list Z) : M Stream unit :=
  fun s =>
    if in_buffer (buf s) p (len src) then
      (Ok tt,
       mkStream (firstn (Z.to_nat p) (buf s) ++ src
                   ++ skipn (Z.to_nat (p + len src)) (buf s))
                (data_ s) (end_ s))
    else (Fail UndefinedBehaviour, s).

(** The [n] bytes at [p]. *)
Definition load (p n : Z) : M Stream (list Z) :=
  fun s =>
    if in_buffer (buf s) p n then
      (Ok (firstn (Z.to_nat n) (skipn (Z.to_nat p) (buf s))), s)
    else (Fail UndefinedBehaviour, s).

(** ** Types with a codec *)

(** The types of [ROS_CREATE_SIMPLE_SERIALIZER]; a [float] or [double] is
    its bit pattern, which is all the codec looks at. *)
Inductive prim : Type :=
| U8 | I8 | U16 | I16 | U32 | I32 | U64 | I64 | F32 | F64.

(** [sizeof(Type)], in bytes. *)
Definition width (p : prim) : nat :=
  match p with
  | U8 | I8 => 1
  | U16 | I16 => 2
  | U32 | I32 | F32 => 4
  | U64 | I64 | F64 => 8
  end%nat.

Definition sizeof (p : prim) : Z := Z.of_nat (width p).

Definition is_signed (p : prim) : bool :=
  match p with
  | I8 | I16 | I32 | I64 => true
  | _ => false
  end.

(** The values a variable of the type can hold. *)
Definition in_range (p : prim) (v : Z) : Prop :=
  if is_signed p
  then - 2 ^ (8 * sizeof p - 1) <= v < 2 ^ (8 * sizeof p - 1)
  else 0 <= v < 2 ^ (8 * sizeof p).

(** The types the header gives a codec to.  [TArray T N] is
    [boost::array<T, N>] with [N >= 1]; [TUser] is a message type that has
    no specialisation and falls to the primary [Serializer] template. *)
Inductive ty : Type :=
| TPrim (p : prim)
| TBool
| TString
| TTime
| TDuration
| TVector (T : ty)
| TArray (T : ty) (N : positive)
| TUser.

(** Modelled from the spec: [time.h] is not part of the sources at hand; a
    time-like value has two 4-byte integer fields, the whole unit and the
    fractional sub-unit, unsigned in [ros::Time] and signed in
    [ros::Duration]. *)
Record TimeBase : Type := mkTime { sec : Z; nsec : Z }.

(** A message type served by the primary template: the old-style member
    functions [serialize(uint8_t* write_ptr, uint32_t seq)],
    [deserialize(uint8_t* read_ptr)] and [serializationLength()], and the
    member [__serialized_length].  The member functions work on raw memory;
    [None] is an access outside the buffer. *)
Record UserType : Type := mkUserType {
  carrier : Type;
  u_default : carrier;
  u_serialize : carrier -> Z -> Z -> list Z -> option (list Z);
  u_deserialize : carrier -> Z -> list Z -> option carrier;
  u_serializationLength : carrier -> Z;
  u_set_serialized_length : Z -> carrier -> carrier;
  u_IsFixedSize : bool
}.

(** [Serializer<T>]: the three static member functions, each at the stream
    it is instantiated with. *)
Record Serializer (T : Type) : Type := mkSerializer {
  write : T -> M OStream unit;
  read : T -> M IStream T;
  serializedLength : T -> M LStream unit
}.
Arguments mkSerializer {T} _ _ _.
Arguments write {T} _ _ _.
Arguments read {T} _ _ _.
Arguments serializedLength {T} _ _ _.

(** [std::vector::resize]: new elements are value-initialised.  The
    allocation is taken to succeed: the [std::bad_alloc] or
    [std::length_error] that [resize] raises when memory cannot hold the
    count has no outcome here.  The reads of a vector call [resize] with
    the count as it came off the wire, before any bounds check; what is
    stated of them is stated for counts of vectors that exist, or for
    types that have no vector ([vector_free]). *)
Definition resize {T : Type} (n : Z) (v : list T) (d : T) : list T :=
  firstn (Z.to_nat n) v ++ repeat d (Z.to_nat n - length v).

(** [Stream s; s.next(x); ... s.getLength()]: the length of one value,
    measured with a length stream of its own. *)
Definition measure (m : M LStream unit) : M LStream Z :=
  fun stream =>
    match m LStream_new with
    | (Ok _, s) => (Ok (count_ s), stream)
    | (Fail f, _) => (Fail f, stream)
    end.

(** *** Host-native layout of an integer *)

Fixpoint le_bytes (w : nat) (z : Z) : list Z :=
  match w with
  | O => []
  | S w' => z mod 256 :: le_bytes w' (z / 256)
  end.

Fixpoint le_value (bs : list Z) : Z :=
  match bs with
  | [] => 0
  | b :: bs' => b + 256 * le_value bs'
  end.

(** ** Sample inputs *)

(** An old-style message with one [uint32] field, as a little-endian
    host lays it out: [serialize] stores the 4 bytes of the field at the
    pointer it is given, [deserialize] loads them from there, and
    [serializationLength()] is 4. *)
Definition Word : UserType :=
  {| carrier := Z;
     u_default := 0;
     u_serialize := fun t write_ptr _ mem =>
       if in_buffer mem write_ptr 4 then
         Some (firstn (Z.to_nat write_ptr) mem ++ le_bytes 4 t
                 ++ skipn (Z.to_nat (write_ptr + 4)) mem)
       else None;
     u_deserialize := fun _ read_ptr mem =>
       if in_buffer mem read_ptr 4 then
         Some (le_value (firstn 4 (skipn (Z.to_nat read_ptr) mem)))
       else None;
     u_serializationLength := fun _ => 4;
     u_set_serialized_length := fun _ t => t;
     u_IsFixedSize := false |}.

(** An allocator whose fresh storage happens to hold the byte 0xCD. *)
Definition fresh_storage (n : Z) : list Z := repeat 205 (Z.to_nat n).

Section Codecs.

(** The byte order of the host. *)
Variable big_endian : bool.

(** The message type without a [Serializer] specialisation. *)
Variable user : UserType.

Definition to_bytes (w : nat) (z : Z) : list Z :=
  if big_endian then rev (le_bytes w z) else le_bytes w z.

Definition of_bytes (bs : list Z) : Z :=
  le_value (if big_endian then rev bs else bs).

(** The object representation of a value of type [p]. *)
Definition prim_bytes (p : prim) (v : Z) : list Z := to_bytes (width p) v.

(** The value of type [p] that [sizeof p] bytes represent. *)
Definition prim_value (p : prim) (bs : list Z) : Z :=
  let u := of_bytes bs in
  if is_signed p && (2 ^ (8 * sizeof p - 1) <=? u)
  then u - 2 ^ (8 * sizeof p) else u.

(** The storage of a contiguous run of values of type [p]. *)
Definition raw_bytes (p : prim) (v : list Z) : list Z :=
  concat (map (prim_bytes p) v).

(** The [n] values of type [p] held by a storage. *)
Fixpoint from_raw (p : prim) (n : nat) (bs : list Z) : list Z :=
  match n with
  | O => []
  | S n' =>
      prim_value p (firstn (width p) bs) :: from_raw p n' (skipn (width p) bs)
  end.

(** *** The primitive codecs *)

(** [ROS_CREATE_SIMPLE_SERIALIZER(Type)]. *)
Definition SimpleSerializer (p : prim) : Serializer Z :=
  {| write := fun v =>
       q <- advance (sizeof p) ;; store q (prim_bytes p v);
     read := fun _ =>
       q <- advance (sizeof p) ;;
       bs <- load q (sizeof p) ;;
       ret (prim_value p bs);
     serializedLength := fun _ =>
       advance (sizeof p) ;; ret tt |}.

(** [Serializer<bool>]. *)
Definition BoolSerializer : Serializer bool :=
  {| write := fun v : bool =>
       let b := if v then 1 else 0 in
       q <- advance 1 ;; store q [b];
     read := fun _ =>
       q <- advance 1 ;;
       bs <- load q 1 ;;
       ret (negb (prim_value U8 bs =? 0));
     serializedLength := fun _ =>
       advance 1 ;; ret tt |}.

(** [Serializer<std::string>]. *)
Definition StringSerializer : Serializer (list Z) :=
  {| write := fun str =>
       let len := len str in
       write (SimpleSerializer U32) (to_u32 len) ;;
       if 0 <? len then
         q <- advance len ;; store q str
       else ret tt;
     read := fun _ =>
       len <- read (SimpleSerializer U32) 0 ;;
       if 0 <? len then
         q <- advance len ;; load q len
       else ret [];
     serializedLength := fun str =>
       advance (to_u32 (4 + to_u32 (len str))) ;; ret tt |}.

(** [Serializer<ros::Time>]. *)
Definition TimeSerializer : Serializer TimeBase :=
  {| write := fun v =>
       write (SimpleSerializer U32) (sec v) ;;
       write (SimpleSerializer U32) (nsec v);
     read := fun v =>
       s <- read (SimpleSerializer U32) (sec v) ;;
       n <- read (SimpleSerializer U32) (nsec v) ;;
       ret (mkTime s n);
     serializedLength := fun _ =>
       advance 8 ;; ret tt |}.

(** [Serializer<ros::Duration>]. *)
Definition DurationSerializer : Serializer TimeBase :=
  {| write := fun v =>
       write (SimpleSerializer I32) (sec v) ;;
       write (SimpleSerializer I32) (nsec v);
     read := fun v =>
       s <- read (SimpleSerializer I32) (sec v) ;;
       n <- read (SimpleSerializer I32) (nsec v) ;;
       ret (mkTime s n);
     serializedLength := fun _ =>
       advance 8 ;; ret tt |}.

(** The primary template [Serializer<T>]: the value's own member functions
    on the stream's current data pointer. *)
Definition DefaultSerializer : Serializer (carrier user) :=
  {| write := fun t =>
       q <- getData ;;
       fun s =>
         match u_serialize user t q 0 (buf s) with
         | Some mem' => (Ok tt, mkStream mem' (data_ s) (end_ s))
         | None => (Fail UndefinedBehaviour, s)
         end;
     read := fun t =>
       l <- getLength ;;
       let t := u_set_serialized_length user l t in
       q <- getData ;;
       fun s =>
         match u_deserialize user t q (buf s) with
         | Some t' => (Ok t', s)
         | None => (Fail UndefinedBehaviour, s)
         end;
     serializedLength := fun t =>
       advance (u_serializationLength user t) ;; ret tt |}.

(** *** The container codecs *)

Section Containers.

Context {T : Type}.
Variable E : Serializer T.   (* what [stream.next] of an element reaches *)
Variable T_default : T.      (* [T()] *)

(** [VectorSerializer], elements that are not fixed-size. *)
Definition VectorSerializer_nonfixed : Serializer (list T) :=
  {| write := fun v =>
       write (SimpleSerializer U32) (to_u32 (len v)) ;;
       for_each (write E) v;
     read := fun v =>
       len <- read (SimpleSerializer U32) 0 ;;
       let v := resize len v T_default in
       for_each_mut (read E) v;
     serializedLength := fun v =>
       advance 4 ;;
       for_each (serializedLength E) v |}.

(** [VectorSerializer], fixed-size elements that are not simple. *)
Definition VectorSerializer_fixed : Serializer (list T) :=
  {| write := fun v =>
       write (SimpleSerializer U32) (to_u32 (len v)) ;;
       for_each (write E) v;
     read := fun v =>
       len <- read (SimpleSerializer U32) 0 ;;
       let v := resize len v T_default in
       for_each_mut (read E) v;
     serializedLength := fun v =>
       advance 4 ;;
       match v with
       | [] => ret tt
       | front :: _ =>
           l <- measure (serializedLength E front) ;;
           advance (to_u32 (l * to_u32 (len v))) ;; ret tt
       end |}.

(** [ArraySerializer], elements that are not fixed-size. *)
Definition ArraySerializer_nonfixed : Serializer (list T) :=
  {| write := fun v => for_each (write E) v;
     read := fun v => for_each_mut (read E) v;
     serializedLength := fun v => for_each (serializedLength E) v |}.

(** [ArraySerializer], fixed-size elements that are not simple. *)
Definition ArraySerializer_fixed (N : Z) : Serializer (list T) :=
  {| write := fun v => for_each (write E) v;
     read := fun v => for_each_mut (read E) v;
     serializedLength := fun v =>
       match v with
       | [] => throw OutOfRange
       | front :: _ =>
           l <- measure (serializedLength E front) ;;
           advance (l * N) ;; ret tt
       end |}.

End Containers.

(** [VectorSerializer], simple elements: one [memcpy]. *)
Definition VectorSerializer_simple (p : prim) : Serializer (list Z) :=
  {| write := fun v =>
       let len := to_u32 (len v) in
       write (SimpleSerializer U32) len ;;
       match v with
       | [] => ret tt
       | _ :: _ =>
           let data_len := to_u32 (len * sizeof p) in
           q <- advance data_len ;;
           store q (firstn (Z.to_nat data_len) (raw_bytes p v))
       end;
     read := fun v =>
       len <- read (SimpleSerializer U32) 0 ;;
       let v := resize len v 0 in
       if 0 <? len then
         let data_len := to_u32 (sizeof p * len) in
         q <- advance data_len ;;
         bs <- load q data_len ;;
         ret (from_raw p (length v)
                (bs ++ skipn (Z.to_nat data_len) (raw_bytes p v)))
       else ret v;
     serializedLength := fun v =>
       advance (4 + len v * sizeof p) ;; ret tt |}.

(** [ArraySerializer], simple elements: one [memcpy]. *)
Definition ArraySerializer_simple (p : prim) (N : Z) : Serializer (list Z) :=
  {| write := fun v =>
       let data_len := to_u32 (N * sizeof p) in
       q <- advance data_len ;;
       store q (firstn (Z.to_nat data_len) (raw_bytes p v));
     read := fun v =>
       let data_len := to_u32 (N * sizeof p) in
       q <- advance data_len ;;
       bs <- load q data_len ;;
       ret (from_raw p (length v)
              (bs ++ skipn (Z.to_nat data_len) (raw_bytes p v)));
     serializedLength := fun _ =>
       advance (N * sizeof p) ;; ret tt |}.

(** *** Dispatch *)

(** The C++ type behind a [ty]. *)
Fixpoint denote (t : ty) : Type :=
  match t with
  | TPrim _ => Z
  | TBool => bool
  | TString => list Z
  | TTime | TDuration => TimeBase
  | TVector T | TArray T _ => list (denote T)
  | TUser => carrier user
  end.

(** A value-initialised object. *)
Fixpoint default_value (t : ty) : denote t :=
  match t with
  | TPrim _ => 0
  | TBool => false
  | TString => []
  | TTime | TDuration => mkTime 0 0
  | TVector _ => []
  | TArray T N => repeat (default_value T) (Pos.to_nat N)
  | TUser => u_default user
  end.

(** Modelled from the spec: [message_traits.h] and
    [builtin_message_traits.h] are not part of the sources at hand.
    [IsSimple] holds of the numeric primitives only. *)
Definition IsSimple (t : ty) : bool :=
  match t with
  | TPrim _ => true
  | _ => false
  end.

(** Modelled from the spec: [IsFixedSize] holds of the numeric primitives,
    [bool], the time-like values and arrays of fixed-size elements, not of
    strings and vectors; a message type declares it for itself. *)
Fixpoint IsFixedSize (t : ty) : bool :=
  match t with
  | TPrim _ | TBool | TTime | TDuration => true
  | TString | TVector _ => false
  | TArray T _ => IsFixedSize T
  | TUser => u_IsFixedSize user
  end.

(** [VectorSerializer<T>]: the specialisation the traits of [T] enable.
    For [T = bool] the header instantiates [write] and [serializedLength]
    only: in [read], [stream.next] is applied to a dereferenced
    [std::vector<bool>] iterator, a proxy object that cannot bind to the
    [T&] of [IStream::next], so that [deserialize] of a
    [std::vector<bool>] is not a program.  The [read] this definition has
    at [TBool] is not code of the header; [has_read] tells the types it
    is not to be used at. *)
Definition VectorSerializer (T : ty) :
  Serializer (denote T) -> Serializer (list (denote T)) :=
  match T return Serializer (denote T) -> Serializer (list (denote T)) with
  | TPrim p => fun _ => VectorSerializer_simple p
  | T' => fun E =>
      if IsFixedSize T' then VectorSerializer_fixed E (default_value T')
      else VectorSerializer_nonfixed E (default_value T')
  end.

(** [ArraySerializer<T, N>]. *)
Definition ArraySerializer (T : ty) (N : positive) :
  Serializer (denote T) -> Serializer (list (denote T)) :=
  match T return Serializer (denote T) -> Serializer (list (denote T)) with
  | TPrim p => fun _ => ArraySerializer_simple p (Z.pos N)
  | T' => fun E =>
      if IsFixedSize T' then ArraySerializer_fixed E (Z.pos N)
      else ArraySerializer_nonfixed E
  end.

(** The codec that [serialize], [deserialize] and [serializationLength]
    resolve to at each type. *)
Fixpoint codec (t : ty) : Serializer (denote t) :=
  match t return Serializer (denote t) with
  | TPrim p => SimpleSerializer p
  | TBool => BoolSerializer
  | TString => StringSerializer
  | TTime => TimeSerializer
  | TDuration => DurationSerializer
  | TVector T => VectorSerializer T (codec T)
  | TArray T N => ArraySerializer T N (codec T)
  | TUser => DefaultSerializer
  end.

Definition serialize (t : ty) (v : denote t) : M OStream unit :=
  write (codec t) v.

Definition deserialize (t : ty) (v : denote t) : M IStream (denote t) :=
  read (codec t) v.

(** The two-argument [serializationLength(stream, t)]. *)
Definition serializationLength_into (t : ty) (v : denote t) : M LStream unit :=
  serializedLength (codec t) v.

(** The one-argument [serializationLength(t)]. *)
Definition serializationLength (t : ty) (v : denote t) : result Z :=
  fst ((serializationLength_into t v ;; getLength) LStream_new).

(** ** Message framing *)

(** Modelled from the spec: [serialized_message.h] is not part of the
    sources at hand.  An owned buffer, its size, and the marker of where
    the payload begins ([None] is the null pointer it is constructed
    with). *)
Record SerializedMessage : Type := mkSerializedMessage {
  sm_buf : list Z;
  num_bytes : Z;
  message_start : option Z
}.

(** [new uint8_t[n]]: the fresh storage has [n] bytes of indeterminate
    content. *)
Variable new_uint8 : Z -> list Z.
Hypothesis new_uint8_length : forall n, 0 <= n -> len (new_uint8 n) = n.

(** [serializeMessage(const M& message)]. *)
Definition serializeMessage (t : ty) (message : denote t) :
  result SerializedMessage :=
  match (serializationLength_into t message ;; getLength) LStream_new with
  | (Fail f, _) => Fail f
  | (Ok l, _) =>
      let num_bytes := to_u32 (l + 4) in
      let s := OStream_new (new_uint8 num_bytes) 0 (to_u32 num_bytes) in
      match (serialize (TPrim U32) (to_u32 (to_u32 num_bytes - 4)) ;;
             start <- getData ;;
             serialize t message ;;
             ret start) s with
      | (Ok start, s') =>
          Ok (mkSerializedMessage (buf s') num_bytes (Some start))
      | (Fail f, _) => Fail f
      end
  end.

(** [serializeServiceResponse(bool ok, const M& message)]. *)
Definition serializeServiceResponse (ok : bool) (t : ty) (message : denote t) :
  result SerializedMessage :=
  if ok then
    match (serializationLength_into t message ;; getLength) LStream_new with
    | (Fail f, _) => Fail f
    | (Ok l, _) =>
        let num_bytes := to_u32 (l + 5) in
        let s := OStream_new (new_uint8 num_bytes) 0 (to_u32 num_bytes) in
        match (serialize (TPrim U8) (if ok then 1 else 0) ;;
               serialize (TPrim U32) (to_u32 (to_u32 num_bytes - 5)) ;;
               serialize t message) s with
        | (Ok _, s') => Ok (mkSerializedMessage (buf s') num_bytes None)
        | (Fail f, _) => Fail f
        end
    end
  else
    let num_bytes := 5 in
    let s := OStream_new (new_uint8 5) 0 (to_u32 num_bytes) in
    match (serialize (TPrim U8) (if ok then 1 else 0) ;;
           serialize (TPrim U32) 0) s with
    | (Ok _, s') => Ok (mkSerializedMessage (buf s') num_bytes None)
    | (Fail f, _) => Fail f
    end.

(** ** Reference notions for the statements *)

(** Types every part of which has a [Serializer] specialisation in the
    header: no value of the type reaches the primary template. *)
Fixpoint specialised (t : ty) : bool :=
  match t with
  | TUser => false
  | TVector T | TArray T _ => specialised T
  | _ => true
  end.

(** Types whose [deserialize] the header instantiates: those that hold
    no [std::vector<bool>] (see [VectorSerializer]). *)
Fixpoint has_read (t : ty) : bool :=
  match t with
  | TVector TBool => false
  | TVector T | TArray T _ => has_read T
  | _ => true
  end.

(** Types that hold no [std::vector]: their [read] never calls
    [resize]. *)
Fixpoint vector_free (t : ty) : bool :=
  match t with
  | TVector _ => false
  | TArray T _ => vector_free T
  | _ => true
  end.

(** A message type served by the primary template whose own [serialize]
    writes at the pointer it is handed and after it, and leaves the
    buffer the size it has. *)
Definition writes_from_pointer (u : UserType) : Prop :=
  forall (t : carrier u) (write_ptr seq : Z) (mem mem' : list Z),
    u_serialize u t write_ptr seq mem = Some mem' ->
    len mem' = len mem
    /\ firstn (Z.to_nat write_ptr) mem' = firstn (Z.to_nat write_ptr) mem.

(** Values a C++ object of the type can hold: integers within their
    type, arrays with their [N] elements. *)
Fixpoint wf_val (t : ty) : denote t -> Prop :=
  match t return denote t -> Prop with
  | TPrim p => fun v => in_range p v
  | TBool => fun _ => True
  | TString => fun _ => True
  | TTime => fun v => in_range U32 (sec v) /\ in_range U32 (nsec v)
  | TDuration => fun v => in_range I32 (sec v) /\ in_range I32 (nsec v)
  | TVector T => fun v => Forall (wf_val T) v
  | TArray T N => fun v => length v = Pos.to_nat N /\ Forall (wf_val T) v
  | TUser => fun _ => True
  end.

(** The wire format of a value, as the format is documented: a 4-byte
    count before the bytes of a string and before the elements of a
    vector, the elements of an array one after the other, a time-like
    value as its two fields, a [bool] as one byte.  What a value served by
    the primary template puts on the wire is its own business; no bytes
    are accounted for it here. *)
Fixpoint wire_image (t : ty) : denote t -> list Z :=
  match t return denote t -> list Z with
  | TPrim p => fun v => prim_bytes p v
  | TBool => fun v : bool => [if v then 1 else 0]
  | TString => fun v => prim_bytes U32 (len v) ++ v
  | TTime => fun v => prim_bytes U32 (sec v) ++ prim_bytes U32 (nsec v)
  | TDuration => fun v => prim_bytes I32 (sec v) ++ prim_bytes I32 (nsec v)
  | TVector T => fun v => prim_bytes U32 (len v) ++ concat (map (wire_image T) v)
  | TArray T _ => fun v => concat (map (wire_image T) v)
  | TUser => fun _ => []
  end.

(** The true encoded size of a value, without any wrap-around. *)
Definition wire_size (t : ty) (v : denote t) : Z := len (wire_image t v).

(** The invariant of a buffered stream: the cursor is within the view. *)
Definition cursor_in_bounds (s : Stream) : Prop := data_ s <= end_ s.

(** A stream as the constructor makes it over an allocated buffer: a
    view of fewer than 2^32 bytes that lies inside the buffer. *)
Definition stream_ok (s : Stream) : Prop :=
  0 <= data_ s <= end_ s /\ end_ s <= len (buf s) /\ end_ s - data_ s < 2 ^ 32.

(** The bytes between two cursor positions of a buffer. *)
Definition bytes_between (mem : list Z) (p q : Z) : list Z :=
  firstn (Z.to_nat (q - p)) (skipn (Z.to_nat p) mem).

(** [m] puts the bytes [img] at the cursor and moves the cursor past
    them, whatever was there, as long as the view has room for them. *)
Definition writes (m : M Stream unit) (img : list Z) : Prop :=
  forall pre mid post e,
    len mid = len img ->
    len pre + len img <= e ->
    m (mkStream (pre ++ mid ++ post) (len pre) e)
    = (Ok tt, mkStream (pre ++ img ++ post) (len pre + len img) e).

(** [m] consumes the bytes [img] at the cursor and yields [a]. *)
Definition reads {A : Type} (m : M Stream A) (img : list Z) (a : A) : Prop :=
  forall pre post e,
    len pre + len img <= e ->
    m (mkStream (pre ++ img ++ post) (len pre) e)
    = (Ok a, mkStream (pre ++ img ++ post) (len pre + len img) e).

(** [m] adds [n] to the counter of a length stream, modulo 2^32. *)
Definition measures (m : M LStream unit) (n : Z) : Prop :=
  forall ls,
    0 <= count_ ls < 2 ^ 32 ->
    m ls = (Ok tt, mkLStream (to_u32 (count_ ls + n))).

(** The encoded size shared by all values of a fixed-size type. *)
Fixpoint fixed_size (t : ty) : Z :=
  match t with
  | TPrim p => sizeof p
  | TBool => 1
  | TTime | TDuration => 8
  | TArray T N => Z.pos N * fixed_size T
  | _ => 0
  end.

(** What every operation on a buffered stream does to the view: the
    bound stays, the cursor does not move back, and an operation that
    returns normally from a cursor within the view leaves it within the
    view. *)
Definition bounded {A : Type} (m : M Stream A) : Prop :=
  forall s r s',
    m s = (r, s') ->
    end_ s' = end_ s /\ data_ s <= data_ s' /\
    (forall a, r = Ok a -> cursor_in_bounds s -> cursor_in_bounds s').

(** An operation that, when it returns normally, has moved the cursor by
    [n] modulo 2^32. *)
Definition displaces {A : Type} (m : M Stream A) (n : Z) : Prop :=
  forall s a s',
    m s = (Ok a, s') -> to_u32 (data_ s' - data_ s) = to_u32 n.

(** A stream whose view lies inside the allocated buffer. *)
Definition mem_ok (s : Stream) : Prop :=
  0 <= data_ s /\ end_ s <= len (buf s).


(** ** Decoding an envelope *)

(** [deserializeMessage(m, message, includes_length)]: the input stream
    starts after the 4 bytes of the length when they are still there.
    [m.num_bytes - 4] is computed in [size_t] and converted to the
    [uint32_t] count of the stream. *)
Definition deserializeMessage (m : SerializedMessage) (t : ty)
    (message : denote t) (includes_length : bool) : result (denote t) :=
  if includes_length then
    fst (deserialize t message (IStream_new (sm_buf m) 4 (num_bytes m - 4)))
  else
    fst (deserialize t message (IStream_new (sm_buf m) 0 (num_bytes m))).

(** ** Messages with an all-in-one serializer *)

(** A message struct with fields of the types [ts], in order. *)
Fixpoint denote_fields (ts : list ty) : Type :=
  match ts with
  | [] => unit
  | t :: ts' => (denote t * denote_fields ts')%type
  end.

(** The [allinone] member of such a message, in the form the header
    documents: [stream.next(t.a); stream.next(t.b); ...].  [next] is the
    [next] of the stream it is instantiated with; it yields the field as
    the call leaves it. *)
Fixpoint allinone {St : Type} (next : forall t, denote t -> M St (denote t))
    (ts : list ty) : denote_fields ts -> M St (denote_fields ts) :=
  match ts return denote_fields ts -> M St (denote_fields ts) with
  | [] => fun m => ret m
  | t :: ts' => fun m =>
      a <- next t (fst m) ;;
      r <- allinone next ts' (snd m) ;;
      ret (a, r)
  end.

(** [OStream::next], [IStream::next] and [LStream::next]. *)
Definition OStream_next (t : ty) (v : denote t) : M OStream (denote t) :=
  serialize t v ;; ret v.

Definition IStream_next (t : ty) (v : denote t) : M IStream (denote t) :=
  deserialize t v.

Definition LStream_next (t : ty) (v : denote t) : M LStream (denote t) :=
  serializationLength_into t v ;; ret v.

(** [ROS_DECLARE_ALLINONE_SERIALIZER]: [write], [read] and
    [serializedLength] are the one [allinone], at the three streams. *)
Definition AllInOneSerializer (ts : list ty) : Serializer (denote_fields ts) :=
  {| write := fun m => allinone OStream_next ts m ;; ret tt;
     read := fun m => allinone IStream_next ts m;
     serializedLength := fun m => allinone LStream_next ts m ;; ret tt |}.

(** The wire image of a message struct: its fields one after the other. *)
Fixpoint fields_image (ts : list ty) : denote_fields ts -> list Z :=
  match ts return denote_fields ts -> list Z with
  | [] => fun _ => []
  | t :: ts' => fun m => wire_image t (fst m) ++ fields_image ts' (snd m)
  end.

Fixpoint fields_wf (ts : list ty) : denote_fields ts -> Prop :=
  match ts return denote_fields ts -> Prop with
  | [] => fun _ => True
  | t :: ts' => fun m => wf_val t (fst m) /\ fields_wf ts' (snd m)
  end.

Fixpoint fields_default (ts : list ty) : denote_fields ts :=
  match ts return denote_fields ts with
  | [] => tt
  | t :: ts' => (default_value t, fields_default ts')
  end.

(** ** More notions for the statements *)

(** [m] returns [a], having put the bytes [img] at the cursor and moved
    the cursor past them. *)
Definition runs {A : Type} (m : M Stream A) (a : A) (img : list Z) : Prop :=
  forall pre mid post e,
    len mid = len img ->
    len pre + len img <= e ->
    m (mkStream (pre ++ mid ++ post) (len pre) e)
    = (Ok a, mkStream (pre ++ img ++ post) (len pre + len img) e).

(** [m], which needs room for [img], raises the overrun from every
    stream inside its buffer that has less room. *)
Definition overruns {A : Type} (m : M Stream A) (img : list Z) : Prop :=
  forall s,
    mem_ok s -> cursor_in_bounds s ->
    end_ s - data_ s < len img ->
    fst (m s) = Fail StreamOverrunException.

(** [m], which consumes [img], raises the overrun when the buffer ends
    before the end of [img]. *)
Definition read_overruns {A : Type} (m : M Stream A) (img : list Z) : Prop :=
  forall pre part rest,
    img = part ++ rest -> rest <> [] ->
    fst (m (mkStream (pre ++ part) (len pre) (len pre + len part)))
    = Fail StreamOverrunException.

Definition is_byte (b : Z) : Prop := 0 <= b < 256.

(** [m] only reads, and only inside the buffer: from a view inside a
    buffer of bytes it returns a value satisfying [P] or raises the
    overrun, and leaves the buffer as it was. *)
Definition safe_read {A : Type} (m : M Stream A) (P : A -> Prop) : Prop :=
  forall s r s',
    mem_ok s -> Forall is_byte (buf s) ->
    m s = (r, s') ->
    ((exists a, r = Ok a /\ P a) \/ r = Fail StreamOverrunException)
    /\ mem_ok s' /\ buf s' = buf s.

(** ** Facts about integers, lists and memory *)

Lemma to_u32_range (z : Z) : 0 <= to_u32 z < 2 ^ 32.
Proof. unfold to_u32. apply Z.mod_pos_bound. lia. Qed.

Lemma to_u32_small (z : Z) : 0 <= z < 2 ^ 32 -> to_u32 z = z.
Proof. intros H. unfold to_u32. apply Z.mod_small. exact H. Qed.

Lemma to_u32_add_r (a b : Z) : to_u32 (a + to_u32 b) = to_u32 (a + b).
Proof. unfold to_u32. apply Zplus_mod_idemp_r. Qed.

Lemma to_u32_add_l (a b : Z) : to_u32 (to_u32 a + b) = to_u32 (a + b).
Proof. unfold to_u32. apply Zplus_mod_idemp_l. Qed.

Lemma to_u32_idem (a : Z) : to_u32 (to_u32 a) = to_u32 a.
Proof. unfold to_u32. apply Zmod_mod. Qed.

Lemma to_u32_mul_l (a b : Z) : to_u32 (to_u32 a * b) = to_u32 (a * b).
Proof. unfold to_u32. apply Zmult_mod_idemp_l. Qed.

Lemma to_u32_mul_r (a b : Z) : to_u32 (a * to_u32 b) = to_u32 (a * b).
Proof. unfold to_u32. apply Zmult_mod_idemp_r. Qed.

Lemma to_u32_add_mul (a n k : Z) :
  to_u32 (a + to_u32 n * k) = to_u32 (a + n * k).
Proof. rewrite <- to_u32_add_r, to_u32_mul_l, to_u32_add_r. reflexivity. Qed.

Lemma len_nonneg {A : Type} (l : list A) : 0 <= len l.
Proof. unfold len. lia. Qed.

Lemma len_app {A : Type} (l1 l2 : list A) : len (l1 ++ l2) = len l1 + len l2.
Proof. unfold len. rewrite length_app. lia. Qed.

Lemma len_cons {A : Type} (x : A) (l : list A) : len (x :: l) = 1 + len l.
Proof. unfold len. simpl length. lia. Qed.

Lemma len_nil {A : Type} : len (@nil A) = 0.
Proof. reflexivity. Qed.

Lemma firstn_len_app {A : Type} (l1 l2 : list A) :
  firstn (Z.to_nat (len l1)) (l1 ++ l2) = l1.
Proof.
  unfold len. rewrite Nat2Z.id, firstn_app, Nat.sub_diag, firstn_all.
  simpl. apply app_nil_r.
Qed.

Lemma skipn_len_app {A : Type} (l1 l2 : list A) :
  skipn (Z.to_nat (len l1)) (l1 ++ l2) = l2.
Proof.
  unfold len. rewrite Nat2Z.id, skipn_app, Nat.sub_diag, skipn_all.
  reflexivity.
Qed.

Lemma store_splice (pre mid post src : list Z) (d e : Z) :
  len mid = len src ->
  store (len pre) src (mkStream (pre ++ mid ++ post) d e)
  = (Ok tt, mkStream (pre ++ src ++ post) d e).
Proof.
  intros Hlen. unfold store, in_buffer. simpl buf.
  rewrite !len_app.
  pose proof (len_nonneg pre). pose proof (len_nonneg src).
  pose proof (len_nonneg post).
  replace ((0 <=? len pre) && (0 <=? len src)
           && (len pre + len src <=? len pre + (len mid + len post)))
    with true by (symmetry; rewrite !andb_true_iff; repeat split; lia).
  simpl data_. simpl end_.
  rewrite firstn_len_app.
  replace (len pre + len src) with (len (pre ++ mid)) by (rewrite len_app; lia).
  rewrite (app_assoc pre mid post), skipn_len_app. reflexivity.
Qed.

Lemma load_splice (pre mid post : list Z) (d e : Z) :
  load (len pre) (len mid) (mkStream (pre ++ mid ++ post) d e)
  = (Ok mid, mkStream (pre ++ mid ++ post) d e).
Proof.
  unfold load, in_buffer. simpl buf.
  rewrite !len_app.
  pose proof (len_nonneg pre). pose proof (len_nonneg mid).
  pose proof (len_nonneg post).
  replace ((0 <=? len pre) && (0 <=? len mid)
           && (len pre + len mid <=? len pre + (len mid + len post)))
    with true by (symmetry; rewrite !andb_true_iff; repeat split; lia).
  rewrite skipn_len_app, firstn_len_app. reflexivity.
Qed.

Lemma advance_ok (n : Z) (s : Stream) :
  data_ s + to_u32 n <= end_ s ->
  advance n s = (Ok (data_ s), mkStream (buf s) (data_ s + to_u32 n) (end_ s)).
Proof.
  intros H. simpl. unfold Stream_advance. simpl.
  destruct (Z.ltb_spec (end_ s) (data_ s + to_u32 n)); [lia | reflexivity].
Qed.

Lemma advance_overrun (n : Z) (s : Stream) :
  end_ s < data_ s + to_u32 n ->
  advance n s
  = (Fail StreamOverrunException,
     mkStream (buf s) (data_ s + to_u32 n) (end_ s)).
Proof.
  intros H. simpl. unfold Stream_advance. simpl.
  destruct (Z.ltb_spec (end_ s) (data_ s + to_u32 n)); [reflexivity | lia].
Qed.

(** ** Host-native layout *)

Lemma le_bytes_length (w : nat) (z : Z) : length (le_bytes w z) = w.
Proof.
  revert z. induction w as [|w IH]; intros z; simpl; [reflexivity|].
  rewrite IH. reflexivity.
Qed.

Lemma le_value_le_bytes (w : nat) (z : Z) :
  le_value (le_bytes w z) = z mod 256 ^ Z.of_nat w.
Proof.
  revert z. induction w as [|w IH]; intros z.
  - simpl. rewrite Z.mod_1_r. reflexivity.
  - cbn [le_bytes le_value]. rewrite IH.
    rewrite Nat2Z.inj_succ, Z.pow_succ_r by lia.
    rewrite Z.rem_mul_r by lia. reflexivity.
Qed.

Lemma to_bytes_length (w : nat) (z : Z) : length (to_bytes w z) = w.
Proof.
  unfold to_bytes. destruct big_endian.
  - rewrite length_rev. apply le_bytes_length.
  - apply le_bytes_length.
Qed.

Lemma of_bytes_to_bytes (w : nat) (z : Z) :
  of_bytes (to_bytes w z) = z mod 256 ^ Z.of_nat w.
Proof.
  unfold of_bytes, to_bytes. destruct big_endian.
  - rewrite rev_involutive. apply le_value_le_bytes.
  - apply le_value_le_bytes.
Qed.

Lemma to_bytes_mod (w : nat) (z : Z) :
  to_bytes w (z mod 256 ^ Z.of_nat w) = to_bytes w z.
Proof.
  assert (H : forall w z, le_bytes w (z mod 256 ^ Z.of_nat w) = le_bytes w z).
  { clear. induction w as [|w IH]; intros z; [reflexivity|].
    cbn [le_bytes]. rewrite Nat2Z.inj_succ, Z.pow_succ_r by lia.
    assert (Hp : 0 < 256 ^ Z.of_nat w) by (apply Z.pow_pos_nonneg; lia).
    f_equal.
    - rewrite Z.rem_mul_r by lia.
      rewrite (Z.mul_comm 256), Z.mod_add by lia.
      apply Z.mod_mod. lia.
    - rewrite Z.rem_mul_r by lia.
      rewrite (Z.mul_comm 256), Z.div_add by lia.
      rewrite (Z.div_small (z mod 256)) by (apply Z.mod_pos_bound; lia).
      rewrite Z.add_0_l. apply IH. }
  unfold to_bytes. rewrite H. reflexivity.
Qed.

Lemma prim_bytes_len (p : prim) (v : Z) : len (prim_bytes p v) = sizeof p.
Proof. unfold len, prim_bytes, sizeof. rewrite to_bytes_length. reflexivity. Qed.

Lemma prim_bytes_u32 (z : Z) : prim_bytes U32 (to_u32 z) = prim_bytes U32 z.
Proof. unfold prim_bytes, to_u32. apply (to_bytes_mod 4). Qed.

Lemma sizeof_range (p : prim) : 1 <= sizeof p <= 8.
Proof. destruct p; cbv; split; congruence. Qed.

Lemma to_u32_sizeof (p : prim) : to_u32 (sizeof p) = sizeof p.
Proof. destruct p; reflexivity. Qed.

Lemma prim_value_bytes (p : prim) (v : Z) :
  in_range p v -> prim_value p (prim_bytes p v) = v.
Proof.
  unfold in_range, prim_value, prim_bytes. rewrite of_bytes_to_bytes.
  destruct p; cbn [is_signed andb]; intros H;
    repeat match goal with
    | |- context [?b ^ ?e] =>
        let k := eval cbv in (b ^ e) in change (b ^ e) with k
    | H0 : context [?b ^ ?e] |- _ =>
        let k := eval cbv in (b ^ e) in change (b ^ e) with k in H0
    end;
    try (apply Z.mod_small; exact H);
    match goal with
    | |- context [?a <=? ?b] => destruct (Z.leb_spec a b)
    end;
    Z.div_mod_to_equations; lia.
Qed.

Lemma prim_value_u32_bytes (z : Z) :
  prim_value U32 (prim_bytes U32 z) = to_u32 z.
Proof.
  rewrite <- prim_bytes_u32. apply prim_value_bytes.
  unfold in_range. cbn [is_signed]. apply to_u32_range.
Qed.

(** ** Writing and reading an image at the cursor *)

Lemma writes_ret : writes (ret tt) [].
Proof.
  intros pre mid post e Hlen _. unfold ret.
  destruct mid; [|rewrite len_cons, len_nil in Hlen; pose proof (len_nonneg mid); lia].
  rewrite len_nil, Z.add_0_r. reflexivity.
Qed.

Lemma writes_bind (m1 m2 : M Stream unit) (i1 i2 : list Z) :
  writes m1 i1 -> writes m2 i2 -> writes (m1 ;; m2) (i1 ++ i2).
Proof.
  intros H1 H2 pre mid post e Hlen Hroom.
  rewrite len_app in Hlen, Hroom.
  pose proof (len_nonneg i1) as Hi1. pose proof (len_nonneg i2) as Hi2.
  set (n := Z.to_nat (len i1)).
  assert (Hm1 : len (firstn n mid) = len i1).
  { unfold len at 1. rewrite length_firstn. unfold len in *. lia. }
  assert (Hm2 : len (skipn n mid) = len i2).
  { unfold len at 1. rewrite length_skipn. unfold len in *. lia. }
  unfold bind.
  rewrite <- (firstn_skipn n mid), <- app_assoc.
  rewrite (H1 pre (firstn n mid) (skipn n mid ++ post) e Hm1) by lia.
  replace (len pre + len i1) with (len (pre ++ i1)) by apply len_app.
  rewrite (app_assoc pre i1).
  rewrite (H2 (pre ++ i1) (skipn n mid) post e Hm2)
    by (rewrite len_app; lia).
  rewrite !len_app, <- !app_assoc, Z.add_assoc. reflexivity.
Qed.

Lemma writes_for_each {T : Type} (next : T -> M Stream unit)
    (img : T -> list Z) (v : list T) :
  (forall x, In x v -> writes (next x) (img x)) ->
  writes (for_each next v) (concat (map img v)).
Proof.
  induction v as [|x v IH]; intros H; cbn [for_each map concat].
  - apply writes_ret.
  - apply writes_bind.
    + apply H. left. reflexivity.
    + apply IH. intros y Hy. apply H. right. exact Hy.
Qed.

Lemma writes_advance_store (n : Z) (src : list Z) :
  to_u32 n = len src ->
  writes (q <- advance n ;; store q src) src.
Proof.
  intros Hn pre mid post e Hlen Hroom. unfold bind.
  rewrite advance_ok by (cbn [data_ end_]; lia).
  cbn [data_ end_ buf]. rewrite Hn.
  apply store_splice. exact Hlen.
Qed.

Lemma reads_ret {A : Type} (a : A) : reads (ret a) [] a.
Proof.
  intros pre post e _. unfold ret. rewrite len_nil, Z.add_0_r. reflexivity.
Qed.

Lemma reads_bind {A B : Type} (m : M Stream A) (k : A -> M Stream B)
    (i1 i2 : list Z) (a : A) (b : B) :
  reads m i1 a -> reads (k a) i2 b -> reads (bind m k) (i1 ++ i2) b.
Proof.
  intros H1 H2 pre post e Hroom. rewrite len_app in Hroom.
  pose proof (len_nonneg i1). pose proof (len_nonneg i2).
  unfold bind. rewrite <- app_assoc.
  rewrite (H1 pre (i2 ++ post) e) by lia.
  replace (len pre + len i1) with (len (pre ++ i1)) by apply len_app.
  rewrite (app_assoc pre i1).
  rewrite (H2 (pre ++ i1) post e) by (rewrite len_app; lia).
  rewrite !len_app, Z.add_assoc. reflexivity.
Qed.

Lemma reads_for_each_mut {T : Type} (next : T -> M Stream T)
    (img : T -> list Z) (v : list T) :
  forall olds,
  (forall old x, In old olds -> In x v -> reads (next old) (img x) x) ->
  length olds = length v ->
  reads (for_each_mut next olds) (concat (map img v)) v.
Proof.
  induction v as [|x v IH]; intros olds H Holds;
    destruct olds as [|old olds]; try discriminate Holds;
    cbn [for_each_mut map concat].
  - apply reads_ret.
  - apply reads_bind with (a := x).
    + apply H; left; reflexivity.
    + rewrite <- (app_nil_r (concat (map img v))).
      apply reads_bind with (a := v).
      * apply IH; [|simpl in Holds; congruence].
        intros o y Ho Hy. apply H; right; assumption.
      * apply reads_ret.
Qed.

Lemma reads_advance_load (n : Z) (src : list Z) :
  to_u32 n = len src ->
  reads (q <- advance n ;; load q (len src)) src src.
Proof.
  intros Hn pre post e Hroom. unfold bind.
  rewrite advance_ok by (cbn [data_ end_]; lia).
  cbn [data_ end_ buf]. rewrite Hn.
  apply load_splice.
Qed.

Lemma reads_advance_load_ret {B : Type} (n n' : Z) (src : list Z)
    (f : list Z -> B) :
  to_u32 n = len src -> n' = len src ->
  reads (q <- advance n ;; bs <- load q n' ;; ret (f bs)) src (f src).
Proof.
  intros Hn Hn' pre post e Hroom. subst n'. unfold bind.
  rewrite advance_ok by (cbn [data_ end_]; lia).
  cbn [data_ end_ buf]. rewrite load_splice, Hn. reflexivity.
Qed.

(** ** The primitive codecs, one by one *)

Lemma Simple_writes (p : prim) (v : Z) :
  writes (write (SimpleSerializer p) v) (prim_bytes p v).
Proof.
  cbn [write SimpleSerializer]. apply writes_advance_store.
  rewrite to_u32_sizeof, prim_bytes_len. reflexivity.
Qed.

Lemma Simple_reads (p : prim) (old v : Z) :
  in_range p v ->
  reads (read (SimpleSerializer p) old) (prim_bytes p v) v.
Proof.
  intros Hv. cbn [read SimpleSerializer].
  rewrite <- (prim_value_bytes p v Hv) at 2.
  apply reads_advance_load_ret;
    rewrite ?to_u32_sizeof, prim_bytes_len; reflexivity.
Qed.

Lemma U32_reads (old z : Z) :
  reads (read (SimpleSerializer U32) old) (prim_bytes U32 z) (to_u32 z).
Proof.
  rewrite <- prim_bytes_u32. apply Simple_reads.
  unfold in_range. cbn [is_signed]. apply to_u32_range.
Qed.

Lemma U32_reads_small (old z : Z) :
  0 <= z < 2 ^ 32 ->
  reads (read (SimpleSerializer U32) old) (prim_bytes U32 z) z.
Proof. intros Hz. apply Simple_reads. exact Hz. Qed.

Lemma Bool_writes (v : bool) :
  writes (write BoolSerializer v) [if v then 1 else 0].
Proof.
  cbn [write BoolSerializer]. apply writes_advance_store. reflexivity.
Qed.

Lemma Bool_reads (old v : bool) :
  reads (read BoolSerializer old) [if v then 1 else 0] v.
Proof.
  cbn [read BoolSerializer].
  replace v with (negb (prim_value U8 [if v then 1 else 0] =? 0)) at 2.
  - apply (reads_advance_load_ret 1 1 _
             (fun bs => negb (prim_value U8 bs =? 0))); reflexivity.
  - unfold prim_value, of_bytes. destruct big_endian, v; reflexivity.
Qed.

Lemma String_writes (str : list Z) :
  len str < 2 ^ 32 ->
  writes (write StringSerializer str) (prim_bytes U32 (len str) ++ str).
Proof.
  intros Hlen. cbn [write StringSerializer].
  apply writes_bind.
  - rewrite <- (prim_bytes_u32 (len str)). apply (Simple_writes U32).
  - destruct (Z.ltb_spec 0 (len str)).
    + apply writes_advance_store. apply to_u32_small. lia.
    + destruct str; [apply writes_ret|].
      rewrite len_cons in *. pose proof (len_nonneg str). lia.
Qed.

Lemma String_reads (old str : list Z) :
  len str < 2 ^ 32 ->
  reads (read StringSerializer old) (prim_bytes U32 (len str) ++ str) str.
Proof.
  intros Hlen. pose proof (len_nonneg str) as Hpos.
  cbn [read StringSerializer].
  apply reads_bind with (a := len str).
  - rewrite <- (to_u32_small (len str)) at 2 by lia. apply U32_reads.
  - destruct (Z.ltb_spec 0 (len str)).
    + apply reads_advance_load. apply to_u32_small. lia.
    + destruct str; [apply reads_ret|].
      rewrite len_cons in *. pose proof (len_nonneg str). lia.
Qed.

Lemma Time_writes (v : TimeBase) :
  writes (write TimeSerializer v)
    (prim_bytes U32 (sec v) ++ prim_bytes U32 (nsec v)).
Proof. cbn [write TimeSerializer]. apply writes_bind; apply Simple_writes. Qed.

Lemma Duration_writes (v : TimeBase) :
  writes (write DurationSerializer v)
    (prim_bytes I32 (sec v) ++ prim_bytes I32 (nsec v)).
Proof.
  cbn [write DurationSerializer]. apply writes_bind; apply Simple_writes.
Qed.

Lemma Time_reads (old v : TimeBase) :
  in_range U32 (sec v) -> in_range U32 (nsec v) ->
  reads (read TimeSerializer old)
    (prim_bytes U32 (sec v) ++ prim_bytes U32 (nsec v)) v.
Proof.
  intros Hs Hn. cbn [read TimeSerializer].
  apply reads_bind with (a := sec v); [apply Simple_reads; exact Hs|].
  rewrite <- (app_nil_r (prim_bytes U32 (nsec v))).
  apply reads_bind with (a := nsec v); [apply Simple_reads; exact Hn|].
  destruct v. apply reads_ret.
Qed.

Lemma Duration_reads (old v : TimeBase) :
  in_range I32 (sec v) -> in_range I32 (nsec v) ->
  reads (read DurationSerializer old)
    (prim_bytes I32 (sec v) ++ prim_bytes I32 (nsec v)) v.
Proof.
  intros Hs Hn. cbn [read DurationSerializer].
  apply reads_bind with (a := sec v); [apply Simple_reads; exact Hs|].
  rewrite <- (app_nil_r (prim_bytes I32 (nsec v))).
  apply reads_bind with (a := nsec v); [apply Simple_reads; exact Hn|].
  destruct v. apply reads_ret.
Qed.

(** ** Storage of a run of simple values *)

Lemma raw_bytes_len (p : prim) (v : list Z) :
  len (raw_bytes p v) = len v * sizeof p.
Proof.
  unfold raw_bytes. induction v as [|x v IH]; [reflexivity|].
  cbn [map concat]. rewrite len_app, len_cons, IH, prim_bytes_len. lia.
Qed.

Lemma from_raw_raw_bytes (p : prim) (v rest : list Z) :
  Forall (in_range p) v ->
  from_raw p (length v) (raw_bytes p v ++ rest) = v.
Proof.
  unfold raw_bytes. induction 1 as [|x v Hx Hv IH]; [reflexivity|].
  cbn [length from_raw map concat]. rewrite <- app_assoc.
  assert (Hw : width p = length (prim_bytes p x))
    by (unfold prim_bytes; rewrite to_bytes_length; reflexivity).
  rewrite Hw at 1 2.
  rewrite firstn_app, Nat.sub_diag, firstn_all, firstn_O, app_nil_r.
  rewrite skipn_app, Nat.sub_diag, skipn_all. cbn [app skipn].
  rewrite prim_value_bytes by exact Hx. rewrite IH. reflexivity.
Qed.

Lemma resize_length {T : Type} (n : Z) (v : list T) (d : T) :
  length (resize n v d) = Z.to_nat n.
Proof.
  unfold resize. rewrite length_app, length_firstn, repeat_length. lia.
Qed.

Lemma firstn_len_all {A : Type} (n : Z) (l : list A) :
  len l <= n -> firstn (Z.to_nat n) l = l.
Proof. intros H. apply firstn_all2. unfold len in H. lia. Qed.

Lemma skipn_len_all {A : Type} (n : Z) (l : list A) :
  len l <= n -> skipn (Z.to_nat n) l = [].
Proof. intros H. apply skipn_all2. unfold len in H. lia. Qed.

(** ** Sizes *)

Lemma len_concat_ge {T : Type} (img : T -> list Z) (v : list T) (x : T) :
  In x v -> len (img x) <= len (concat (map img v)).
Proof.
  induction v as [|y v IH]; intros Hin; [contradiction|].
  cbn [map concat]. rewrite len_app.
  pose proof (len_nonneg (img y)).
  pose proof (len_nonneg (concat (map img v))).
  destruct Hin as [->|Hin]; [lia|]. specialize (IH Hin). lia.
Qed.

Lemma len_concat_const {T : Type} (img : T -> list Z) (v : list T) (c : Z) :
  (forall x, In x v -> len (img x) = c) ->
  len (concat (map img v)) = len v * c.
Proof.
  induction v as [|y v IH]; intros H; [reflexivity|].
  cbn [map concat]. rewrite len_app, len_cons, IH, (H y).
  - lia.
  - left. reflexivity.
  - intros x Hx. apply H. right. exact Hx.
Qed.

Lemma len_concat_count {T : Type} (img : T -> list Z) (v : list T) :
  (forall x, In x v -> 1 <= len (img x)) ->
  len v <= len (concat (map img v)).
Proof.
  induction v as [|y v IH]; intros H; [reflexivity|].
  cbn [map concat]. rewrite len_app, len_cons.
  assert (1 <= len (img y)) by (apply H; left; reflexivity).
  assert (len v <= len (concat (map img v)))
    by (apply IH; intros x Hx; apply H; right; exact Hx).
  lia.
Qed.

Lemma wf_val_array_nonempty (T : ty) (N : positive) (v : denote (TArray T N)) :
  wf_val (TArray T N) v -> 1 <= len v.
Proof. intros [Hlen _]. unfold len. lia. Qed.

Lemma wire_size_pos (t : ty) :
  specialised t = true ->
  forall v, wf_val t v -> 1 <= wire_size t v.
Proof.
  unfold wire_size.
  induction t as [p| | | | |T IH|T IH N|]; intros Hs v Hv;
    cbn [wire_image specialised] in *; try discriminate Hs;
    rewrite ?len_app, ?prim_bytes_len.
  - pose proof (sizeof_range p). lia.
  - rewrite len_cons. pose proof (len_nonneg (@nil Z)). lia.
  - pose proof (len_nonneg v). cbv [sizeof width]. lia.
  - cbv [sizeof width]. lia.
  - cbv [sizeof width]. lia.
  - pose proof (len_nonneg (concat (map (wire_image T) v))).
    cbv [sizeof width]. lia.
  - pose proof (wf_val_array_nonempty T N v Hv).
    destruct Hv as [_ Hv]. rewrite Forall_forall in Hv.
    assert (len v <= len (concat (map (wire_image T) v)))
      by (apply len_concat_count; intros x Hx; apply IH; auto).
    lia.
Qed.

Lemma fixed_size_wire_size (t : ty) :
  IsFixedSize t = true -> specialised t = true ->
  forall v, wf_val t v -> wire_size t v = fixed_size t.
Proof.
  unfold wire_size.
  induction t as [p| | | | |T IH|T IH N|]; intros Hf Hs v Hv;
    cbn [wire_image specialised IsFixedSize fixed_size] in *;
    try discriminate; rewrite ?len_app, ?prim_bytes_len; try reflexivity.
  destruct Hv as [Hlen Hv]. rewrite Forall_forall in Hv.
  rewrite (len_concat_const _ _ (fixed_size T)) by (intros x Hx; apply IH; auto).
  f_equal. unfold len. rewrite <- positive_nat_Z. f_equal. exact Hlen.
Qed.

Lemma wf_default (t : ty) : wf_val t (default_value t).
Proof.
  induction t as [p| | | | |T IH|T IH N|];
    cbn [wf_val default_value sec nsec]; auto.
  - unfold in_range. destruct p; cbn [is_signed];
      match goal with
      | |- context [2 ^ ?e] =>
          let k := eval cbv in (2 ^ e) in change (2 ^ e) with k
      end; lia.
  - split; cbv; split; congruence.
  - split; cbv; split; congruence.
  - split; [apply repeat_length|].
    apply Forall_forall. intros x Hx. apply repeat_spec in Hx. subst x. exact IH.
Qed.

Lemma In_firstn {A : Type} (n : nat) (l : list A) (x : A) :
  In x (firstn n l) -> In x l.
Proof.
  revert l. induction n as [|n IH]; intros [|y l] H; simpl in H;
    try contradiction.
  destruct H as [->|H]; [left; reflexivity | right; apply IH; exact H].
Qed.

Lemma wf_resize (T : ty) (n : Z) (v : list (denote T)) :
  Forall (wf_val T) v -> Forall (wf_val T) (resize n v (default_value T)).
Proof.
  intros Hv. unfold resize. apply Forall_app. split.
  - rewrite Forall_forall in *. intros x Hx. apply Hv.
    eapply In_firstn; eauto.
  - apply Forall_forall. intros x Hx. apply repeat_spec in Hx. subst x.
    apply wf_default.
Qed.

(** ** Dispatch of the container codecs *)

Lemma IsSimple_inv (T : ty) : IsSimple T = true -> exists p, T = TPrim p.
Proof. destruct T; try discriminate. intros _. eexists. reflexivity. Qed.

Lemma VectorSerializer_write (T : ty) :
  IsSimple T = false ->
  forall (E : Serializer (denote T)) (v : list (denote T)),
  write (VectorSerializer T E) v
  = (write (SimpleSerializer U32) (to_u32 (len v)) ;; for_each (write E) v).
Proof.
  destruct T; try discriminate; intros _ E v; cbn [VectorSerializer];
    match goal with
    | |- context [if ?b then _ else _] => destruct b
    | _ => idtac
    end; reflexivity.
Qed.

Lemma VectorSerializer_read (T : ty) :
  IsSimple T = false ->
  forall (E : Serializer (denote T)) (v : list (denote T)),
  read (VectorSerializer T E) v
  = (len <- read (SimpleSerializer U32) 0 ;;
     for_each_mut (read E) (resize len v (default_value T))).
Proof.
  destruct T; try discriminate; intros _ E v; cbn [VectorSerializer];
    match goal with
    | |- context [if ?b then _ else _] => destruct b
    | _ => idtac
    end; reflexivity.
Qed.

Lemma ArraySerializer_write (T : ty) (N : positive) :
  IsSimple T = false ->
  forall (E : Serializer (denote T)) (v : list (denote T)),
  write (ArraySerializer T N E) v = for_each (write E) v.
Proof.
  destruct T; try discriminate; intros _ E v; cbn [ArraySerializer];
    match goal with
    | |- context [if ?b then _ else _] => destruct b
    | _ => idtac
    end; reflexivity.
Qed.

Lemma ArraySerializer_read (T : ty) (N : positive) :
  IsSimple T = false ->
  forall (E : Serializer (denote T)) (v : list (denote T)),
  read (ArraySerializer T N E) v = for_each_mut (read E) v.
Proof.
  destruct T; try discriminate; intros _ E v; cbn [ArraySerializer];
    match goal with
    | |- context [if ?b then _ else _] => destruct b
    | _ => idtac
    end; reflexivity.
Qed.

Lemma VectorSerializer_length_fixed (T : ty) :
  IsSimple T = false -> IsFixedSize T = true ->
  forall (E : Serializer (denote T)) (v : list (denote T)),
  serializedLength (VectorSerializer T E) v
  = serializedLength (VectorSerializer_fixed E (default_value T)) v.
Proof.
  destruct T; try discriminate; intros _ Hf E v; cbn [VectorSerializer];
    try rewrite Hf; reflexivity.
Qed.

Lemma VectorSerializer_length_nonfixed (T : ty) :
  IsFixedSize T = false ->
  forall (E : Serializer (denote T)) (v : list (denote T)),
  serializedLength (VectorSerializer T E) v
  = serializedLength (VectorSerializer_nonfixed E (default_value T)) v.
Proof.
  destruct T; try discriminate; intros Hf E v; cbn [VectorSerializer];
    try rewrite Hf; reflexivity.
Qed.

Lemma ArraySerializer_length_fixed (T : ty) (N : positive) :
  IsSimple T = false -> IsFixedSize T = true ->
  forall (E : Serializer (denote T)) (v : list (denote T)),
  serializedLength (ArraySerializer T N E) v
  = serializedLength (ArraySerializer_fixed E (Z.pos N)) v.
Proof.
  destruct T; try discriminate; intros _ Hf E v; cbn [ArraySerializer];
    try rewrite Hf; reflexivity.
Qed.

Lemma ArraySerializer_length_nonfixed (T : ty) (N : positive) :
  IsFixedSize T = false ->
  forall (E : Serializer (denote T)) (v : list (denote T)),
  serializedLength (ArraySerializer T N E) v
  = serializedLength (ArraySerializer_nonfixed E) v.
Proof.
  destruct T; try discriminate; intros Hf E v; cbn [ArraySerializer];
    try rewrite Hf; reflexivity.
Qed.

(** ** The write pass puts the wire image at the cursor *)

Lemma VectorSerializer_simple_writes (p : prim) (v : list Z) :
  4 + len v * sizeof p < 2 ^ 32 ->
  writes (write (VectorSerializer_simple p) v)
    (prim_bytes U32 (len v) ++ raw_bytes p v).
Proof.
  intros Hsz. pose proof (len_nonneg v) as Hv. pose proof (sizeof_range p) as Hp.
  cbn [write VectorSerializer_simple].
  apply writes_bind.
  - rewrite <- (prim_bytes_u32 (len v)). apply (Simple_writes U32).
  - destruct v as [|x v]; [apply writes_ret|].
    rewrite (to_u32_small (len (x :: v))) by nia.
    rewrite (to_u32_small (len (x :: v) * sizeof p)) by nia.
    rewrite firstn_len_all by (rewrite raw_bytes_len; lia).
    apply writes_advance_store.
    rewrite raw_bytes_len. apply to_u32_small. nia.
Qed.

Lemma ArraySerializer_simple_writes (p : prim) (N : Z) (v : list Z) :
  len v = N -> N * sizeof p < 2 ^ 32 ->
  writes (write (ArraySerializer_simple p N) v) (raw_bytes p v).
Proof.
  intros HN Hsz. pose proof (len_nonneg v) as Hv.
  pose proof (sizeof_range p) as Hp. subst N.
  cbn [write ArraySerializer_simple].
  rewrite (to_u32_small (len v * sizeof p)) by nia.
  rewrite firstn_len_all by (rewrite raw_bytes_len; lia).
  apply writes_advance_store.
  rewrite raw_bytes_len. apply to_u32_small. nia.
Qed.

Lemma codec_writes (t : ty) :
  specialised t = true ->
  forall v, wf_val t v -> wire_size t v < 2 ^ 32 ->
  writes (write (codec t) v) (wire_image t v).
Proof.
  unfold wire_size.
  induction t as [p| | | | |T IH|T IH N|]; intros Hs v Hv Hsz;
    cbn [specialised] in Hs; try discriminate Hs;
    cbn [codec wire_image denote] in *.
  - apply Simple_writes.
  - apply Bool_writes.
  - apply String_writes. rewrite len_app, prim_bytes_len in Hsz.
    pose proof (sizeof_range U32). lia.
  - apply Time_writes.
  - apply Duration_writes.
  - rewrite len_app, prim_bytes_len in Hsz. change (sizeof U32) with 4 in Hsz.
    destruct (IsSimple T) eqn:Hsimple.
    + apply IsSimple_inv in Hsimple. destruct Hsimple as [p ->].
      change (concat (map (wire_image (TPrim p)) v)) with (raw_bytes p v) in *.
      cbn [VectorSerializer].
      apply VectorSerializer_simple_writes.
      rewrite raw_bytes_len in Hsz. exact Hsz.
    + rewrite (VectorSerializer_write T Hsimple (codec T) v).
      apply writes_bind.
      * rewrite <- prim_bytes_u32. apply (Simple_writes U32).
      * apply writes_for_each. intros x Hx.
        cbn [wf_val] in Hv. rewrite Forall_forall in Hv.
        apply IH; [exact Hs | apply Hv; exact Hx |].
        pose proof (len_concat_ge (wire_image T) v x Hx). lia.
  - destruct Hv as [Hlen Hv].
    destruct (IsSimple T) eqn:Hsimple.
    + apply IsSimple_inv in Hsimple. destruct Hsimple as [p ->].
      change (concat (map (wire_image (TPrim p)) v)) with (raw_bytes p v) in *.
      cbn [ArraySerializer].
      rewrite raw_bytes_len in Hsz.
      assert (HN : len v = Z.pos N)
        by (unfold len; rewrite <- positive_nat_Z; f_equal; exact Hlen).
      apply ArraySerializer_simple_writes; [exact HN | rewrite <- HN; exact Hsz].
    + rewrite (ArraySerializer_write T N Hsimple (codec T) v).
      apply writes_for_each. intros x Hx.
      rewrite Forall_forall in Hv.
      apply IH; [exact Hs | apply Hv; exact Hx |].
      pose proof (len_concat_ge (wire_image T) v x Hx). lia.
Qed.

(** ** The read pass recovers the value from its wire image *)

Lemma VectorSerializer_simple_reads (p : prim) (old v : list Z) :
  Forall (in_range p) v ->
  4 + len v * sizeof p < 2 ^ 32 ->
  reads (read (VectorSerializer_simple p) old)
    (prim_bytes U32 (len v) ++ raw_bytes p v) v.
Proof.
  intros Hr Hsz. pose proof (len_nonneg v) as Hv.
  pose proof (sizeof_range p) as Hp.
  cbn [read VectorSerializer_simple].
  apply reads_bind with (a := len v).
  - rewrite <- (to_u32_small (len v)) at 2 by nia. apply U32_reads.
  - cbv zeta. destruct (Z.ltb_spec 0 (len v)) as [Hpos|Hzero].
    + rewrite (to_u32_small (sizeof p * len v)) by nia.
      assert (Hlen : length (resize (len v) old 0) = length v)
        by (rewrite resize_length; unfold len; apply Nat2Z.id).
      rewrite Hlen.
      rewrite skipn_len_all
        by (rewrite raw_bytes_len; unfold len at 1; rewrite Hlen;
            fold (len v); lia).
      rewrite <- (from_raw_raw_bytes p v [] Hr) at 3.
      apply (reads_advance_load_ret _ _ _
               (fun bs => from_raw p (length v) (bs ++ []))).
      * rewrite raw_bytes_len, (Z.mul_comm (len v)). apply to_u32_small. nia.
      * rewrite raw_bytes_len. lia.
    + destruct v as [|x v];
        [|rewrite len_cons in Hzero; pose proof (len_nonneg v); lia].
      unfold resize. cbn. apply reads_ret.
Qed.

Lemma ArraySerializer_simple_reads (p : prim) (N : Z) (old v : list Z) :
  Forall (in_range p) v ->
  length old = length v -> len v = N -> N * sizeof p < 2 ^ 32 ->
  reads (read (ArraySerializer_simple p N) old) (raw_bytes p v) v.
Proof.
  intros Hr Hold HN Hsz. pose proof (len_nonneg v) as Hv.
  pose proof (sizeof_range p) as Hp. subst N.
  cbn [read ArraySerializer_simple].
  rewrite (to_u32_small (len v * sizeof p)) by nia.
  rewrite Hold.
  rewrite skipn_len_all
    by (rewrite raw_bytes_len; unfold len at 1; rewrite Hold;
        fold (len v); lia).
  rewrite <- (from_raw_raw_bytes p v [] Hr) at 3.
  apply (reads_advance_load_ret _ _ _
           (fun bs => from_raw p (length v) (bs ++ []))).
  - rewrite raw_bytes_len. apply to_u32_small. nia.
  - rewrite raw_bytes_len. lia.
Qed.

Lemma codec_reads (t : ty) :
  specialised t = true ->
  forall v old, wf_val t v -> wf_val t old -> wire_size t v < 2 ^ 32 ->
  reads (read (codec t) old) (wire_image t v) v.
Proof.
  induction t as [p| | | | |T IH|T IH N|]; intros Hs v old Hv Hold Hsz;
    cbn [specialised] in Hs; try discriminate Hs; cbn [denote] in *.
  - apply Simple_reads. exact Hv.
  - apply Bool_reads.
  - apply String_reads. unfold wire_size in Hsz. cbn [wire_image] in Hsz.
    rewrite len_app, prim_bytes_len in Hsz.
    pose proof (sizeof_range U32). lia.
  - destruct Hv. apply Time_reads; assumption.
  - destruct Hv. apply Duration_reads; assumption.
  - assert (Hcount : len v <= len (concat (map (wire_image T) v))).
    { apply len_concat_count. intros x Hx. apply (wire_size_pos T Hs).
      cbn [wf_val] in Hv. rewrite Forall_forall in Hv. apply Hv. exact Hx. }
    unfold wire_size in Hsz. cbn [wire_image] in Hsz.
    rewrite len_app, prim_bytes_len in Hsz. change (sizeof U32) with 4 in Hsz.
    pose proof (len_nonneg v) as Hnn.
    destruct (IsSimple T) eqn:Hsimple.
    + apply IsSimple_inv in Hsimple. destruct Hsimple as [p ->].
      cbn [codec VectorSerializer wire_image].
      change (concat (map (wire_image (TPrim p)) v)) with (raw_bytes p v) in *.
      rewrite raw_bytes_len in Hsz.
      apply VectorSerializer_simple_reads; [exact Hv | exact Hsz].
    + cbn [codec wire_image denote] in *.
      rewrite (VectorSerializer_read T Hsimple (codec T) old).
      apply reads_bind with (a := len v).
      * apply U32_reads_small. lia.
      * cbn [wf_val] in Hv, Hold.
        apply reads_for_each_mut.
        -- intros o x Ho Hx.
           pose proof (wf_resize T (len v) old Hold) as Hres.
           rewrite Forall_forall in Hv, Hres.
           apply IH; [exact Hs | apply Hv; exact Hx | apply Hres; exact Ho |].
           pose proof (len_concat_ge (wire_image T) v x Hx).
           unfold wire_size. lia.
        -- rewrite resize_length. unfold len. apply Nat2Z.id.
  - destruct Hv as [Hlen Hv]. destruct Hold as [Holdlen Hold].
    unfold wire_size in Hsz. cbn [wire_image] in Hsz.
    destruct (IsSimple T) eqn:Hsimple.
    + apply IsSimple_inv in Hsimple. destruct Hsimple as [p ->].
      cbn [codec ArraySerializer wire_image].
      change (concat (map (wire_image (TPrim p)) v)) with (raw_bytes p v) in *.
      rewrite raw_bytes_len in Hsz.
      assert (HN : len v = Z.pos N)
        by (unfold len; rewrite <- positive_nat_Z; f_equal; exact Hlen).
      apply ArraySerializer_simple_reads;
        [exact Hv
        | transitivity (Pos.to_nat N); [exact Holdlen | symmetry; exact Hlen]
        | exact HN | rewrite <- HN; exact Hsz].
    + cbn [codec wire_image denote] in *.
      rewrite (ArraySerializer_read T N Hsimple (codec T) old).
      apply reads_for_each_mut.
      * intros o x Ho Hx. rewrite Forall_forall in Hv, Hold.
        apply IH; [exact Hs | apply Hv; exact Hx | apply Hold; exact Ho |].
        pose proof (len_concat_ge (wire_image T) v x Hx).
        unfold wire_size. lia.
      * transitivity (Pos.to_nat N); [exact Holdlen | symmetry; exact Hlen].
Qed.

(** ** The length pass adds the wire size, modulo 2^32 *)

Lemma measures_ret : measures (ret tt) 0.
Proof.
  intros [c] Hc. cbn [count_] in *. unfold ret.
  rewrite Z.add_0_r, to_u32_small by exact Hc. reflexivity.
Qed.

Lemma measures_bind (m1 m2 : M LStream unit) (n1 n2 : Z) :
  measures m1 n1 -> measures m2 n2 -> measures (m1 ;; m2) (n1 + n2).
Proof.
  intros H1 H2 ls Hc. unfold bind. rewrite (H1 ls Hc).
  rewrite H2 by (cbn [count_]; apply to_u32_range).
  cbn [count_]. rewrite to_u32_add_l, Z.add_assoc. reflexivity.
Qed.

Lemma measures_advance (n n' : Z) :
  to_u32 n = to_u32 n' -> measures (advance n ;; ret tt) n'.
Proof.
  intros Hn ls _. unfold bind, ret. cbn [advance LStream_ops].
  unfold LStream_advance. rewrite Hn, to_u32_add_r. reflexivity.
Qed.

Lemma measures_advance_then (n : Z) (m : M LStream unit) (k : Z) :
  measures m k -> measures (advance n ;; m) (n + k).
Proof.
  intros Hm ls Hc.
  assert (H : measures ((advance n ;; ret tt) ;; m) (n + k))
    by (apply measures_bind; [apply measures_advance; reflexivity | exact Hm]).
  rewrite <- (H ls Hc). reflexivity.
Qed.

Lemma measures_for_each {T : Type} (next : T -> M LStream unit)
    (img : T -> list Z) (v : list T) :
  (forall x, In x v -> measures (next x) (len (img x))) ->
  measures (for_each next v) (len (concat (map img v))).
Proof.
  induction v as [|x v IH]; intros H; cbn [for_each map concat].
  - apply measures_ret.
  - rewrite len_app. apply measures_bind.
    + apply H. left. reflexivity.
    + apply IH. intros y Hy. apply H. right. exact Hy.
Qed.

Lemma measure_of (m : M LStream unit) (n : Z) (ls : LStream) :
  measures m n -> measure m ls = (Ok (to_u32 n), ls).
Proof.
  intros Hm. unfold measure.
  rewrite (Hm LStream_new) by (cbn; lia). reflexivity.
Qed.

Lemma VectorSerializer_fixed_measures {T : Type} (E : Serializer T) (d : T)
    (img : T -> list Z) (c : Z) (v : list T) :
  (forall x, In x v -> measures (serializedLength E x) (len (img x))) ->
  (forall x, In x v -> len (img x) = c) ->
  measures (serializedLength (VectorSerializer_fixed E d) v)
    (4 + len (concat (map img v))).
Proof.
  intros Hm Hc. cbn [serializedLength VectorSerializer_fixed].
  apply measures_advance_then.
  rewrite (len_concat_const img v c Hc).
  destruct v as [|x v]; [apply measures_ret|].
  intros ls Hls. unfold bind at 1.
  rewrite (measure_of _ (len (img x))) by (apply Hm; left; reflexivity).
  apply measures_advance; [|exact Hls].
  rewrite to_u32_idem, to_u32_mul_l, to_u32_mul_r, (Hc x), Z.mul_comm;
    [reflexivity | left; reflexivity].
Qed.

Lemma ArraySerializer_fixed_measures {T : Type} (E : Serializer T)
    (img : T -> list Z) (c N : Z) (v : list T) :
  (forall x, In x v -> measures (serializedLength E x) (len (img x))) ->
  (forall x, In x v -> len (img x) = c) ->
  len v = N -> 1 <= N ->
  measures (serializedLength (ArraySerializer_fixed E N) v)
    (len (concat (map img v))).
Proof.
  intros Hm Hc HN Hpos. cbn [serializedLength ArraySerializer_fixed].
  rewrite (len_concat_const img v c Hc).
  destruct v as [|x v]; [rewrite len_nil in HN; lia|].
  intros ls Hls. unfold bind at 1.
  rewrite (measure_of _ (len (img x))) by (apply Hm; left; reflexivity).
  apply measures_advance; [|exact Hls].
  rewrite to_u32_mul_l, (Hc x), HN, Z.mul_comm;
    [reflexivity | left; reflexivity].
Qed.

Lemma codec_measures (t : ty) :
  specialised t = true ->
  forall v, wf_val t v ->
  measures (serializedLength (codec t) v) (wire_size t v).
Proof.
  unfold wire_size.
  induction t as [p| | | | |T IH|T IH N|]; intros Hs v Hv;
    cbn [specialised] in Hs; try discriminate Hs;
    cbn [codec wire_image denote] in *;
    rewrite ?len_app, ?prim_bytes_len.
  - apply measures_advance. reflexivity.
  - apply measures_advance. reflexivity.
  - apply measures_advance.
    rewrite to_u32_idem, to_u32_add_r. reflexivity.
  - apply measures_advance. reflexivity.
  - apply measures_advance. reflexivity.
  - cbn [wf_val] in Hv. rewrite Forall_forall in Hv.
    change (sizeof U32) with 4.
    destruct (IsSimple T) eqn:Hsimple.
    + apply IsSimple_inv in Hsimple. destruct Hsimple as [p ->].
      cbn [denote] in *.
      change (concat (map (wire_image (TPrim p)) v)) with (raw_bytes p v).
      rewrite raw_bytes_len. cbn [VectorSerializer].
      apply measures_advance. reflexivity.
    + destruct (IsFixedSize T) eqn:Hfixed.
      * rewrite (VectorSerializer_length_fixed T Hsimple Hfixed (codec T) v).
        apply (VectorSerializer_fixed_measures _ _ _ (fixed_size T)).
        -- intros x Hx. apply IH; auto.
        -- intros x Hx. apply (fixed_size_wire_size T); auto.
      * rewrite (VectorSerializer_length_nonfixed T Hfixed (codec T) v).
        apply measures_advance_then. apply measures_for_each.
        intros x Hx. apply IH; auto.
  - assert (HN : len v = Z.pos N)
      by (destruct Hv as [Hlen _]; unfold len; rewrite <- positive_nat_Z;
          f_equal; exact Hlen).
    destruct Hv as [_ Hv]. rewrite Forall_forall in Hv.
    destruct (IsSimple T) eqn:Hsimple.
    + apply IsSimple_inv in Hsimple. destruct Hsimple as [p ->].
      cbn [denote] in *.
      change (concat (map (wire_image (TPrim p)) v)) with (raw_bytes p v).
      rewrite raw_bytes_len, HN. cbn [ArraySerializer].
      apply measures_advance. reflexivity.
    + destruct (IsFixedSize T) eqn:Hfixed.
      * rewrite (ArraySerializer_length_fixed T N Hsimple Hfixed (codec T) v).
        apply (ArraySerializer_fixed_measures _ _ (fixed_size T)).
        -- intros x Hx. apply IH; auto.
        -- intros x Hx. apply (fixed_size_wire_size T); auto.
        -- exact HN.
        -- lia.
      * rewrite (ArraySerializer_length_nonfixed T N Hfixed (codec T) v).
        apply measures_for_each. intros x Hx. apply IH; auto.
Qed.

(** ** The cursor and the bound under every operation *)

Lemma bounded_ret {A : Type} (a : A) : bounded (ret a).
Proof.
  intros s r s' H. unfold ret in H. inversion H; subst.
  repeat split; auto; lia.
Qed.

Lemma bounded_throw {A : Type} (f : failure) : bounded (@throw Stream A f).
Proof.
  intros s r s' H. unfold throw in H. inversion H; subst.
  repeat split; try lia. intros a Ha. discriminate Ha.
Qed.

Lemma bounded_bind {A B : Type} (m : M Stream A) (k : A -> M Stream B) :
  bounded m -> (forall a, bounded (k a)) -> bounded (bind m k).
Proof.
  intros Hm Hk s r s' H. unfold bind in H.
  destruct (m s) as [[a|f] s1] eqn:Hms.
  - destruct (Hm _ _ _ Hms) as (He1 & Hd1 & Hin1).
    destruct (Hk a _ _ _ H) as (He2 & Hd2 & Hin2).
    repeat split; try lia.
    intros b Hb Hs. apply (Hin2 b Hb). apply (Hin1 a eq_refl Hs).
  - inversion H; subst.
    destruct (Hm _ _ _ Hms) as (He1 & Hd1 & _).
    repeat split; try lia. intros a Ha. discriminate Ha.
Qed.

Lemma bounded_advance (n : Z) : bounded (advance n).
Proof.
  intros s r s' H. cbn [advance Stream_ops] in H. unfold Stream_advance in H.
  cbn [data_ end_] in H. pose proof (to_u32_range n).
  destruct (Z.ltb_spec (end_ s) (data_ s + to_u32 n));
    inversion H; subst; cbn [data_ end_]; unfold cursor_in_bounds;
    repeat split; cbn [data_ end_]; try lia.
  intros a Ha. discriminate Ha.
Qed.

Lemma bounded_store (p : Z) (src : list Z) : bounded (store p src).
Proof.
  intros s r s' H. unfold store in H.
  destruct (in_buffer (buf s) p (len src)); inversion H; subst;
    unfold cursor_in_bounds; cbn [data_ end_]; repeat split; auto; lia.
Qed.

Lemma bounded_load (p n : Z) : bounded (load p n).
Proof.
  intros s r s' H. unfold load in H.
  destruct (in_buffer (buf s) p n); inversion H; subst;
    repeat split; auto; lia.
Qed.

Lemma bounded_getData : bounded getData.
Proof.
  intros s r s' H. unfold getData in H. inversion H; subst.
  repeat split; auto; lia.
Qed.

Lemma bounded_getLength : bounded (getLength (St := Stream)).
Proof.
  intros s r s' H. cbn [getLength Stream_ops] in H.
  unfold Stream_getLength in H. inversion H; subst.
  repeat split; auto; lia.
Qed.

Lemma bounded_if {A : Type} (b : bool) (m1 m2 : M Stream A) :
  bounded m1 -> bounded m2 -> bounded (if b then m1 else m2).
Proof. destruct b; auto. Qed.

Lemma bounded_for_each {T : Type} (next : T -> M Stream unit) (v : list T) :
  (forall x, bounded (next x)) -> bounded (for_each next v).
Proof.
  intros H. induction v as [|x v IH]; cbn [for_each].
  - apply bounded_ret.
  - apply bounded_bind; auto.
Qed.

Lemma bounded_for_each_mut {T : Type} (next : T -> M Stream T) (v : list T) :
  (forall x, bounded (next x)) -> bounded (for_each_mut next v).
Proof.
  intros H. induction v as [|x v IH]; cbn [for_each_mut].
  - apply bounded_ret.
  - apply bounded_bind; [apply H|]. intros x'.
    apply bounded_bind; [exact IH|]. intros r. apply bounded_ret.
Qed.

Create HintDb bounded_db.
#[local] Hint Resolve bounded_ret bounded_throw bounded_advance bounded_store
  bounded_load bounded_getData bounded_getLength bounded_for_each
  bounded_for_each_mut : bounded_db.

Ltac bounded_steps :=
  repeat first
    [ apply bounded_bind; [|intros ?]
    | apply bounded_if
    | match goal with
      | |- bounded (match ?v with [] => _ | _ :: _ => _ end) => destruct v
      end
    | solve [auto with bounded_db] ].

Lemma Simple_bounded (p : prim) (v : Z) :
  bounded (write (SimpleSerializer p) v) /\
  bounded (read (SimpleSerializer p) v).
Proof. split; cbn [write read SimpleSerializer]; bounded_steps. Qed.

Lemma Default_bounded (t : carrier user) :
  bounded (write DefaultSerializer t) /\ bounded (read DefaultSerializer t).
Proof.
  split; cbn [write read DefaultSerializer].
  - apply bounded_bind; [apply bounded_getData|]. intros q s r s' H.
    destruct (u_serialize user t q 0 (buf s)); inversion H; subst;
      unfold cursor_in_bounds; cbn [data_ end_]; repeat split; auto; lia.
  - apply bounded_bind; [apply bounded_getLength|]. intros l.
    apply bounded_bind; [apply bounded_getData|]. intros q s r s' H.
    destruct (u_deserialize user _ q (buf s)); inversion H; subst;
      repeat split; auto; lia.
Qed.

Lemma codec_bounded (t : ty) :
  forall v, bounded (write (codec t) v) /\ bounded (read (codec t) v).
Proof.
  induction t as [p| | | | |T IH|T IH N|]; intros v; cbn [codec denote] in *.
  - apply Simple_bounded.
  - split; cbn [write read BoolSerializer]; bounded_steps.
  - split; cbn [write read StringSerializer]; bounded_steps;
      apply Simple_bounded.
  - split; cbn [write read TimeSerializer]; bounded_steps;
      apply Simple_bounded.
  - split; cbn [write read DurationSerializer]; bounded_steps;
      apply Simple_bounded.
  - destruct (IsSimple T) eqn:Hsimple.
    + apply IsSimple_inv in Hsimple. destruct Hsimple as [p ->].
      cbn [VectorSerializer].
      split; cbn [write read VectorSerializer_simple]; bounded_steps;
        apply Simple_bounded.
    + rewrite (VectorSerializer_write T Hsimple (codec T) v).
      rewrite (VectorSerializer_read T Hsimple (codec T) v).
      split; bounded_steps; try apply Simple_bounded.
      * apply bounded_for_each. intros x. apply IH.
      * apply bounded_for_each_mut. intros x. apply IH.
  - destruct (IsSimple T) eqn:Hsimple.
    + apply IsSimple_inv in Hsimple. destruct Hsimple as [p ->].
      cbn [ArraySerializer].
      split; cbn [write read ArraySerializer_simple]; bounded_steps.
    + rewrite (ArraySerializer_write T N Hsimple (codec T) v).
      rewrite (ArraySerializer_read T N Hsimple (codec T) v).
      split.
      * apply bounded_for_each. intros x. apply IH.
      * apply bounded_for_each_mut. intros x. apply IH.
  - apply Default_bounded.
Qed.

(** ** How far the write pass moves the cursor *)

Lemma displaces_ret {A : Type} (a : A) : displaces (ret a) 0.
Proof.
  intros s b s' H. unfold ret in H. inversion H; subst.
  rewrite Z.sub_diag. reflexivity.
Qed.

Lemma displaces_bind {A B : Type} (m : M Stream A) (k : A -> M Stream B)
    (n1 n2 : Z) :
  displaces m n1 -> (forall a, displaces (k a) n2) ->
  displaces (bind m k) (n1 + n2).
Proof.
  intros Hm Hk s b s' H. unfold bind in H.
  destruct (m s) as [[a|f] s1] eqn:Hms; [|discriminate H].
  specialize (Hm _ _ _ Hms). specialize (Hk a _ _ _ H).
  replace (data_ s' - data_ s)
    with ((data_ s1 - data_ s) + (data_ s' - data_ s1)) by lia.
  rewrite <- to_u32_add_l, <- to_u32_add_r, Hm, Hk.
  rewrite to_u32_add_l, to_u32_add_r. reflexivity.
Qed.

Lemma displaces_advance (n : Z) : displaces (advance n) n.
Proof.
  intros s a s' H. cbn [advance Stream_ops] in H. unfold Stream_advance in H.
  cbn [data_ end_] in H.
  destruct (Z.ltb_spec (end_ s) (data_ s + to_u32 n)); inversion H; subst.
  cbn [data_]. replace (data_ s + to_u32 n - data_ s) with (to_u32 n) by lia.
  apply to_u32_idem.
Qed.

Lemma displaces_store (p : Z) (src : list Z) : displaces (store p src) 0.
Proof.
  intros s a s' H. unfold store in H.
  destruct (in_buffer (buf s) p (len src)); inversion H; subst.
  cbn [data_]. rewrite Z.sub_diag. reflexivity.
Qed.

Lemma displaces_eq {A : Type} (m : M Stream A) (n n' : Z) :
  to_u32 n = to_u32 n' -> displaces m n -> displaces m n'.
Proof. intros Hn Hm s a s' H. rewrite <- Hn. eapply Hm. exact H. Qed.

Lemma displaces_advance_store (n : Z) (src : list Z) :
  displaces (q <- advance n ;; store q src) n.
Proof.
  rewrite <- (Z.add_0_r n) at 2.
  apply displaces_bind; [apply displaces_advance|].
  intros q. apply displaces_store.
Qed.

Lemma displaces_for_each {T : Type} (next : T -> M Stream unit)
    (img : T -> list Z) (v : list T) :
  (forall x, In x v -> displaces (next x) (len (img x))) ->
  displaces (for_each next v) (len (concat (map img v))).
Proof.
  induction v as [|x v IH]; intros H; cbn [for_each map concat].
  - apply displaces_ret.
  - rewrite len_app. apply displaces_bind.
    + apply H. left. reflexivity.
    + intros _. apply IH. intros y Hy. apply H. right. exact Hy.
Qed.

Lemma Simple_displaces (p : prim) (v : Z) :
  displaces (write (SimpleSerializer p) v) (sizeof p).
Proof. cbn [write SimpleSerializer]. apply displaces_advance_store. Qed.

Lemma codec_displaces (t : ty) :
  forall v, wf_val t v ->
  displaces (write (codec t) v) (wire_size t v).
Proof.
  unfold wire_size.
  induction t as [p| | | | |T IH|T IH N|]; intros v Hv;
    cbn [codec wire_image denote] in *; rewrite ?len_app, ?prim_bytes_len.
  - apply Simple_displaces.
  - cbn [write BoolSerializer]. apply displaces_advance_store.
  - cbn [write StringSerializer].
    apply displaces_bind; [apply (Simple_displaces U32)|]. intros _.
    destruct (Z.ltb_spec 0 (len v)).
    + apply displaces_advance_store.
    + destruct v; [apply displaces_ret|].
      rewrite len_cons in *. pose proof (len_nonneg v). lia.
  - cbn [write TimeSerializer].
    apply displaces_bind; [|intros _]; apply (Simple_displaces U32).
  - cbn [write DurationSerializer].
    apply displaces_bind; [|intros _]; apply (Simple_displaces I32).
  - destruct (IsSimple T) eqn:Hsimple.
    + apply IsSimple_inv in Hsimple. destruct Hsimple as [p ->].
      cbn [denote] in *.
      change (concat (map (wire_image (TPrim p)) v)) with (raw_bytes p v).
      rewrite raw_bytes_len. cbn [VectorSerializer].
      cbn [write VectorSerializer_simple].
      apply displaces_bind; [apply (Simple_displaces U32)|]. intros _.
      destruct v as [|x v]; [apply displaces_ret|].
      eapply displaces_eq; [|apply displaces_advance_store].
      rewrite to_u32_idem, to_u32_mul_l. reflexivity.
    + rewrite (VectorSerializer_write T Hsimple (codec T) v).
      apply displaces_bind; [apply (Simple_displaces U32)|]. intros _.
      apply displaces_for_each. intros x Hx. apply IH.
      cbn [wf_val] in Hv. rewrite Forall_forall in Hv. apply Hv. exact Hx.
  - assert (HN : len v = Z.pos N)
      by (destruct Hv as [Hlen _]; unfold len; rewrite <- positive_nat_Z;
          f_equal; exact Hlen).
    destruct Hv as [_ Hv]. rewrite Forall_forall in Hv.
    destruct (IsSimple T) eqn:Hsimple.
    + apply IsSimple_inv in Hsimple. destruct Hsimple as [p ->].
      cbn [denote] in *.
      change (concat (map (wire_image (TPrim p)) v)) with (raw_bytes p v).
      rewrite raw_bytes_len, HN. cbn [ArraySerializer].
      cbn [write ArraySerializer_simple].
      eapply displaces_eq; [|apply displaces_advance_store].
      apply to_u32_idem.
    + rewrite (ArraySerializer_write T N Hsimple (codec T) v).
      apply displaces_for_each. intros x Hx. apply IH. apply Hv. exact Hx.
  - cbn [write DefaultSerializer].
    apply (displaces_bind _ _ 0 0); [|intros q].
    + intros s a s' H. unfold getData in H. inversion H; subst.
      rewrite Z.sub_diag. reflexivity.
    + intros s a s' H.
      destruct (u_serialize user v q 0 (buf s)); inversion H; subst.
      cbn [data_]. rewrite Z.sub_diag. reflexivity.
Qed.

(** ** Stream::advance *)

(** C3.  [Stream::advance] on a stream with cursor [c] and bound [e],
    asked for [n] bytes ([n] a [uint32_t]): it raises
    [StreamOverrunException] exactly when [c + n > e]; otherwise it
    returns the position [c] it had before and leaves the cursor at
    [c + n].  Buffer and bound are untouched either way. *)
Theorem advance_overrun_iff (s : Stream) (n : Z) :
  0 <= n < 2 ^ 32 ->
  (fst (advance n s) = Fail StreamOverrunException <-> data_ s + n > end_ s)
  /\ (data_ s + n <= end_ s ->
      advance n s = (Ok (data_ s), mkStream (buf s) (data_ s + n) (end_ s)))
  /\ (forall f, fst (advance n s) = Fail f -> f = StreamOverrunException)
  /\ buf (snd (advance n s)) = buf s
  /\ end_ (snd (advance n s)) = end_ s.
Proof.
  intros Hn. pose proof (to_u32_small n Hn) as Hu.
  destruct (Z_le_gt_dec (data_ s + n) (end_ s)) as [Hle|Hgt].
  - rewrite advance_ok by lia. rewrite Hu. cbn [fst snd buf end_].
    split; [split; [discriminate | lia]|].
    split; [reflexivity|]. split; [discriminate|]. split; reflexivity.
  - rewrite advance_overrun by lia. rewrite Hu. cbn [fst snd buf end_].
    split; [split; [lia | reflexivity]|].
    split; [lia|]. split; [congruence|]. split; reflexivity.
Qed.

(** C4, as the code has it.  The constructor makes a stream whose cursor
    is within its view.  From such a stream, an [advance] that returns
    leaves the cursor within the view, and so does every [serialize] and
    [deserialize] of any type that returns; the bound never changes.  A
    request to advance past the bound is never cut short: it raises
    [StreamOverrunException] - and by then the cursor has been moved to
    the requested position beyond the bound, where it stays. *)
Theorem cursor_bound_invariant :
  (forall mem d count, cursor_in_bounds (Stream_new mem d count))
  /\ (forall n s q s',
        cursor_in_bounds s -> advance n s = (Ok q, s') ->
        cursor_in_bounds s' /\ end_ s' = end_ s)
  /\ (forall n s,
        end_ s < data_ s + to_u32 n ->
        advance n s
        = (Fail StreamOverrunException,
           mkStream (buf s) (data_ s + to_u32 n) (end_ s)))
  /\ (forall t v s s',
        cursor_in_bounds s -> serialize t v s = (Ok tt, s') ->
        cursor_in_bounds s' /\ end_ s' = end_ s)
  /\ (forall t old s v s',
        cursor_in_bounds s -> deserialize t old s = (Ok v, s') ->
        cursor_in_bounds s' /\ end_ s' = end_ s).
Proof.
  split; [|split; [|split; [|split]]].
  - intros mem d count. unfold cursor_in_bounds, Stream_new. cbn [data_ end_].
    pose proof (to_u32_range count). lia.
  - intros n s q s' Hs H.
    destruct (bounded_advance n _ _ _ H) as (He & _ & Hin).
    split; [apply (Hin q eq_refl Hs) | exact He].
  - intros n s Hover. apply advance_overrun. exact Hover.
  - intros t v s s' Hs H. destruct (codec_bounded t v) as [Hw _].
    destruct (Hw _ _ _ H) as (He & _ & Hin).
    split; [apply (Hin tt eq_refl Hs) | exact He].
  - intros t old s v s' Hs H. destruct (codec_bounded t old) as [_ Hr].
    destruct (Hr _ _ _ H) as (He & _ & Hin).
    split; [apply (Hin v eq_refl Hs) | exact He].
Qed.

(** ** The primary template *)


(** ** Length pass, write pass and read pass together *)

Lemma buffer_split (mem : list Z) (p n : Z) :
  0 <= p -> 0 <= n -> p + n <= len mem ->
  exists pre mid post,
    mem = pre ++ mid ++ post /\ len pre = p /\ len mid = n.
Proof.
  intros Hp Hn Hlen.
  exists (firstn (Z.to_nat p) mem),
    (firstn (Z.to_nat n) (skipn (Z.to_nat p) mem)),
    (skipn (Z.to_nat n) (skipn (Z.to_nat p) mem)).
  rewrite !firstn_skipn. unfold len in *.
  rewrite !length_firstn, length_skipn. repeat split; lia.
Qed.

Lemma bytes_between_splice (pre img post : list Z) :
  bytes_between (pre ++ img ++ post) (len pre) (len pre + len img) = img.
Proof.
  unfold bytes_between. rewrite skipn_len_app.
  replace (len pre + len img - len pre) with (len img) by lia.
  apply firstn_len_app.
Qed.

Lemma serialize_image (t : ty) (v : denote t) (s : Stream) :
  specialised t = true -> wf_val t v ->
  0 <= data_ s -> end_ s <= len (buf s) ->
  wire_size t v <= end_ s - data_ s -> wire_size t v < 2 ^ 32 ->
  exists pre mid post,
    buf s = pre ++ mid ++ post /\ len pre = data_ s
    /\ len mid = wire_size t v
    /\ serialize t v s
       = (Ok tt, mkStream (pre ++ wire_image t v ++ post)
                   (data_ s + wire_size t v) (end_ s)).
Proof.
  intros Hs Hv Hd He Hroom Hsz.
  destruct (buffer_split (buf s) (data_ s) (wire_size t v))
    as (pre & mid & post & Hbuf & Hpre & Hmid);
    [lia | apply len_nonneg | lia |].
  exists pre, mid, post. repeat split; try assumption.
  destruct s as [mem d e]. cbn [buf data_ end_] in *. subst mem d.
  unfold serialize.
  apply (codec_writes t Hs v Hv Hsz); [exact Hmid | unfold wire_size in *; lia].
Qed.

Lemma serializationLength_eq (t : ty) (v : denote t) :
  specialised t = true -> wf_val t v ->
  serializationLength t v = Ok (to_u32 (wire_size t v)).
Proof.
  intros Hs Hv. unfold serializationLength, serializationLength_into, bind.
  rewrite (codec_measures t Hs v Hv LStream_new) by (cbn; lia).
  reflexivity.
Qed.

(** C1, as the code has it.  For every value of a type served by the
    specialised codecs (the numeric primitives, [bool], [std::string],
    [ros::Time], [ros::Duration], and vectors and arrays of such), and
    every output stream over a buffer: if [serialize] returns, the
    distance the write cursor has moved is what the one-argument
    [serializationLength] returns; and [serialize] does return whenever the
    stream has at least as much room as the value's wire image is long. *)
Theorem length_equals_write (t : ty) (v : denote t) (s : OStream) :
  specialised t = true -> wf_val t v -> stream_ok s ->
  (forall s', serialize t v s = (Ok tt, s') ->
     serializationLength t v = Ok (data_ s' - data_ s))
  /\ (wire_size t v <= end_ s - data_ s ->
      exists s', serialize t v s = (Ok tt, s')).
Proof.
  intros Hs Hv (Hd & He & Hroom). split.
  - intros s' Hw. rewrite (serializationLength_eq t v Hs Hv). f_equal.
    destruct (codec_bounded t v) as [Hb _].
    destruct (Hb _ _ _ Hw) as (Hend & Hmono & Hin).
    assert (Hin' : cursor_in_bounds s') by (apply (Hin tt eq_refl); unfold cursor_in_bounds; lia).
    unfold cursor_in_bounds in Hin'.
    rewrite <- (codec_displaces t v Hv _ _ _ Hw).
    apply to_u32_small. lia.
  - intros Hfit.
    destruct (serialize_image t v s Hs Hv) as (pre & mid & post & _ & _ & _ & Hw);
      try lia.
    eexists. exact Hw.
Qed.

(** C2, as the code has it.  For every value of a type served by the
    specialised codecs and holding no [std::vector<bool>] (whose
    [deserialize] the header does not instantiate), whose wire image fits
    the output stream (a view of [count < 2^32] bytes inside the
    buffer): [serialize] returns, and [deserialize] into a
    value-initialised object, from an input stream over exactly the bytes
    between the old and the new write cursor, returns the value and
    consumes all of them. *)
Theorem roundtrip (t : ty) (v : denote t) (mem : list Z) (p count : Z) :
  specialised t = true -> has_read t = true -> wf_val t v ->
  0 <= p -> 0 <= count < 2 ^ 32 -> p + count <= len mem ->
  wire_size t v <= count ->
  exists s',
    serialize t v (OStream_new mem p count) = (Ok tt, s')
    /\ let bytes := bytes_between (buf s') p (data_ s') in
       exists s'',
         deserialize t (default_value t) (IStream_new bytes 0 (len bytes))
         = (Ok v, s'')
         /\ data_ s'' = end_ s''.
Proof.
  intros Hs _ Hv Hp Hcount Hmem Hfit.
  unfold OStream_new, IStream_new, Stream_new.
  rewrite (to_u32_small count Hcount).
  destruct (serialize_image t v (mkStream mem p (p + count)) Hs Hv)
    as (pre & mid & post & Hbuf & Hpre & Hmid & Hw);
    cbn [buf data_ end_] in *; try lia.
  rewrite Hw. eexists. split; [reflexivity|]. cbn [buf data_].
  rewrite <- Hpre. unfold wire_size. rewrite bytes_between_splice.
  pose proof (codec_reads t Hs v (default_value t) Hv (wf_default t)) as Hr.
  specialize (Hr ltac:(lia) [] [] (len (wire_image t v))).
  cbn [app] in Hr. rewrite app_nil_r in Hr.
  rewrite to_u32_small by (pose proof (len_nonneg (wire_image t v)); unfold wire_size in Hfit; lia).
  change (len []) with 0 in Hr. rewrite !Z.add_0_l in *.
  unfold deserialize. rewrite Hr by lia.
  eexists. split; reflexivity.
Qed.

(** ** Message framing *)

Lemma writes_run (m : M Stream unit) (img : list Z) (s : Stream)
    (pre mid post : list Z) :
  writes m img ->
  buf s = pre ++ mid ++ post -> data_ s = len pre ->
  len mid = len img -> len pre + len img <= end_ s ->
  m s = (Ok tt, mkStream (pre ++ img ++ post) (data_ s + len img) (end_ s)).
Proof.
  intros Hm Hbuf Hd Hmid Hroom. destruct s as [mem d e].
  cbn [buf data_ end_] in *. subst mem d. apply Hm; assumption.
Qed.

Lemma length_pass (t : ty) (v : denote t) :
  specialised t = true -> wf_val t v ->
  (serializationLength_into t v ;; getLength) LStream_new
  = (Ok (to_u32 (wire_size t v)), mkLStream (to_u32 (wire_size t v))).
Proof.
  intros Hs Hv. unfold serializationLength_into, bind.
  rewrite (codec_measures t Hs v Hv LStream_new) by (cbn; lia).
  reflexivity.
Qed.

Lemma len_zero_nil {A : Type} (l : list A) : len l = 0 -> l = [].
Proof. destruct l; [reflexivity|]. rewrite len_cons. pose proof (len_nonneg l). lia. Qed.

(** C5, as the code has it.  For every message of a type served by the
    specialised codecs whose wire image has fewer than [2^32 - 4] bytes,
    with [L] its computed serialization length: [serializeMessage] returns
    a buffer of [L + 4] bytes, the 4 bytes of [L] in host layout followed
    by the [L] bytes that [serialize] alone writes for the message, with
    [num_bytes = L + 4] and the payload marker at offset 4.  For a message
    served by the primary template whose computed length [L] is below
    [2^32 - 4], the result is what the message's own [serialize] makes
    of the buffer of [L + 4] bytes that starts with the 4 bytes of [L],
    when handed the position 4, an access of it outside the buffer being
    undefined behaviour; whenever it returns, [num_bytes = L + 4] and the
    marker is at offset 4; and if the message's [serialize] writes only
    from the pointer it is handed on and keeps the size of the buffer,
    the buffer returned has [L + 4] bytes and starts with the 4 bytes of
    [L]. *)
Theorem serializeMessage_frame :
  (forall t (message : denote t),
     specialised t = true -> wf_val t message ->
     wire_size t message + 4 < 2 ^ 32 ->
     exists L payload,
       serializationLength t message = Ok L
       /\ serialize t message (OStream_new (new_uint8 L) 0 L)
          = (Ok tt, mkStream payload L L)
       /\ len payload = L
       /\ serializeMessage t message
          = Ok (mkSerializedMessage (prim_bytes U32 L ++ payload) (L + 4)
                  (Some 4))
       /\ len (prim_bytes U32 L ++ payload) = L + 4)
  /\ (forall (message : carrier user),
     let L := to_u32 (u_serializationLength user message) in
     L + 4 < 2 ^ 32 ->
     serializationLength TUser message = Ok L
     /\ (exists hd rest,
          new_uint8 (L + 4) = hd ++ rest /\ len hd = 4 /\ len rest = L
          /\ serializeMessage TUser message
             = match u_serialize user message 4 0 (prim_bytes U32 L ++ rest) with
               | Some mem' => Ok (mkSerializedMessage mem' (L + 4) (Some 4))
               | None => Fail UndefinedBehaviour
               end)
     /\ (forall m,
          serializeMessage TUser message = Ok m ->
          num_bytes m = L + 4 /\ message_start m = Some 4
          /\ (writes_from_pointer user ->
              len (sm_buf m) = L + 4
              /\ firstn 4 (sm_buf m) = prim_bytes U32 L))).
Proof.
  split.
  { intros t message Hs Hv Hsz.
  pose proof (len_nonneg (wire_image t message)) as Hnn.
  fold (wire_size t message) in Hnn.
  pose proof (codec_writes t Hs message Hv ltac:(lia)) as Hwrites.
  pose proof (serializationLength_eq t message Hs Hv) as Hlength.
  pose proof (length_pass t message Hs Hv) as Hpass.
  assert (Himg : len (wire_image t message) = wire_size t message)
    by reflexivity.
  remember (wire_size t message) as L eqn:HLdef.
  assert (HL : to_u32 L = L) by (apply to_u32_small; lia).
  rewrite HL in Hlength, Hpass.
  exists L, (wire_image t message).
  split; [exact Hlength|].
  split.
  { unfold OStream_new, Stream_new. rewrite HL. unfold serialize.
    rewrite (writes_run _ _ _ [] (new_uint8 L) [] Hwrites);
      cbn [buf data_ end_ app]; rewrite ?app_nil_r, ?len_nil, ?Himg;
      try reflexivity; try lia.
    rewrite new_uint8_length; lia. }
  split; [exact Himg|].
  split; [|rewrite len_app, prim_bytes_len, Himg; change (sizeof U32) with 4; lia].
  unfold serializeMessage. rewrite Hpass.
  rewrite !(to_u32_small (L + 4)) by lia.
  replace (L + 4 - 4) with L by lia. rewrite HL.
  unfold OStream_new, Stream_new. rewrite (to_u32_small (L + 4)) by lia.
  destruct (buffer_split (new_uint8 (L + 4)) 4 L)
    as (hd & mid & post & Hbuf & Hhd & Hmid);
    [lia | lia | rewrite new_uint8_length; lia |].
  assert (Hpost : post = []).
  { apply len_zero_nil. pose proof (f_equal len Hbuf) as Hl.
    rewrite new_uint8_length, !len_app in Hl by lia. lia. }
  subst post. rewrite app_nil_r in Hbuf.
  unfold bind at 1. unfold serialize at 1. cbn [codec].
  rewrite (writes_run _ _ _ [] hd (mid ++ []) (Simple_writes U32 L));
    cbn [buf data_ end_ app]; rewrite ?prim_bytes_len, ?len_nil, ?app_nil_r;
    change (sizeof U32) with 4; try lia; try assumption.
  unfold bind at 1. unfold getData at 1. cbn [data_].
  unfold bind at 1. unfold serialize.
  rewrite (writes_run _ _ _ (prim_bytes U32 L) mid [] Hwrites);
    cbn [buf data_ end_]; rewrite ?prim_bytes_len, ?app_nil_r, ?Himg;
    change (sizeof U32) with 4; try lia; try reflexivity.
  unfold ret. cbn [buf]. reflexivity. }
  intros message L HL4.
  pose proof (to_u32_range (u_serializationLength user message)) as HLr.
  fold L in HLr.
  assert (Hpass : (serializationLength_into TUser message ;; getLength)
                    LStream_new = (Ok L, mkLStream L)).
  { unfold serializationLength_into, bind.
    cbn [codec serializedLength DefaultSerializer]. unfold bind.
    cbn [advance getLength LStream_ops].
    unfold LStream_advance, LStream_getLength, ret, LStream_new.
    cbn [count_]. rewrite Z.add_0_l, to_u32_idem. reflexivity. }
  split; [unfold serializationLength; rewrite Hpass; reflexivity|].
  destruct (buffer_split (new_uint8 (L + 4)) 4 L)
    as (hd & mid & post & Hbuf & Hhd & Hmid);
    [lia | lia | rewrite new_uint8_length; lia |].
  assert (Hpost : post = []).
  { apply len_zero_nil. pose proof (f_equal len Hbuf) as Hl.
    rewrite new_uint8_length, !len_app in Hl by lia. lia. }
  subst post. rewrite app_nil_r in Hbuf.
  assert (Heq : serializeMessage TUser message
                = match u_serialize user message 4 0 (prim_bytes U32 L ++ mid) with
                  | Some mem' => Ok (mkSerializedMessage mem' (L + 4) (Some 4))
                  | None => Fail UndefinedBehaviour
                  end).
  { unfold serializeMessage. rewrite Hpass.
  rewrite !(to_u32_small (L + 4)) by lia.
  replace (L + 4 - 4) with L by lia. rewrite (to_u32_small L) by lia.
  unfold OStream_new, Stream_new. rewrite (to_u32_small (L + 4)) by lia.
  unfold bind at 1. unfold serialize at 1. cbn [codec].
  rewrite (writes_run _ _ _ [] hd (mid ++ []) (Simple_writes U32 L));
    cbn [buf data_ end_ app]; rewrite ?prim_bytes_len, ?len_nil, ?app_nil_r;
    change (sizeof U32) with 4; try lia; try assumption; try reflexivity.
  unfold bind at 1. unfold getData at 1. cbn [data_].
  unfold bind at 1. unfold serialize. cbn [codec write DefaultSerializer].
  unfold bind at 1. unfold getData at 1. cbn [data_ buf end_].
  change (0 + 4) with 4.
  destruct (u_serialize user message 4 0 (prim_bytes U32 L ++ mid));
    reflexivity. }
  split.
  { exists hd, mid. split; [exact Hbuf|]. split; [exact Hhd|].
    split; [exact Hmid | exact Heq]. }
  intros m Hm. rewrite Heq in Hm.
  destruct (u_serialize user message 4 0 (prim_bytes U32 L ++ mid))
    as [mem'|] eqn:Hu; [|discriminate Hm].
  injection Hm as <-. cbn [num_bytes message_start sm_buf].
  split; [reflexivity|]. split; [reflexivity|].
  intros Hframe. destruct (Hframe _ _ _ _ _ Hu) as [Hlen Hfirst].
  split.
  - rewrite Hlen, len_app, prim_bytes_len. change (sizeof U32) with 4. lia.
  - transitivity (firstn (Z.to_nat (len (prim_bytes U32 L)))
                    (prim_bytes U32 L ++ mid));
      [rewrite prim_bytes_len; exact Hfirst | apply firstn_len_app].
Qed.

Lemma prim_bytes_byte (b : Z) : 0 <= b < 256 -> prim_bytes U8 b = [b].
Proof.
  intros Hb. unfold prim_bytes, to_bytes. cbn [width le_bytes rev app].
  rewrite Z.mod_small by exact Hb. destruct big_endian; reflexivity.
Qed.

Lemma prim_bytes_u32_zero : prim_bytes U32 0 = [0; 0; 0; 0].
Proof. unfold prim_bytes, to_bytes. destruct big_endian; reflexivity. Qed.

(** C6, as the code has it.  A failed service reply is the 5 bytes
    [0, 0, 0, 0, 0] - the status byte 0 and a 4-byte zero length - for
    every message of every type, the message itself never being looked
    at.  A successful reply, for a message of a type served by the
    specialised codecs whose wire image has fewer than [2^32 - 5] bytes
    and whose computed serialization length is [L], is a buffer of
    [L + 5] bytes: the status byte 1, the 4 bytes of [L] in host layout,
    and the [L] bytes that [serialize] alone writes for the message.  For
    a message served by the primary template whose computed length [L]
    is below [2^32 - 5], the result is what the message's own
    [serialize] makes of the buffer of [L + 5] bytes that starts with the
    status byte 1 and the 4 bytes of [L], when handed the position 5, an
    access of it outside the buffer being undefined behaviour; whenever
    it returns, [num_bytes = L + 5]; and if the message's [serialize]
    writes only from the pointer it is handed on and keeps the size of
    the buffer, the buffer returned has [L + 5] bytes and starts with the
    status byte 1 and the 4 bytes of [L]. *)
Theorem serializeServiceResponse_frame :
  (forall t (message : denote t),
     serializeServiceResponse false t message
     = Ok (mkSerializedMessage [0; 0; 0; 0; 0] 5 None))
  /\ (forall t (message : denote t),
     specialised t = true -> wf_val t message ->
     wire_size t message + 5 < 2 ^ 32 ->
     exists L payload,
       serializationLength t message = Ok L
       /\ serialize t message (OStream_new (new_uint8 L) 0 L)
          = (Ok tt, mkStream payload L L)
       /\ len payload = L
       /\ serializeServiceResponse true t message
          = Ok (mkSerializedMessage ([1] ++ prim_bytes U32 L ++ payload)
                  (L + 5) None)
       /\ len ([1] ++ prim_bytes U32 L ++ payload) = L + 5)
  /\ (forall (message : carrier user),
     let L := to_u32 (u_serializationLength user message) in
     L + 5 < 2 ^ 32 ->
     serializationLength TUser message = Ok L
     /\ (exists hd rest,
          new_uint8 (L + 5) = hd ++ rest /\ len hd = 5 /\ len rest = L
          /\ serializeServiceResponse true TUser message
             = match u_serialize user message 5 0
                       ([1] ++ prim_bytes U32 L ++ rest) with
               | Some mem' => Ok (mkSerializedMessage mem' (L + 5) None)
               | None => Fail UndefinedBehaviour
               end)
     /\ (forall r,
          serializeServiceResponse true TUser message = Ok r ->
          num_bytes r = L + 5
          /\ (writes_from_pointer user ->
              len (sm_buf r) = L + 5
              /\ firstn 5 (sm_buf r) = [1] ++ prim_bytes U32 L))).
Proof.
  split; [|split].
  - intros t message. unfold serializeServiceResponse.
    assert (Hw : writes (serialize (TPrim U8) 0 ;; serialize (TPrim U32) 0)
                   (prim_bytes U8 0 ++ prim_bytes U32 0))
      by (apply writes_bind; apply Simple_writes).
    unfold OStream_new, Stream_new.
    rewrite (writes_run _ _ _ [] (new_uint8 5) [] Hw);
      cbn [buf data_ end_ app]; rewrite ?app_nil_r, ?len_nil;
      try reflexivity.
    + rewrite prim_bytes_byte, prim_bytes_u32_zero by lia. reflexivity.
    + rewrite new_uint8_length, len_app, !prim_bytes_len by lia. reflexivity.
    + rewrite len_app, !prim_bytes_len. cbv. congruence.
  - intros t message Hs Hv Hsz.
    pose proof (len_nonneg (wire_image t message)) as Hnn.
    fold (wire_size t message) in Hnn.
    pose proof (codec_writes t Hs message Hv ltac:(lia)) as Hwrites.
    pose proof (serializationLength_eq t message Hs Hv) as Hlength.
    pose proof (length_pass t message Hs Hv) as Hpass.
    assert (Himg : len (wire_image t message) = wire_size t message)
      by reflexivity.
    remember (wire_size t message) as L eqn:HLdef.
    assert (HL : to_u32 L = L) by (apply to_u32_small; lia).
    rewrite HL in Hlength, Hpass.
    exists L, (wire_image t message).
    split; [exact Hlength|].
    split.
    { unfold OStream_new, Stream_new. rewrite HL. unfold serialize.
      rewrite (writes_run _ _ _ [] (new_uint8 L) [] Hwrites);
        cbn [buf data_ end_ app]; rewrite ?app_nil_r, ?len_nil, ?Himg;
        try reflexivity; try lia.
      rewrite new_uint8_length; lia. }
    split; [exact Himg|].
    split; [|rewrite !len_app, prim_bytes_len, Himg;
             change (sizeof U32) with 4; change (len [1]) with 1; lia].
    unfold serializeServiceResponse. rewrite Hpass.
    rewrite !(to_u32_small (L + 5)) by lia.
    replace (L + 5 - 5) with L by lia. rewrite HL.
    assert (Hw : writes (serialize (TPrim U8) 1 ;; serialize (TPrim U32) L ;;
                         serialize t message)
                   (prim_bytes U8 1 ++ prim_bytes U32 L ++ wire_image t message)).
    { apply writes_bind; [apply Simple_writes|].
      apply writes_bind; [apply Simple_writes | exact Hwrites]. }
    unfold OStream_new, Stream_new. rewrite (to_u32_small (L + 5)) by lia.
    rewrite (writes_run _ _ _ [] (new_uint8 (L + 5)) [] Hw);
      cbn [buf data_ end_ app]; rewrite ?app_nil_r, ?len_nil;
      rewrite ?new_uint8_length, ?len_app, ?prim_bytes_len, ?Himg by lia;
      change (sizeof U32) with 4; change (sizeof U8) with 1;
      try reflexivity; try lia.
    rewrite prim_bytes_byte by lia. reflexivity.
  - intros message L HL5.
    pose proof (to_u32_range (u_serializationLength user message)) as HLr.
    fold L in HLr.
    assert (Hpass : (serializationLength_into TUser message ;; getLength)
                      LStream_new = (Ok L, mkLStream L)).
    { unfold serializationLength_into, bind.
      cbn [codec serializedLength DefaultSerializer]. unfold bind.
      cbn [advance getLength LStream_ops].
      unfold LStream_advance, LStream_getLength, ret, LStream_new.
      cbn [count_]. rewrite Z.add_0_l, to_u32_idem. reflexivity. }
    split; [unfold serializationLength; rewrite Hpass; reflexivity|].
    destruct (buffer_split (new_uint8 (L + 5)) 5 L)
      as (hd & mid & post & Hbuf & Hhd & Hmid);
      [lia | lia | rewrite new_uint8_length; lia |].
    assert (Hpost : post = []).
    { apply len_zero_nil. pose proof (f_equal len Hbuf) as Hl.
      rewrite new_uint8_length, !len_app in Hl by lia. lia. }
    subst post. rewrite app_nil_r in Hbuf.
    assert (Heq : serializeServiceResponse true TUser message
                  = match u_serialize user message 5 0
                            ([1] ++ prim_bytes U32 L ++ mid) with
                    | Some mem' => Ok (mkSerializedMessage mem' (L + 5) None)
                    | None => Fail UndefinedBehaviour
                    end).
    { unfold serializeServiceResponse. rewrite Hpass.
    rewrite !(to_u32_small (L + 5)) by lia.
    replace (L + 5 - 5) with L by lia. rewrite (to_u32_small L) by lia.
    unfold OStream_new, Stream_new. rewrite (to_u32_small (L + 5)) by lia.
    assert (Hw : writes (serialize (TPrim U8) 1 ;; serialize (TPrim U32) L)
                   (prim_bytes U8 1 ++ prim_bytes U32 L))
      by (apply writes_bind; apply Simple_writes).
    change (serialize (TPrim U8) 1 ;; serialize (TPrim U32) L ;;
            serialize TUser message)
      with (bind (serialize (TPrim U8) 1)
              (fun _ => bind (serialize (TPrim U32) L)
                          (fun _ => serialize TUser message))).
    assert (Hrun : (serialize (TPrim U8) 1 ;; serialize (TPrim U32) L)
                     (mkStream (new_uint8 (L + 5)) 0 (0 + (L + 5)))
                   = (Ok tt, mkStream ([1] ++ prim_bytes U32 L ++ mid) 5
                               (0 + (L + 5)))).
    { rewrite (writes_run _ _ _ [] hd mid Hw);
        cbn [buf data_ end_ app]; rewrite ?len_app, ?prim_bytes_len, ?len_nil;
        change (sizeof U32) with 4; change (sizeof U8) with 1;
        try lia; try assumption; try reflexivity.
      rewrite prim_bytes_byte by lia. reflexivity. }
    unfold bind in Hrun |- *.
    destruct (serialize (TPrim U8) 1
                (mkStream (new_uint8 (L + 5)) 0 (0 + (L + 5))))
      as [[[]|f] s1]; [|discriminate Hrun].
    rewrite Hrun. unfold serialize. cbn [codec write DefaultSerializer].
    unfold bind, getData. cbn [data_ buf end_].
    destruct (u_serialize user message 5 0 ([1] ++ prim_bytes U32 L ++ mid));
      reflexivity. }
    split.
    { exists hd, mid. split; [exact Hbuf|]. split; [exact Hhd|].
      split; [exact Hmid | exact Heq]. }
    intros r Hr. rewrite Heq in Hr.
    destruct (u_serialize user message 5 0 ([1] ++ prim_bytes U32 L ++ mid))
      as [mem'|] eqn:Hu; [|discriminate Hr].
    injection Hr as <-. cbn [num_bytes sm_buf].
    split; [reflexivity|].
    intros Hframe. destruct (Hframe _ _ _ _ _ Hu) as [Hlen Hfirst].
    split.
    + rewrite Hlen, !len_app, prim_bytes_len.
      change (sizeof U32) with 4. change (len [1]) with 1. lia.
    + transitivity (firstn (Z.to_nat (len ([1] ++ prim_bytes U32 L)))
                      (([1] ++ prim_bytes U32 L) ++ mid)).
      * rewrite len_app, prim_bytes_len, <- app_assoc. exact Hfirst.
      * apply firstn_len_app.
Qed.

(** ** One representative element *)

Lemma measures_eq (m : M LStream unit) (n n' : Z) :
  to_u32 n = to_u32 n' -> measures m n -> measures m n'.
Proof.
  intros Hn Hm ls Hls. rewrite (Hm ls Hls).
  rewrite <- to_u32_add_r, Hn, to_u32_add_r. reflexivity.
Qed.

Lemma measures_for_each_const {T : Type} (next : T -> M LStream unit)
    (c : Z) (v : list T) :
  (forall x, In x v -> exists n, measures (next x) n /\ to_u32 n = to_u32 c) ->
  measures (for_each next v) (len v * c).
Proof.
  induction v as [|x v IH]; intros H; cbn [for_each].
  - apply measures_ret.
  - destruct (H x (or_introl eq_refl)) as (n & Hn & Hc).
    apply (measures_eq _ (n + len v * c)).
    + rewrite len_cons, <- to_u32_add_l, Hc, to_u32_add_l. f_equal. lia.
    + apply measures_bind; [exact Hn|].
      apply IH. intros y Hy. apply H. right. exact Hy.
Qed.

Lemma measures_for_each_ex {T : Type} (next : T -> M LStream unit)
    (v : list T) :
  (forall x, In x v -> exists n, measures (next x) n) ->
  exists n, measures (for_each next v) n.
Proof.
  induction v as [|x v IH]; intros H; cbn [for_each].
  - exists 0. apply measures_ret.
  - destruct (H x (or_introl eq_refl)) as (n & Hn).
    destruct IH as (k & Hk); [intros y Hy; apply H; right; exact Hy|].
    exists (n + k). apply measures_bind; assumption.
Qed.

(** Whatever the type, the length pass of a value only ever adds to the
    counter: the stream offers nothing but [advance]. *)
Lemma codec_additive (t : ty) :
  forall v, wf_val t v -> exists n, measures (serializedLength (codec t) v) n.
Proof.
  induction t as [p| | | | |T IH|T IH N|]; intros v Hv;
    try (match goal with
         | |- exists n, measures (serializedLength (codec ?t) ?v) n =>
             solve [exists (wire_size t v);
                    apply (codec_measures t); [reflexivity | exact Hv]]
         end).
  - cbn [codec denote wf_val] in *. rewrite Forall_forall in Hv.
    destruct (IsSimple T) eqn:Hsimple.
    + apply IsSimple_inv in Hsimple. destruct Hsimple as [p ->].
      eexists. cbn [VectorSerializer].
      cbn [serializedLength VectorSerializer_simple].
      apply measures_advance. reflexivity.
    + destruct (IsFixedSize T) eqn:Hfixed.
      * rewrite (VectorSerializer_length_fixed T Hsimple Hfixed (codec T) v).
        cbn [serializedLength VectorSerializer_fixed].
        destruct v as [|x v].
        -- eexists. apply measures_advance_then. apply measures_ret.
        -- destruct (IH x (Hv x (or_introl eq_refl))) as (n & Hn).
           eexists. apply measures_advance_then.
           intros ls Hls. unfold bind at 1. rewrite (measure_of _ n _ Hn).
           apply measures_advance; [reflexivity | exact Hls].
      * rewrite (VectorSerializer_length_nonfixed T Hfixed (codec T) v).
        destruct (measures_for_each_ex (serializedLength (codec T)) v)
          as (k & Hk); [intros x Hx; apply IH; apply Hv; exact Hx|].
        eexists. cbn [serializedLength VectorSerializer_nonfixed].
        apply measures_advance_then. exact Hk.
  - cbn [codec denote wf_val] in *. destruct Hv as [Hlen Hv].
    rewrite Forall_forall in Hv.
    destruct (IsSimple T) eqn:Hsimple.
    + apply IsSimple_inv in Hsimple. destruct Hsimple as [p ->].
      eexists. cbn [ArraySerializer].
      cbn [serializedLength ArraySerializer_simple].
      apply measures_advance. reflexivity.
    + destruct (IsFixedSize T) eqn:Hfixed.
      * rewrite (ArraySerializer_length_fixed T N Hsimple Hfixed (codec T) v).
        cbn [serializedLength ArraySerializer_fixed].
        destruct v as [|x v]; [simpl in Hlen; lia|].
        destruct (IH x (Hv x (or_introl eq_refl))) as (n & Hn).
        eexists. intros ls Hls. unfold bind at 1.
        rewrite (measure_of _ n _ Hn).
        apply measures_advance; [reflexivity | exact Hls].
      * rewrite (ArraySerializer_length_nonfixed T N Hfixed (codec T) v).
        cbn [serializedLength ArraySerializer_nonfixed].
        apply measures_for_each_ex. intros x Hx. apply IH. apply Hv. exact Hx.
  - eexists. cbn [codec serializedLength DefaultSerializer].
    apply measures_advance. reflexivity.
Qed.

Lemma serializationLength_of_measures (t : ty) (v : denote t) (n : Z) :
  measures (serializedLength (codec t) v) n ->
  serializationLength t v = Ok (to_u32 n).
Proof.
  intros Hn. unfold serializationLength, serializationLength_into, bind.
  rewrite (Hn LStream_new) by (cbn; lia). reflexivity.
Qed.

(** C7.  Let the elements of a non-empty vector, or of an array, be of a
    type all of whose values have the same serialization length [L].
    Then measuring the first element with a length stream of its own and
    advancing by [L] times the element count - what the codec for
    fixed-size, non-simple elements does, after the 4 bytes of the count
    for a vector - leaves the length stream exactly as advancing element
    by element does - what the codec for elements that are not fixed-size
    does. *)
Theorem representative_element_length (T : ty) (v : list (denote T))
    (ls : LStream) :
  (forall x y, wf_val T x -> wf_val T y ->
     serializationLength T x = serializationLength T y) ->
  Forall (wf_val T) v -> v <> [] -> 0 <= count_ ls < 2 ^ 32 ->
  exists L,
    serializationLength T (hd (default_value T) v) = Ok L
    /\ serializedLength (VectorSerializer_fixed (codec T) (default_value T)) v ls
       = (Ok tt, mkLStream (to_u32 (count_ ls + 4 + L * len v)))
    /\ serializedLength (VectorSerializer_fixed (codec T) (default_value T)) v ls
       = serializedLength
           (VectorSerializer_nonfixed (codec T) (default_value T)) v ls
    /\ serializedLength (ArraySerializer_fixed (codec T) (len v)) v ls
       = (Ok tt, mkLStream (to_u32 (count_ ls + L * len v)))
    /\ serializedLength (ArraySerializer_fixed (codec T) (len v)) v ls
       = serializedLength (ArraySerializer_nonfixed (codec T)) v ls.
Proof.
  intros Hfixed Hv Hne Hls. rewrite Forall_forall in Hv.
  destruct v as [|x v]; [contradiction|]. cbn [hd].
  destruct (codec_additive T x (Hv x (or_introl eq_refl))) as (n & Hn).
  pose proof (serializationLength_of_measures T x n Hn) as HL.
  exists (to_u32 n). split; [exact HL|].
  assert (Hall : forall y, In y (x :: v) ->
            exists k, measures (serializedLength (codec T) y) k
                      /\ to_u32 k = to_u32 n).
  { intros y Hy. destruct (codec_additive T y (Hv y Hy)) as (k & Hk).
    exists k. split; [exact Hk|].
    pose proof (serializationLength_of_measures T y k Hk) as Hy'.
    rewrite (Hfixed y x (Hv y Hy) (Hv x (or_introl eq_refl))) in Hy'.
    congruence. }
  pose proof (measures_for_each_const _ n (x :: v) Hall) as Hsum.
  assert (Hvec : serializedLength
                   (VectorSerializer_fixed (codec T) (default_value T))
                   (x :: v) ls
                 = (Ok tt, mkLStream (to_u32 (count_ ls + 4 + to_u32 n * len (x :: v))))).
  { cbn [serializedLength VectorSerializer_fixed].
    assert (Hm : measures
              (advance 4 ;;
               l <- measure (serializedLength (codec T) x) ;;
               advance (to_u32 (l * to_u32 (len (x :: v)))) ;; ret tt)
              (4 + to_u32 n * len (x :: v))).
    { apply measures_advance_then. intros s Hs. unfold bind at 1.
      rewrite (measure_of _ n _ Hn).
      apply measures_advance; [|exact Hs].
      rewrite to_u32_idem, to_u32_mul_r. reflexivity. }
    rewrite (Hm ls Hls), Z.add_assoc. reflexivity. }
  assert (Harr : serializedLength (ArraySerializer_fixed (codec T) (len (x :: v)))
                   (x :: v) ls
                 = (Ok tt, mkLStream (to_u32 (count_ ls + to_u32 n * len (x :: v))))).
  { cbn [serializedLength ArraySerializer_fixed]. unfold bind at 1.
    rewrite (measure_of _ n _ Hn).
    apply measures_advance; [reflexivity | exact Hls]. }
  split; [exact Hvec|]. split; [|split; [exact Harr|]].
  - rewrite Hvec. cbn [serializedLength VectorSerializer_nonfixed].
    rewrite (measures_advance_then 4 _ _ Hsum ls Hls).
    do 2 f_equal. rewrite to_u32_add_mul. f_equal. lia.
  - rewrite Harr. cbn [serializedLength ArraySerializer_nonfixed].
    rewrite (Hsum ls Hls).
    do 2 f_equal. rewrite to_u32_add_mul. f_equal. lia.
Qed.

(** ** The bulk copies stay inside the buffer *)








Lemma bind_overrun {B : Type} (n : Z) (k : Z -> M Stream B) (s : Stream) :
  end_ s < data_ s + to_u32 n ->
  bind (advance n) k s
  = (Fail StreamOverrunException,
     mkStream (buf s) (data_ s + to_u32 n) (end_ s)).
Proof. intros H. unfold bind. rewrite advance_overrun by exact H. reflexivity. Qed.


(** ** 32-bit length accounting *)





(** ** Values of 4 GiB *)

(** A string of [2^32 - 8] bytes has the computed length [2^32 - 4]; the
    size of the envelope, computed in 32 bits, wraps to 0, and the write
    of the length prefix overruns the empty buffer. *)
Lemma serializeMessage_wraps (str : list Z) :
  len str = 2 ^ 32 - 8 ->
  serializationLength TString str = Ok (2 ^ 32 - 4)
  /\ serializeMessage TString str = Fail StreamOverrunException.
Proof.
  intros Hlen. split.
  - rewrite (serializationLength_eq TString str eq_refl I).
    unfold wire_size. cbn [wire_image]. rewrite len_app, prim_bytes_len, Hlen.
    reflexivity.
  - unfold serializeMessage.
    rewrite (length_pass TString str eq_refl I).
    unfold wire_size. cbn [wire_image]. rewrite len_app, prim_bytes_len, Hlen.
    change (to_u32 (sizeof U32 + (2 ^ 32 - 8))) with (2 ^ 32 - 4).
    change (to_u32 (2 ^ 32 - 4 + 4)) with 0.
    unfold OStream_new, Stream_new. change (0 + to_u32 (to_u32 0)) with 0.
    unfold bind at 1. unfold serialize at 1. cbn [codec write SimpleSerializer].
    rewrite bind_overrun by (cbn [data_ end_]; change (to_u32 (sizeof U32)) with 4; lia).
    reflexivity.
Qed.

(** The same for a successful service reply, one byte earlier. *)
Lemma serializeServiceResponse_wraps (str : list Z) :
  len str = 2 ^ 32 - 9 ->
  serializationLength TString str = Ok (2 ^ 32 - 5)
  /\ serializeServiceResponse true TString str = Fail StreamOverrunException.
Proof.
  intros Hlen. split.
  - rewrite (serializationLength_eq TString str eq_refl I).
    unfold wire_size. cbn [wire_image]. rewrite len_app, prim_bytes_len, Hlen.
    reflexivity.
  - unfold serializeServiceResponse.
    rewrite (length_pass TString str eq_refl I).
    unfold wire_size. cbn [wire_image]. rewrite len_app, prim_bytes_len, Hlen.
    change (to_u32 (sizeof U32 + (2 ^ 32 - 9))) with (2 ^ 32 - 5).
    change (to_u32 (2 ^ 32 - 5 + 5)) with 0.
    unfold OStream_new, Stream_new. change (0 + to_u32 (to_u32 0)) with 0.
    unfold bind at 1. unfold serialize at 1. cbn [codec write SimpleSerializer].
    rewrite bind_overrun by (cbn [data_ end_]; change (to_u32 (sizeof U8)) with 1; lia).
    reflexivity.
Qed.

(** A vector of [2^30] values of type [uint32_t]: its count fits 32 bits,
    the size of its storage, [2^32] bytes, wraps to 0.  The write pass
    puts the count on the wire and copies nothing; the read pass resizes
    to [2^30] elements and copies nothing into them. *)
Lemma giant_vector_roundtrip_fails (k : nat) :
  Z.of_nat (S k) = 2 ^ 30 ->
  let v : denote (TVector (TPrim U32)) := repeat 1 (S k) in
  wf_val (TVector (TPrim U32)) v
  /\ exists s',
       serialize (TVector (TPrim U32)) v (OStream_new [0; 0; 0; 0] 0 4)
       = (Ok tt, s')
       /\ let bytes := bytes_between (buf s') 0 (data_ s') in
          fst (deserialize (TVector (TPrim U32))
                 (default_value (TVector (TPrim U32)))
                 (IStream_new bytes 0 (len bytes)))
          <> Ok v.
Proof.
  intros Hk v.
  assert (Hlen : len v = Z.of_nat (S k))
    by (unfold v, len; rewrite repeat_length; reflexivity).
  remember (Z.of_nat (S k)) as n eqn:Hn.
  assert (Hn1 : to_u32 n = n) by (rewrite Hk; reflexivity).
  assert (Hn4 : to_u32 (n * 4) = 0) by (rewrite Hk; reflexivity).
  assert (Hn4' : to_u32 (4 * n) = 0) by (rewrite Hk; reflexivity).
  split.
  { cbn [wf_val]. apply Forall_forall. intros x Hx.
    apply repeat_spec in Hx. subst x. cbv. split; congruence. }
  assert (Hw : serialize (TVector (TPrim U32)) v (OStream_new [0; 0; 0; 0] 0 4)
               = (Ok tt, mkStream (prim_bytes U32 n) 4 4)).
  { unfold serialize. cbn [codec VectorSerializer].
    change (write (VectorSerializer_simple U32) v (OStream_new [0; 0; 0; 0] 0 4))
      with (bind (write (SimpleSerializer U32) (to_u32 (len v)))
              (fun _ =>
                 match v with
                 | [] => ret tt
                 | _ :: _ =>
                     q <- advance (to_u32 (to_u32 (len v) * sizeof U32)) ;;
                     store q (firstn (Z.to_nat (to_u32 (to_u32 (len v) * sizeof U32)))
                                (raw_bytes U32 v))
                 end) (mkStream [0; 0; 0; 0] 0 (0 + to_u32 4))).
    rewrite Hlen, Hn1. change (sizeof U32) with 4. rewrite Hn4.
    change (to_u32 0) with 0. change (Z.to_nat 0) with 0%nat.
    change (0 + to_u32 4) with 4.
    unfold bind at 1.
    rewrite (writes_run _ _ _ [] [0; 0; 0; 0] [] (Simple_writes U32 n));
      cbn [buf data_ end_ app]; rewrite ?prim_bytes_len; try reflexivity.
    rewrite app_nil_r. change (0 + sizeof U32) with 4.
    unfold v. cbn [repeat firstn].
    unfold bind. rewrite advance_ok by (cbn [data_ end_]; reflexivity).
    cbn [data_ end_ buf].
    pose proof (store_splice (prim_bytes U32 n) [] [] [] (4 + to_u32 0) 4 eq_refl)
      as Hst.
    rewrite prim_bytes_len, app_nil_r in Hst. change (sizeof U32) with 4 in Hst.
    rewrite Hst. reflexivity. }
  eexists. split; [exact Hw|]. cbn [buf data_].
  assert (Hb : bytes_between (prim_bytes U32 n) 0 4 = prim_bytes U32 n).
  { pose proof (bytes_between_splice [] (prim_bytes U32 n) []) as Hb.
    rewrite app_nil_r, prim_bytes_len in Hb. exact Hb. }
  cbv zeta. rewrite Hb, prim_bytes_len. change (sizeof U32) with 4.
  unfold deserialize. cbn [codec VectorSerializer default_value].
  change (read (VectorSerializer_simple U32) []
            (IStream_new (prim_bytes U32 n) 0 4))
    with (bind (read (SimpleSerializer U32) 0)
            (fun len =>
               if 0 <? len then
                 q <- advance (to_u32 (sizeof U32 * len)) ;;
                 bs <- load q (to_u32 (sizeof U32 * len)) ;;
                 ret (from_raw U32 (length (resize len [] 0))
                        (bs ++ skipn (Z.to_nat (to_u32 (sizeof U32 * len)))
                                 (raw_bytes U32 (resize len [] 0))))
               else ret (resize len [] 0))
            (mkStream (prim_bytes U32 n) 0 (0 + to_u32 4))).
  change (0 + to_u32 4) with 4. change (sizeof U32) with 4.
  unfold bind at 1.
  pose proof (U32_reads_small 0 n ltac:(rewrite Hk; lia) [] [] 4) as Hr.
  rewrite prim_bytes_len in Hr. cbn [app] in Hr. rewrite app_nil_r in Hr.
  change (len []) with 0 in Hr. rewrite Hr by (cbv; congruence). clear Hr.
  destruct (Z.ltb_spec 0 n) as [_|Hbad]; [|rewrite Hk in Hbad; lia].
  rewrite Hn4'. change (to_u32 0) with 0. change (Z.to_nat 0) with 0%nat.
  cbn [skipn].
  assert (Hres : resize n [] 0 = repeat 0 (S k)).
  { unfold resize. rewrite firstn_nil. cbn [app length].
    rewrite Nat.sub_0_r, Hn, Nat2Z.id. reflexivity. }
  rewrite Hres, repeat_length.
  unfold bind. rewrite advance_ok by (cbn [data_ end_]; reflexivity).
  cbn [data_ end_ buf]. unfold load, in_buffer. cbn [buf].
  rewrite prim_bytes_len. change (sizeof U32) with 4.
  change ((0 <=? 0 + 4) && (0 <=? 0) && (0 + 4 + 0 <=? 4)) with true.
  change (Z.to_nat 0) with 0%nat. cbn [firstn app ret fst].
  intros Habs. inversion Habs as [Hv]. unfold v in Hv.
  cbn [repeat raw_bytes map concat from_raw] in Hv.
  inversion Hv as [[Hhead Htail]]. revert Hhead.
  unfold prim_value, prim_bytes, of_bytes, to_bytes.
  destruct big_endian; cbv; discriminate.
Qed.

(** ** A stream with too little room *)

Lemma fst_fail_bind {A B : Type} (m : M Stream A) (k : A -> M Stream B)
    (s : Stream) (f : failure) :
  fst (m s) = Fail f -> fst (bind m k s) = Fail f.
Proof.
  unfold bind. destruct (m s) as [[a|f'] s1]; cbn [fst]; intros H;
    [discriminate H | inversion H; reflexivity].
Qed.

Lemma overruns_ret {A : Type} (a : A) : overruns (ret a) [].
Proof.
  intros s _ Hc Hroom. unfold cursor_in_bounds in Hc.
  rewrite len_nil in Hroom. lia.
Qed.

Lemma overruns_bind (m1 m2 : M Stream unit) (i1 i2 : list Z) :
  writes m1 i1 -> overruns m1 i1 -> overruns m2 i2 ->
  overruns (m1 ;; m2) (i1 ++ i2).
Proof.
  intros Hw H1 H2 s Hmem Hc Hroom. rewrite len_app in Hroom.
  destruct (Z_lt_le_dec (end_ s - data_ s) (len i1)) as [Hshort|Hfit].
  - apply fst_fail_bind. apply H1; assumption.
  - destruct Hmem as [Hd He].
    destruct (buffer_split (buf s) (data_ s) (len i1))
      as (pre & mid & post & Hbuf & Hpre & Hmid);
      [lia | apply len_nonneg | lia |].
    unfold bind.
    rewrite (writes_run m1 i1 s pre mid post Hw Hbuf) by lia.
    apply H2.
    + unfold mem_ok. cbn [buf data_ end_].
      pose proof (f_equal len Hbuf) as Hl. rewrite !len_app in *.
      pose proof (len_nonneg i1). lia.
    + unfold cursor_in_bounds. cbn [data_ end_]. lia.
    + cbn [data_ end_]. lia.
Qed.

Lemma overruns_for_each {T : Type} (next : T -> M Stream unit)
    (img : T -> list Z) (v : list T) :
  (forall x, In x v -> writes (next x) (img x)) ->
  (forall x, In x v -> overruns (next x) (img x)) ->
  overruns (for_each next v) (concat (map img v)).
Proof.
  induction v as [|x v IH]; intros Hw Ho; cbn [for_each map concat].
  - apply overruns_ret.
  - apply overruns_bind.
    + apply Hw. left. reflexivity.
    + apply Ho. left. reflexivity.
    + apply IH; intros y Hy; [apply Hw | apply Ho]; right; exact Hy.
Qed.

Lemma overruns_advance {B : Type} (n : Z) (k : Z -> M Stream B)
    (img : list Z) :
  to_u32 n = len img -> overruns (bind (advance n) k) img.
Proof.
  intros Hn s _ _ Hroom. rewrite bind_overrun by lia. reflexivity.
Qed.

Lemma Simple_overruns (p : prim) (v : Z) :
  overruns (write (SimpleSerializer p) v) (prim_bytes p v).
Proof.
  cbn [write SimpleSerializer]. apply overruns_advance.
  rewrite to_u32_sizeof, prim_bytes_len. reflexivity.
Qed.

Lemma codec_overruns (t : ty) :
  specialised t = true ->
  forall v, wf_val t v -> wire_size t v < 2 ^ 32 ->
  overruns (write (codec t) v) (wire_image t v).
Proof.
  unfold wire_size.
  induction t as [p| | | | |T IH|T IH N|]; intros Hs v Hv Hsz;
    cbn [specialised] in Hs; try discriminate Hs;
    cbn [codec wire_image denote] in *.
  - apply Simple_overruns.
  - cbn [write BoolSerializer]. apply overruns_advance. reflexivity.
  - rewrite len_app, prim_bytes_len in Hsz. change (sizeof U32) with 4 in Hsz.
    pose proof (len_nonneg v) as Hnn.
    cbn [write StringSerializer]. apply overruns_bind.
    + rewrite <- prim_bytes_u32. apply (Simple_writes U32).
    + rewrite <- prim_bytes_u32. apply (Simple_overruns U32).
    + destruct (Z.ltb_spec 0 (len v)).
      * apply overruns_advance. apply to_u32_small. lia.
      * destruct v; [apply overruns_ret|]. rewrite len_cons in *.
        pose proof (len_nonneg v). lia.
  - cbn [write TimeSerializer].
    apply overruns_bind;
      [apply Simple_writes | apply Simple_overruns | apply Simple_overruns].
  - cbn [write DurationSerializer].
    apply overruns_bind;
      [apply Simple_writes | apply Simple_overruns | apply Simple_overruns].
  - rewrite len_app, prim_bytes_len in Hsz. change (sizeof U32) with 4 in Hsz.
    destruct (IsSimple T) eqn:Hsimple.
    + apply IsSimple_inv in Hsimple. destruct Hsimple as [p ->].
      cbn [denote] in *.
      change (concat (map (wire_image (TPrim p)) v)) with (raw_bytes p v) in *.
      rewrite raw_bytes_len in Hsz.
      pose proof (len_nonneg v) as Hnn. pose proof (sizeof_range p) as Hp.
      cbn [VectorSerializer]. cbn [write VectorSerializer_simple].
      apply overruns_bind.
      * rewrite <- prim_bytes_u32. apply (Simple_writes U32).
      * rewrite <- prim_bytes_u32. apply (Simple_overruns U32).
      * destruct v as [|x v]; [apply overruns_ret|].
        apply overruns_advance.
        rewrite to_u32_idem, (to_u32_small (len (x :: v))) by nia.
        rewrite raw_bytes_len. apply to_u32_small. nia.
    + rewrite (VectorSerializer_write T Hsimple (codec T) v).
      cbn [wf_val] in Hv. rewrite Forall_forall in Hv.
      assert (Hel : forall x, In x v -> len (wire_image T x) < 2 ^ 32).
      { intros x Hx. pose proof (len_concat_ge (wire_image T) v x Hx). lia. }
      apply overruns_bind.
      * rewrite <- prim_bytes_u32. apply (Simple_writes U32).
      * rewrite <- prim_bytes_u32. apply (Simple_overruns U32).
      * apply overruns_for_each; intros x Hx.
        -- apply (codec_writes T Hs x (Hv x Hx)). apply Hel. exact Hx.
        -- apply IH; auto.
  - destruct Hv as [Hlen Hv]. rewrite Forall_forall in Hv.
    destruct (IsSimple T) eqn:Hsimple.
    + apply IsSimple_inv in Hsimple. destruct Hsimple as [p ->].
      cbn [denote] in *.
      change (concat (map (wire_image (TPrim p)) v)) with (raw_bytes p v) in *.
      rewrite raw_bytes_len in Hsz.
      assert (HN : len v = Z.pos N)
        by (unfold len; rewrite <- positive_nat_Z; f_equal; exact Hlen).
      cbn [ArraySerializer]. cbn [write ArraySerializer_simple].
      apply overruns_advance.
      rewrite to_u32_idem, raw_bytes_len, <- HN. apply to_u32_small.
      pose proof (len_nonneg v). pose proof (sizeof_range p). nia.
    + rewrite (ArraySerializer_write T N Hsimple (codec T) v).
      assert (Hel : forall x, In x v -> len (wire_image T x) < 2 ^ 32).
      { intros x Hx. pose proof (len_concat_ge (wire_image T) v x Hx). lia. }
      apply overruns_for_each; intros x Hx.
      * apply (codec_writes T Hs x (Hv x Hx)). apply Hel. exact Hx.
      * apply IH; auto.
Qed.

(** X1.  Writing into a stream that is too short.  For every value of a
    type served by the specialised codecs whose wire image has fewer than
    2^32 bytes, and every output stream inside its buffer: if the stream
    has less room than the wire image is long, [serialize] raises
    [StreamOverrunException] - it neither returns nor touches memory
    outside the buffer - and if it has enough room, [serialize] returns.
    So [serialize] returns exactly when the value fits. *)
Theorem serialize_overruns_when_short (t : ty) (v : denote t) (s : OStream) :
  specialised t = true -> wf_val t v -> wire_size t v < 2 ^ 32 ->
  mem_ok s -> cursor_in_bounds s ->
  (end_ s - data_ s < wire_size t v ->
   fst (serialize t v s) = Fail StreamOverrunException)
  /\ (wire_size t v <= end_ s - data_ s ->
      fst (serialize t v s) = Ok tt)
  /\ (fst (serialize t v s) = Ok tt <-> wire_size t v <= end_ s - data_ s).
Proof.
  intros Hs Hv Hsz Hmem Hc.
  assert (Hshort : end_ s - data_ s < wire_size t v ->
                   fst (serialize t v s) = Fail StreamOverrunException).
  { intros Hroom. apply (codec_overruns t Hs v Hv Hsz s Hmem Hc Hroom). }
  assert (Hfit : wire_size t v <= end_ s - data_ s ->
                 fst (serialize t v s) = Ok tt).
  { intros Hroom. destruct Hmem as [Hd He].
    destruct (serialize_image t v s Hs Hv Hd He Hroom Hsz)
      as (pre & mid & post & _ & _ & _ & Hw).
    rewrite Hw. reflexivity. }
  split; [exact Hshort|]. split; [exact Hfit|]. split; [|exact Hfit].
  intros Hok. destruct (Z_lt_le_dec (end_ s - data_ s) (wire_size t v)) as [Hlt|Hle];
    [|exact Hle].
  rewrite (Hshort Hlt) in Hok. discriminate Hok.
Qed.

(** ** A buffer that ends too early *)

Lemma read_overruns_ret {A : Type} (a : A) : read_overruns (ret a) [].
Proof.
  intros pre part rest Heq Hne. symmetry in Heq.
  apply app_eq_nil in Heq. destruct Heq as [_ Hr]. contradiction.
Qed.

Lemma read_overruns_advance {B : Type} (n : Z) (k : Z -> M Stream B)
    (img : list Z) :
  to_u32 n = len img -> read_overruns (bind (advance n) k) img.
Proof.
  intros Hn pre part rest Heq Hne. rewrite bind_overrun; [reflexivity|].
  cbn [data_ end_]. rewrite Hn, Heq, len_app.
  destruct rest as [|b rest]; [contradiction|].
  rewrite len_cons. pose proof (len_nonneg rest). lia.
Qed.

Lemma read_overruns_bind {A B : Type} (m : M Stream A) (k : A -> M Stream B)
    (i1 i2 : list Z) (a : A) :
  reads m i1 a -> read_overruns m i1 -> read_overruns (k a) i2 ->
  read_overruns (bind m k) (i1 ++ i2).
Proof.
  intros Hr H1 H2 pre part rest Heq Hne.
  assert (Hcase : (exists l, l <> [] /\ i1 = part ++ l)
                  \/ (exists l, part = i1 ++ l /\ i2 = l ++ rest)).
  { apply app_eq_app in Heq. destruct Heq as (l & [[Ha Hb]|[Ha Hb]]).
    - destruct l as [|b l].
      + right. exists []. rewrite app_nil_r in Ha. cbn [app] in Hb.
        subst. rewrite app_nil_r. split; reflexivity.
      + left. exists (b :: l). split; [discriminate | exact Ha].
    - right. exists l. split; assumption. }
  destruct Hcase as [(l & Hl & Hi1)|(l & Hpart & Hi2)].
  - apply fst_fail_bind. apply (H1 pre part l Hi1 Hl).
  - subst part. unfold bind. rewrite len_app.
    rewrite (Hr pre l (len pre + (len i1 + len l)))
      by (pose proof (len_nonneg l); lia).
    replace (len pre + len i1) with (len (pre ++ i1)) by apply len_app.
    replace (len pre + (len i1 + len l)) with (len (pre ++ i1) + len l)
      by (rewrite len_app; lia).
    rewrite (app_assoc pre i1 l).
    apply (H2 (pre ++ i1) l rest Hi2 Hne).
Qed.

Lemma read_overruns_for_each_mut {T : Type} (next : T -> M Stream T)
    (img : T -> list Z) (v : list T) :
  forall olds,
  (forall old x, In old olds -> In x v -> reads (next old) (img x) x) ->
  (forall old x, In old olds -> In x v -> read_overruns (next old) (img x)) ->
  length olds = length v ->
  read_overruns (for_each_mut next olds) (concat (map img v)).
Proof.
  induction v as [|x v IH]; intros olds Hr Ho Holds;
    destruct olds as [|old olds]; try discriminate Holds;
    cbn [for_each_mut map concat].
  - apply read_overruns_ret.
  - apply read_overruns_bind with (a := x).
    + apply Hr; left; reflexivity.
    + apply Ho; left; reflexivity.
    + rewrite <- (app_nil_r (concat (map img v))).
      apply read_overruns_bind with (a := v).
      * apply reads_for_each_mut; [|simpl in Holds; congruence].
        intros o y Hin Hy. apply Hr; right; assumption.
      * apply IH; [| |simpl in Holds; congruence];
          intros o y Hin Hy; [apply Hr | apply Ho]; right; assumption.
      * apply read_overruns_ret.
Qed.

Lemma Simple_read_overruns (p : prim) (old v : Z) :
  read_overruns (read (SimpleSerializer p) old) (prim_bytes p v).
Proof.
  cbn [read SimpleSerializer]. apply read_overruns_advance.
  rewrite to_u32_sizeof, prim_bytes_len. reflexivity.
Qed.

Lemma codec_read_overruns (t : ty) :
  specialised t = true ->
  forall v old, wf_val t v -> wf_val t old -> wire_size t v < 2 ^ 32 ->
  read_overruns (read (codec t) old) (wire_image t v).
Proof.
  induction t as [p| | | | |T IH|T IH N|]; intros Hs v old Hv Hold Hsz;
    cbn [specialised] in Hs; try discriminate Hs; cbn [denote] in *;
    unfold wire_size in Hsz; cbn [wire_image] in Hsz |- *.
  - apply Simple_read_overruns.
  - cbn [codec read BoolSerializer]. apply read_overruns_advance. reflexivity.
  - rewrite len_app, prim_bytes_len in Hsz. change (sizeof U32) with 4 in Hsz.
    pose proof (len_nonneg v) as Hnn.
    cbn [codec read StringSerializer].
    apply read_overruns_bind with (a := len v).
    + apply U32_reads_small. lia.
    + apply (Simple_read_overruns U32).
    + destruct (Z.ltb_spec 0 (len v)).
      * apply read_overruns_advance. apply to_u32_small. lia.
      * destruct v; [apply read_overruns_ret|]. rewrite len_cons in *.
        pose proof (len_nonneg v). lia.
  - destruct Hv as [Hsec Hnsec]. cbn [codec read TimeSerializer].
    apply read_overruns_bind with (a := sec v);
      [apply Simple_reads; exact Hsec | apply Simple_read_overruns |].
    rewrite <- (app_nil_r (prim_bytes U32 (nsec v))).
    apply read_overruns_bind with (a := nsec v);
      [apply Simple_reads; exact Hnsec | apply Simple_read_overruns
      | apply read_overruns_ret].
  - destruct Hv as [Hsec Hnsec]. cbn [codec read DurationSerializer].
    apply read_overruns_bind with (a := sec v);
      [apply Simple_reads; exact Hsec | apply Simple_read_overruns |].
    rewrite <- (app_nil_r (prim_bytes I32 (nsec v))).
    apply read_overruns_bind with (a := nsec v);
      [apply Simple_reads; exact Hnsec | apply Simple_read_overruns
      | apply read_overruns_ret].
  - assert (Hcount : len v <= len (concat (map (wire_image T) v))).
    { apply len_concat_count. intros x Hx. apply (wire_size_pos T Hs).
      cbn [wf_val] in Hv. rewrite Forall_forall in Hv. apply Hv. exact Hx. }
    rewrite len_app, prim_bytes_len in Hsz. change (sizeof U32) with 4 in Hsz.
    pose proof (len_nonneg v) as Hnn.
    destruct (IsSimple T) eqn:Hsimple.
    + apply IsSimple_inv in Hsimple. destruct Hsimple as [p ->].
      cbn [codec VectorSerializer denote] in *.
      change (concat (map (wire_image (TPrim p)) v)) with (raw_bytes p v) in *.
      rewrite raw_bytes_len in Hsz. pose proof (sizeof_range p) as Hp.
      cbn [read VectorSerializer_simple].
      apply read_overruns_bind with (a := len v).
      * apply U32_reads_small. lia.
      * apply (Simple_read_overruns U32).
      * cbv zeta. destruct (Z.ltb_spec 0 (len v)).
        -- apply read_overruns_advance.
           rewrite to_u32_idem, raw_bytes_len, (Z.mul_comm (len v)).
           apply to_u32_small. nia.
        -- destruct v; [apply read_overruns_ret|]. rewrite len_cons in *.
           pose proof (len_nonneg v). lia.
    + cbn [codec]. rewrite (VectorSerializer_read T Hsimple (codec T) old).
      cbn [wf_val] in Hv, Hold.
      pose proof (wf_resize T (len v) old Hold) as Hres.
      rewrite Forall_forall in Hv, Hres.
      assert (Hel : forall x, In x v -> wire_size T x < 2 ^ 32).
      { intros x Hx. pose proof (len_concat_ge (wire_image T) v x Hx).
        unfold wire_size. lia. }
      apply read_overruns_bind with (a := len v).
      * apply U32_reads_small. lia.
      * apply (Simple_read_overruns U32).
      * apply read_overruns_for_each_mut.
        -- intros o x Ho Hx. apply codec_reads; auto.
        -- intros o x Ho Hx. apply IH; auto.
        -- rewrite resize_length. unfold len. apply Nat2Z.id.
  - destruct Hv as [Hlen Hv]. destruct Hold as [Holdlen Hold].
    destruct (IsSimple T) eqn:Hsimple.
    + apply IsSimple_inv in Hsimple. destruct Hsimple as [p ->].
      cbn [codec ArraySerializer denote] in *.
      change (concat (map (wire_image (TPrim p)) v)) with (raw_bytes p v) in *.
      rewrite raw_bytes_len in Hsz.
      assert (HN : len v = Z.pos N)
        by (unfold len; rewrite <- positive_nat_Z; f_equal; exact Hlen).
      cbn [read ArraySerializer_simple].
      apply read_overruns_advance.
      rewrite to_u32_idem, raw_bytes_len, <- HN. apply to_u32_small.
      pose proof (len_nonneg v). pose proof (sizeof_range p). nia.
    + cbn [codec]. rewrite (ArraySerializer_read T N Hsimple (codec T) old).
      rewrite Forall_forall in Hv, Hold.
      assert (Hel : forall x, In x v -> wire_size T x < 2 ^ 32).
      { intros x Hx. pose proof (len_concat_ge (wire_image T) v x Hx).
        unfold wire_size. lia. }
      apply read_overruns_for_each_mut.
      * intros o x Ho Hx. apply codec_reads; auto.
      * intros o x Ho Hx. apply IH; auto.
      * transitivity (Pos.to_nat N); [exact Holdlen | symmetry; exact Hlen].
Qed.

(** X2.  Reading from a buffer that was cut short.  For every value of a
    type served by the specialised codecs and holding no
    [std::vector<bool>], whose wire image has fewer than 2^32 bytes:
    [deserialize], from an input stream over only the first [n] bytes of
    the wire image, for any [n] short of its length, raises
    [StreamOverrunException], whatever well-formed object it is reading
    into.  The counts it reads are counts of the value itself, so that
    [resize] is asked for no more than the value holds. *)
Theorem deserialize_truncated_overruns (t : ty) (v old : denote t) (n : Z) :
  specialised t = true -> has_read t = true -> wf_val t v -> wf_val t old ->
  wire_size t v < 2 ^ 32 ->
  0 <= n < wire_size t v ->
  fst (deserialize t old (IStream_new (firstn (Z.to_nat n) (wire_image t v)) 0 n))
  = Fail StreamOverrunException.
Proof.
  intros Hs _ Hv Hold Hsz Hn. unfold wire_size in Hn.
  set (img := wire_image t v) in *.
  assert (Hpart : len (firstn (Z.to_nat n) img) = n)
    by (unfold len in *; rewrite length_firstn; lia).
  assert (Hrest : skipn (Z.to_nat n) img <> []).
  { intros Hnil. pose proof (f_equal (@length Z) Hnil) as Hl.
    rewrite length_skipn in Hl. unfold len in Hn. simpl in Hl. lia. }
  pose proof (codec_read_overruns t Hs v old Hv Hold Hsz []
                (firstn (Z.to_nat n) img) (skipn (Z.to_nat n) img)
                (eq_sym (firstn_skipn _ _)) Hrest) as H.
  cbn [app] in H. rewrite Hpart in H. change (len []) with 0 in H.
  unfold deserialize, IStream_new, Stream_new.
  assert (Hsz' : len img < 2 ^ 32) by exact Hsz.
  rewrite to_u32_small by lia. exact H.
Qed.

(** ** Reading whatever bytes there are *)

Lemma Forall_firstn {A : Type} (P : A -> Prop) (n : nat) (l : list A) :
  Forall P l -> Forall P (firstn n l).
Proof.
  intros H. rewrite Forall_forall in *. intros x Hx. apply H.
  eapply In_firstn. exact Hx.
Qed.

Lemma Forall_skipn {A : Type} (P : A -> Prop) (n : nat) (l : list A) :
  Forall P l -> Forall P (skipn n l).
Proof.
  revert l. induction n as [|n IH]; intros l H; [exact H|].
  destruct l as [|x l]; [exact H|]. cbn [skipn]. apply IH.
  inversion H; assumption.
Qed.

Lemma le_value_range (bs : list Z) :
  Forall is_byte bs -> 0 <= le_value bs < 256 ^ len bs.
Proof.
  induction 1 as [|b bs Hb Hbs IH]; [cbn; lia|].
  cbn [le_value]. rewrite len_cons.
  replace (1 + len bs) with (Z.succ (len bs)) by lia.
  rewrite Z.pow_succ_r by apply len_nonneg.
  unfold is_byte in Hb. lia.
Qed.

Lemma of_bytes_range (bs : list Z) :
  Forall is_byte bs -> 0 <= of_bytes bs < 256 ^ len bs.
Proof.
  intros H. unfold of_bytes. destruct big_endian.
  - replace (len bs) with (len (rev bs)) by (unfold len; rewrite length_rev; reflexivity).
    apply le_value_range. apply Forall_rev. exact H.
  - apply le_value_range. exact H.
Qed.

Lemma safe_read_ret {A : Type} (a : A) (P : A -> Prop) :
  P a -> safe_read (ret a) P.
Proof.
  intros Ha s r s' Hmem _ H. unfold ret in H. inversion H; subst.
  split; [left; exists a; split; [reflexivity | exact Ha]|].
  split; [exact Hmem | reflexivity].
Qed.

Lemma safe_read_bind {A B : Type} (m : M Stream A) (k : A -> M Stream B)
    (P : A -> Prop) (Q : B -> Prop) :
  safe_read m P -> (forall a, P a -> safe_read (k a) Q) ->
  safe_read (bind m k) Q.
Proof.
  intros Hm Hk s r s' Hmem Hbytes H. unfold bind in H.
  destruct (m s) as [[a|f] s1] eqn:Hms.
  - destruct (Hm _ _ _ Hmem Hbytes Hms) as (Hres & Hmem1 & Hbuf1).
    destruct Hres as [(a' & Ha' & HP)|Hover]; [|discriminate Hover].
    inversion Ha'; subst a'.
    assert (Hbytes1 : Forall is_byte (buf s1)) by (rewrite Hbuf1; exact Hbytes).
    destruct (Hk a HP _ _ _ Hmem1 Hbytes1 H) as (Hres2 & Hmem2 & Hbuf2).
    split; [exact Hres2|]. split; [exact Hmem2 | congruence].
  - inversion H; subst.
    destruct (Hm _ _ _ Hmem Hbytes Hms) as (Hres & Hmem1 & Hbuf1).
    split; [|split; assumption].
    right. destruct Hres as [(a' & Ha' & _)|Hover]; [discriminate Ha'|].
    inversion Hover. reflexivity.
Qed.

Lemma safe_read_advance_load {B : Type} (n n' : Z) (f : list Z -> B)
    (P : B -> Prop) :
  0 <= n' <= to_u32 n ->
  (forall bs, Forall is_byte bs -> len bs = n' -> P (f bs)) ->
  safe_read (q <- advance n ;; bs <- load q n' ;; ret (f bs)) P.
Proof.
  intros Hn' HP s r s' [Hd He] Hbytes H. unfold bind in H.
  destruct (Z_le_gt_dec (data_ s + to_u32 n) (end_ s)) as [Hfit|Hover].
  - rewrite advance_ok in H by exact Hfit.
    unfold load, in_buffer, ret in H. cbn [buf data_ end_] in H.
    replace ((0 <=? data_ s) && (0 <=? n') && (data_ s + n' <=? len (buf s)))
      with true in H by (symmetry; rewrite !andb_true_iff; repeat split; lia).
    inversion H; subst. unfold mem_ok. cbn [buf data_ end_].
    split; [|split; [split; lia | reflexivity]].
    left. eexists. split; [reflexivity|]. apply HP.
    + apply Forall_firstn. apply Forall_skipn. exact Hbytes.
    + unfold len in *. rewrite length_firstn, length_skipn. lia.
  - rewrite advance_overrun in H by lia. inversion H; subst.
    unfold mem_ok. cbn [buf data_ end_].
    split; [right; reflexivity|]. split; [split; lia | reflexivity].
Qed.

Lemma safe_read_advance_load_raw (n n' : Z) :
  n' = to_u32 n ->
  safe_read (q <- advance n ;; load q n') (fun _ => True).
Proof.
  intros -> s r s' Hmem Hbytes H.
  apply (safe_read_advance_load n (to_u32 n) (fun bs => bs) (fun _ => True));
    try assumption.
  - pose proof (to_u32_range n). lia.
  - intros; exact I.
  - rewrite <- H. unfold bind.
    destruct (advance n s) as [[q|f] s1]; [|reflexivity].
    unfold ret. destruct (load q (to_u32 n) s1) as [[bs|f] s2]; reflexivity.
Qed.

Lemma U32_safe_read (old : Z) :
  safe_read (read (SimpleSerializer U32) old) (fun n => 0 <= n < 2 ^ 32).
Proof.
  cbn [read SimpleSerializer]. apply safe_read_advance_load.
  - cbv. split; congruence.
  - intros bs Hbs Hlen. unfold prim_value. cbn [is_signed andb].
    pose proof (of_bytes_range bs Hbs) as Hr. rewrite Hlen in Hr.
    change (256 ^ sizeof U32) with (2 ^ 32) in Hr. exact Hr.
Qed.

Lemma Simple_safe_read (p : prim) (old : Z) :
  safe_read (read (SimpleSerializer p) old) (fun _ => True).
Proof.
  cbn [read SimpleSerializer]. apply safe_read_advance_load.
  - rewrite to_u32_sizeof. pose proof (sizeof_range p). lia.
  - intros; exact I.
Qed.

Lemma safe_read_for_each_mut {T : Type} (next : T -> M Stream T) (v : list T) :
  (forall x, safe_read (next x) (fun _ => True)) ->
  safe_read (for_each_mut next v) (fun _ => True).
Proof.
  intros H. induction v as [|x v IH]; cbn [for_each_mut].
  - apply safe_read_ret. exact I.
  - apply (safe_read_bind _ _ (fun _ => True)); [apply H|]. intros x' _.
    apply (safe_read_bind _ _ (fun _ => True)); [exact IH|]. intros r _.
    apply safe_read_ret. exact I.
Qed.

Lemma codec_safe_read (t : ty) :
  specialised t = true ->
  forall old, safe_read (read (codec t) old) (fun _ => True).
Proof.
  induction t as [p| | | | |T IH|T IH N|]; intros Hs old;
    cbn [specialised] in Hs; try discriminate Hs; cbn [codec denote] in *.
  - apply Simple_safe_read.
  - cbn [read BoolSerializer].
    apply (safe_read_advance_load 1 1
             (fun bs => negb (prim_value U8 bs =? 0))).
    + cbv. split; congruence.
    + intros; exact I.
  - cbn [read StringSerializer].
    apply (safe_read_bind _ _ (fun n => 0 <= n < 2 ^ 32));
      [apply U32_safe_read|].
    intros n Hn. destruct (0 <? n); [|apply safe_read_ret; exact I].
    apply safe_read_advance_load_raw. symmetry. apply to_u32_small. exact Hn.
  - cbn [read TimeSerializer].
    apply (safe_read_bind _ _ (fun _ => True)); [apply Simple_safe_read|].
    intros a _.
    apply (safe_read_bind _ _ (fun _ => True)); [apply Simple_safe_read|].
    intros b _. apply safe_read_ret. exact I.
  - cbn [read DurationSerializer].
    apply (safe_read_bind _ _ (fun _ => True)); [apply Simple_safe_read|].
    intros a _.
    apply (safe_read_bind _ _ (fun _ => True)); [apply Simple_safe_read|].
    intros b _. apply safe_read_ret. exact I.
  - destruct (IsSimple T) eqn:Hsimple.
    + apply IsSimple_inv in Hsimple. destruct Hsimple as [p ->].
      cbn [VectorSerializer denote] in *. cbn [read VectorSerializer_simple].
      apply (safe_read_bind _ _ (fun n => 0 <= n < 2 ^ 32));
        [apply U32_safe_read|].
      intros n Hn. cbv zeta. destruct (0 <? n); [|apply safe_read_ret; exact I].
      apply (safe_read_advance_load _ _
               (fun bs => from_raw p (length (resize n old 0))
                            (bs ++ skipn (Z.to_nat (to_u32 (sizeof p * n)))
                                     (raw_bytes p (resize n old 0))))).
      * rewrite to_u32_idem. pose proof (to_u32_range (sizeof p * n)). lia.
      * intros; exact I.
    + rewrite (VectorSerializer_read T Hsimple (codec T) old).
      apply (safe_read_bind _ _ (fun n => 0 <= n < 2 ^ 32));
        [apply U32_safe_read|].
      intros n _. apply safe_read_for_each_mut. intros x. apply IH. exact Hs.
  - destruct (IsSimple T) eqn:Hsimple.
    + apply IsSimple_inv in Hsimple. destruct Hsimple as [p ->].
      cbn [ArraySerializer denote] in *. cbn [read ArraySerializer_simple].
      apply (safe_read_advance_load _ _
               (fun bs => from_raw p (length old)
                            (bs ++ skipn (Z.to_nat (to_u32 (Z.pos N * sizeof p)))
                                     (raw_bytes p old)))).
      * rewrite to_u32_idem. pose proof (to_u32_range (Z.pos N * sizeof p)). lia.
      * intros; exact I.
    + rewrite (ArraySerializer_read T N Hsimple (codec T) old).
      apply safe_read_for_each_mut. intros x. apply IH. exact Hs.
Qed.

(** X3.  Reading never leaves the buffer.  For every type served by the
    specialised codecs that holds no [std::vector] - numeric primitives,
    [bool], strings, time-like values and arrays of such, whose [read]
    never calls [resize] - every input stream whose view lies inside a
    buffer of bytes, whatever the bytes are, and every object read into:
    [deserialize] either returns a value or raises
    [StreamOverrunException]; it never touches memory outside the buffer,
    and it leaves the buffer and the bound of the stream as they were. *)
Theorem deserialize_stays_in_buffer (t : ty) (old : denote t) (s : IStream) :
  specialised t = true -> vector_free t = true ->
  mem_ok s -> Forall is_byte (buf s) ->
  ((exists v, fst (deserialize t old s) = Ok v)
   \/ fst (deserialize t old s) = Fail StreamOverrunException)
  /\ buf (snd (deserialize t old s)) = buf s
  /\ end_ (snd (deserialize t old s)) = end_ s.
Proof.
  intros Hs _ Hmem Hbytes.
  destruct (deserialize t old s) as [r s'] eqn:H. cbn [fst snd].
  destruct (codec_safe_read t Hs old s r s' Hmem Hbytes H)
    as (Hres & _ & Hbuf).
  destruct (codec_bounded t old) as [_ Hb].
  destruct (Hb s r s' H) as (Hend & _).
  split; [|split; assumption].
  destruct Hres as [(v & Hv & _)|Hover]; [left; exists v; exact Hv | right; exact Hover].
Qed.

(** ** Empty vectors *)

Lemma resize_zero {T : Type} (v : list T) (d : T) : resize 0 v d = [].
Proof. unfold resize. reflexivity. Qed.

(** X4.  An empty vector, whatever its element type (also one served by
    the primary template): [serialize] writes the 4 bytes of a zero count
    and nothing else, and the computed length is 4.  When the header
    instantiates [deserialize] for the vector (its type holds no
    [std::vector<bool>]), [deserialize] of 4 zero bytes yields the empty
    vector, whatever the vector held before. *)
Theorem empty_vector (T : ty) :
  (forall pre mid post e,
     len mid = 4 -> len pre + 4 <= e ->
     serialize (TVector T) [] (mkStream (pre ++ mid ++ post) (len pre) e)
     = (Ok tt, mkStream (pre ++ [0; 0; 0; 0] ++ post) (len pre + 4) e))
  /\ serializationLength (TVector T) [] = Ok 4
  /\ (has_read (TVector T) = true ->
      forall (old : list (denote T)) pre post e,
        len pre + 4 <= e ->
        deserialize (TVector T) old
          (mkStream (pre ++ [0; 0; 0; 0] ++ post) (len pre) e)
        = (Ok [], mkStream (pre ++ [0; 0; 0; 0] ++ post) (len pre + 4) e)).
Proof.
  assert (Hw : writes (write (SimpleSerializer U32) (to_u32 0)) [0; 0; 0; 0])
    by (rewrite <- prim_bytes_u32_zero; apply (Simple_writes U32)).
  assert (Hr : reads (read (SimpleSerializer U32) 0) [0; 0; 0; 0] 0).
  { rewrite <- prim_bytes_u32_zero. apply U32_reads_small. lia. }
  assert (H1 : forall v : list (denote T), v = [] ->
            writes (serialize (TVector T) v) ([0; 0; 0; 0] ++ [])).
  { intros v Hv. unfold serialize. cbn [codec denote].
    destruct (IsSimple T) eqn:Hsimple.
    - apply IsSimple_inv in Hsimple. destruct Hsimple as [p ->].
      cbn [VectorSerializer]. cbn [write VectorSerializer_simple]. subst v.
      apply writes_bind; [exact Hw | apply writes_ret].
    - rewrite (VectorSerializer_write T Hsimple (codec T) v). subst v.
      apply writes_bind; [exact Hw | apply writes_ret]. }
  assert (H2 : forall v : list (denote T), v = [] ->
            serializationLength (TVector T) v = Ok 4).
  { intros v Hv. unfold serializationLength, serializationLength_into.
    cbn [codec denote].
    destruct (IsSimple T) eqn:Hsimple.
    - apply IsSimple_inv in Hsimple. destruct Hsimple as [p ->].
      subst v. reflexivity.
    - destruct (IsFixedSize T) eqn:Hfixed.
      + rewrite (VectorSerializer_length_fixed T Hsimple Hfixed (codec T) v).
        subst v. reflexivity.
      + rewrite (VectorSerializer_length_nonfixed T Hfixed (codec T) v).
        subst v. reflexivity. }
  assert (H3 : forall old : list (denote T),
            reads (deserialize (TVector T) old) ([0; 0; 0; 0] ++ []) []).
  { intros old. unfold deserialize. cbn [codec denote].
    destruct (IsSimple T) eqn:Hsimple.
    - apply IsSimple_inv in Hsimple. destruct Hsimple as [p ->].
      cbn [VectorSerializer]. cbn [read VectorSerializer_simple].
      apply reads_bind with (a := 0); [exact Hr|].
      cbv zeta. change (0 <? 0) with false. cbv iota.
      rewrite resize_zero. apply reads_ret.
    - rewrite (VectorSerializer_read T Hsimple (codec T) old).
      apply reads_bind with (a := 0); [exact Hr|].
      rewrite resize_zero. apply reads_ret. }
  split; [|split].
  - intros pre mid post e Hmid Hroom. apply (H1 [] eq_refl); assumption.
  - apply (H2 [] eq_refl).
  - intros _ old pre post e Hroom. apply (H3 old pre post e). exact Hroom.
Qed.

(** ** One copy instead of a loop *)

Lemma elementwise_writes (p : prim) (v : list Z) :
  writes (for_each (write (SimpleSerializer p)) v) (raw_bytes p v).
Proof. apply writes_for_each. intros x _. apply Simple_writes. Qed.

Lemma elementwise_overruns (p : prim) (v : list Z) :
  overruns (for_each (write (SimpleSerializer p)) v) (raw_bytes p v).
Proof.
  apply overruns_for_each; intros x _;
    [apply Simple_writes | apply Simple_overruns].
Qed.

Lemma same_outcome (m1 m2 : M Stream unit) (img : list Z) (s : Stream) :
  writes m1 img -> writes m2 img -> overruns m1 img -> overruns m2 img ->
  mem_ok s -> cursor_in_bounds s ->
  (len img <= end_ s - data_ s -> m1 s = m2 s /\ fst (m1 s) = Ok tt)
  /\ (end_ s - data_ s < len img ->
      fst (m1 s) = Fail StreamOverrunException
      /\ fst (m2 s) = Fail StreamOverrunException).
Proof.
  intros Hw1 Hw2 Ho1 Ho2 Hmem Hc. split.
  - intros Hfit. destruct Hmem as [Hd He].
    destruct (buffer_split (buf s) (data_ s) (len img))
      as (pre & mid & post & Hbuf & Hpre & Hmid);
      [lia | apply len_nonneg | lia |].
    rewrite (writes_run m1 img s pre mid post Hw1 Hbuf) by lia.
    rewrite (writes_run m2 img s pre mid post Hw2 Hbuf) by lia.
    split; reflexivity.
  - intros Hshort. split; [apply Ho1 | apply Ho2]; assumption.
Qed.

(** X5.  The one-[memcpy] write of simple elements against the
    element-by-element write.  For a vector of simple elements whose
    encoding has fewer than 2^32 bytes, and any output stream inside its
    buffer: when the encoding fits, the codec for simple elements and the
    codec for elements that are not fixed-size, used with the element's
    own primitive codec, return with the stream in the same state - the
    same bytes in the buffer, the same cursor -; when it does not fit,
    both raise [StreamOverrunException].  The same holds for arrays. *)
Theorem bulk_write_equals_elementwise (p : prim) (v : list Z) (s : OStream) :
  4 + len v * sizeof p < 2 ^ 32 -> mem_ok s -> cursor_in_bounds s ->
  ((4 + len v * sizeof p <= end_ s - data_ s ->
    write (VectorSerializer_simple p) v s
    = write (VectorSerializer_nonfixed (SimpleSerializer p) 0) v s
    /\ fst (write (VectorSerializer_simple p) v s) = Ok tt)
   /\ (end_ s - data_ s < 4 + len v * sizeof p ->
       fst (write (VectorSerializer_simple p) v s) = Fail StreamOverrunException
       /\ fst (write (VectorSerializer_nonfixed (SimpleSerializer p) 0) v s)
          = Fail StreamOverrunException))
  /\ ((len v * sizeof p <= end_ s - data_ s ->
       write (ArraySerializer_simple p (len v)) v s
       = write (ArraySerializer_nonfixed (SimpleSerializer p)) v s
       /\ fst (write (ArraySerializer_simple p (len v)) v s) = Ok tt)
      /\ (end_ s - data_ s < len v * sizeof p ->
          fst (write (ArraySerializer_simple p (len v)) v s)
          = Fail StreamOverrunException
          /\ fst (write (ArraySerializer_nonfixed (SimpleSerializer p)) v s)
             = Fail StreamOverrunException)).
Proof.
  intros Hsz Hmem Hc.
  pose proof (len_nonneg v) as Hnn. pose proof (sizeof_range p) as Hp.
  assert (Hv : wf_val (TVector (TPrim U8)) [] ) by constructor.
  assert (Himg : len (prim_bytes U32 (len v) ++ raw_bytes p v)
                 = 4 + len v * sizeof p)
    by (rewrite len_app, prim_bytes_len, raw_bytes_len; reflexivity).
  split.
  - rewrite <- Himg.
    apply same_outcome; try assumption.
    + apply VectorSerializer_simple_writes. exact Hsz.
    + cbn [write VectorSerializer_nonfixed]. apply writes_bind.
      * rewrite <- prim_bytes_u32. apply (Simple_writes U32).
      * apply elementwise_writes.
    + cbn [write VectorSerializer_simple]. apply overruns_bind.
      * rewrite <- prim_bytes_u32. apply (Simple_writes U32).
      * rewrite <- prim_bytes_u32. apply (Simple_overruns U32).
      * destruct v as [|x v]; [apply overruns_ret|].
        apply overruns_advance.
        rewrite to_u32_idem, (to_u32_small (len (x :: v))) by nia.
        rewrite raw_bytes_len. apply to_u32_small. nia.
    + cbn [write VectorSerializer_nonfixed]. apply overruns_bind.
      * rewrite <- prim_bytes_u32. apply (Simple_writes U32).
      * rewrite <- prim_bytes_u32. apply (Simple_overruns U32).
      * apply elementwise_overruns.
  - rewrite <- (raw_bytes_len p v).
    apply same_outcome; try assumption.
    + apply ArraySerializer_simple_writes; [reflexivity | nia].
    + cbn [write ArraySerializer_nonfixed]. apply elementwise_writes.
    + cbn [write ArraySerializer_simple]. apply overruns_advance.
      rewrite to_u32_idem, raw_bytes_len. apply to_u32_small. nia.
    + cbn [write ArraySerializer_nonfixed]. apply elementwise_overruns.
Qed.

(** X6.  The one-[memcpy] read against the element-by-element read.  From
    the encoding of a vector of simple elements (fewer than 2^32 bytes),
    wherever it lies in the buffer, the codec for simple elements and the
    codec for elements that are not fixed-size, used with the element's
    own primitive codec, return the same vector and leave the stream in
    the same state, whatever the vector held before.  The same holds for
    arrays read into an array of the same size. *)
Theorem bulk_read_equals_elementwise (p : prim) (v old : list Z)
    (pre post : list Z) (e : Z) :
  Forall (in_range p) v -> 4 + len v * sizeof p < 2 ^ 32 ->
  (len pre + (4 + len v * sizeof p) <= e ->
   let s := mkStream (pre ++ (prim_bytes U32 (len v) ++ raw_bytes p v) ++ post)
              (len pre) e in
   read (VectorSerializer_simple p) old s
   = read (VectorSerializer_nonfixed (SimpleSerializer p) 0) old s
   /\ fst (read (VectorSerializer_simple p) old s) = Ok v)
  /\ (length old = length v -> len pre + len v * sizeof p <= e ->
      let s := mkStream (pre ++ raw_bytes p v ++ post) (len pre) e in
      read (ArraySerializer_simple p (len v)) old s
      = read (ArraySerializer_nonfixed (SimpleSerializer p)) old s
      /\ fst (read (ArraySerializer_simple p (len v)) old s) = Ok v).
Proof.
  intros Hr Hsz.
  pose proof (len_nonneg v) as Hnn. pose proof (sizeof_range p) as Hp.
  assert (Hel : forall olds,
            length olds = length v ->
            reads (for_each_mut (read (SimpleSerializer p)) olds)
              (raw_bytes p v) v).
  { intros olds Holds. apply reads_for_each_mut; [|exact Holds].
    intros o x _ Hx. apply Simple_reads.
    rewrite Forall_forall in Hr. apply Hr. exact Hx. }
  split.
  - intros Hroom s.
    assert (H1 : reads (read (VectorSerializer_simple p) old)
                   (prim_bytes U32 (len v) ++ raw_bytes p v) v)
      by (apply VectorSerializer_simple_reads; assumption).
    assert (H2 : reads (read (VectorSerializer_nonfixed (SimpleSerializer p) 0) old)
                   (prim_bytes U32 (len v) ++ raw_bytes p v) v).
    { cbn [read VectorSerializer_nonfixed].
      apply reads_bind with (a := len v).
      - apply U32_reads_small. nia.
      - apply Hel. rewrite resize_length. unfold len. apply Nat2Z.id. }
    unfold s.
    rewrite (H1 pre post e), (H2 pre post e)
      by (rewrite len_app, prim_bytes_len, raw_bytes_len;
          change (sizeof U32) with 4; lia).
    split; reflexivity.
  - intros Hold Hroom s.
    assert (H1 : reads (read (ArraySerializer_simple p (len v)) old)
                   (raw_bytes p v) v)
      by (apply ArraySerializer_simple_reads; try assumption;
          [reflexivity | nia]).
    assert (H2 : reads (read (ArraySerializer_nonfixed (SimpleSerializer p)) old)
                   (raw_bytes p v) v)
      by (cbn [read ArraySerializer_nonfixed]; apply Hel; exact Hold).
    unfold s.
    rewrite (H1 pre post e), (H2 pre post e) by (rewrite raw_bytes_len; lia).
    split; reflexivity.
Qed.

(** ** Booleans *)

(** X7.  A [bool] is read from one byte, and any byte but 0 reads as
    [true]: for every byte [b] at the cursor, [deserialize] yields
    [b <> 0] and moves the cursor by 1.  Writing the value read puts 0 or
    1 there, so a round through [bool] turns every non-zero byte
    into 1. *)
Theorem bool_normalisation (b : Z) (old : bool) (pre post : list Z) (e : Z) :
  is_byte b -> len pre + 1 <= e ->
  deserialize TBool old (mkStream (pre ++ [b] ++ post) (len pre) e)
  = (Ok (negb (b =? 0)), mkStream (pre ++ [b] ++ post) (len pre + 1) e)
  /\ serialize TBool (negb (b =? 0))
       (mkStream (pre ++ [b] ++ post) (len pre) e)
     = (Ok tt,
        mkStream (pre ++ [if b =? 0 then 0 else 1] ++ post) (len pre + 1) e).
Proof.
  intros Hb Hroom. split.
  - assert (H : reads (read BoolSerializer old) [b] (negb (b =? 0))).
    { cbn [read BoolSerializer].
      replace (negb (b =? 0)) with (negb (prim_value U8 [b] =? 0)).
      - apply (reads_advance_load_ret 1 1 _
                 (fun bs => negb (prim_value U8 bs =? 0))); reflexivity.
      - unfold prim_value, of_bytes. cbn [is_signed andb].
        destruct big_endian; cbn [rev app le_value];
          rewrite Z.mul_0_r, Z.add_0_r; reflexivity. }
    unfold deserialize. change (codec TBool) with BoolSerializer.
    apply (H pre post e). exact Hroom.
  - pose proof (Bool_writes (negb (b =? 0)) pre [b] post e eq_refl) as H.
    unfold serialize. change (codec TBool) with BoolSerializer.
    replace (len [if negb (b =? 0) then 1 else 0]) with 1 in H
      by (destruct (b =? 0); reflexivity).
    etransitivity; [apply H; exact Hroom|].
    destruct (b =? 0); reflexivity.
Qed.

(** ** Envelopes, both ways *)

Lemma serializeMessage_image (t : ty) (message : denote t) :
  specialised t = true -> wf_val t message ->
  wire_size t message + 4 < 2 ^ 32 ->
  serializeMessage t message
  = Ok (mkSerializedMessage
          (prim_bytes U32 (wire_size t message) ++ wire_image t message)
          (wire_size t message + 4) (Some 4)).
Proof.
  intros Hs Hv Hsz.
  pose proof (len_nonneg (wire_image t message)) as Hnn.
  fold (wire_size t message) in Hnn.
  pose proof (codec_writes t Hs message Hv ltac:(lia)) as Hwrites.
  pose proof (length_pass t message Hs Hv) as Hpass.
  assert (Himg : len (wire_image t message) = wire_size t message)
    by reflexivity.
  remember (wire_size t message) as L eqn:HLdef.
  assert (HL : to_u32 L = L) by (apply to_u32_small; lia).
  rewrite HL in Hpass.
  unfold serializeMessage. rewrite Hpass.
  rewrite !(to_u32_small (L + 4)) by lia.
  replace (L + 4 - 4) with L by lia. rewrite HL.
  unfold OStream_new, Stream_new. rewrite (to_u32_small (L + 4)) by lia.
  destruct (buffer_split (new_uint8 (L + 4)) 4 L)
    as (hd & mid & post & Hbuf & Hhd & Hmid);
    [lia | lia | rewrite new_uint8_length; lia |].
  assert (Hpost : post = []).
  { apply len_zero_nil. pose proof (f_equal len Hbuf) as Hl.
    rewrite new_uint8_length, !len_app in Hl by lia. lia. }
  subst post. rewrite app_nil_r in Hbuf.
  unfold bind at 1. unfold serialize at 1. cbn [codec].
  rewrite (writes_run _ _ _ [] hd (mid ++ []) (Simple_writes U32 L));
    cbn [buf data_ end_ app]; rewrite ?prim_bytes_len, ?len_nil, ?app_nil_r;
    change (sizeof U32) with 4; try lia; try assumption; try reflexivity.
  unfold bind at 1. unfold getData at 1. cbn [data_].
  unfold bind at 1. unfold serialize.
  rewrite (writes_run _ _ _ (prim_bytes U32 L) mid [] Hwrites);
    cbn [buf data_ end_]; rewrite ?prim_bytes_len, ?app_nil_r, ?Himg;
    change (sizeof U32) with 4; try lia; try reflexivity.
Qed.


Lemma to_u32_negative (z : Z) : - 2 ^ 32 <= z < 0 -> to_u32 z = z + 2 ^ 32.
Proof.
  intros Hz. unfold to_u32. symmetry.
  apply (Z.mod_unique z (2 ^ 32) (-1) (z + 2 ^ 32)); lia.
Qed.

Lemma short_envelope_read (p : prim) (old : Z) (mem : list Z) (n : Z) :
  0 <= n < 4 -> len mem = n ->
  fst (read (SimpleSerializer p) old (IStream_new mem 4 (n - 4)))
  = Fail UndefinedBehaviour.
Proof.
  intros Hn Hmem. unfold IStream_new, Stream_new.
  rewrite to_u32_negative by lia.
  pose proof (sizeof_range p) as Hp.
  cbn [read SimpleSerializer]. unfold bind.
  rewrite advance_ok by (cbn [data_ end_]; rewrite to_u32_sizeof; lia).
  cbn [data_ end_ buf]. unfold load, in_buffer. cbn [buf]. rewrite Hmem.
  replace ((0 <=? 4) && (0 <=? sizeof p) && (4 + sizeof p <=? n)) with false
    by (symmetry; rewrite !andb_false_iff; right; apply Z.leb_gt; lia).
  reflexivity.
Qed.

(** X9.  An envelope too short for its own length prefix.  When
    [deserializeMessage] is told that the length is included, but the
    envelope has fewer than 4 bytes, [m.num_bytes - 4] wraps: the input
    stream starts beyond the end of the buffer with nearly 2^32 bytes of
    room, the bounds check of [advance] passes, and the first read - of a
    primitive, or of the count of a string or a vector - is made outside
    the buffer.  No [StreamOverrunException] is raised. *)
Theorem deserializeMessage_short_envelope (m : SerializedMessage) :
  0 <= num_bytes m < 4 -> len (sm_buf m) = num_bytes m ->
  (forall p old,
     deserializeMessage m (TPrim p) old true = Fail UndefinedBehaviour)
  /\ (forall old,
        deserializeMessage m TString old true = Fail UndefinedBehaviour)
  /\ (forall T old,
        deserializeMessage m (TVector T) old true = Fail UndefinedBehaviour).
Proof.
  intros Hn Hmem.
  pose proof (short_envelope_read U32 0 (sm_buf m) (num_bytes m) Hn Hmem) as H32.
  split; [|split].
  - intros p old. unfold deserializeMessage, deserialize. cbn [codec].
    apply short_envelope_read; assumption.
  - intros old. unfold deserializeMessage, deserialize. cbn [codec].
    cbn [read StringSerializer]. apply fst_fail_bind. exact H32.
  - intros T old.
    assert (H : forall old' : list (denote T),
              fst (read (VectorSerializer T (codec T)) old'
                     (IStream_new (sm_buf m) 4 (num_bytes m - 4)))
              = Fail UndefinedBehaviour).
    { intros old'. destruct (IsSimple T) eqn:Hsimple.
      - apply IsSimple_inv in Hsimple. destruct Hsimple as [p ->].
        cbn [VectorSerializer]. cbn [read VectorSerializer_simple].
        apply fst_fail_bind. exact H32.
      - rewrite (VectorSerializer_read T Hsimple (codec T) old').
        apply fst_fail_bind. exact H32. }
    unfold deserializeMessage, deserialize. cbn [codec]. apply H.
Qed.

(** ** Messages with an all-in-one serializer *)

Lemma runs_ret {A : Type} (a : A) : runs (ret a) a [].
Proof.
  intros pre mid post e Hlen _. unfold ret.
  rewrite (len_zero_nil mid) by (rewrite Hlen; reflexivity).
  rewrite len_nil, Z.add_0_r. reflexivity.
Qed.

Lemma runs_bind {A B : Type} (m : M Stream A) (k : A -> M Stream B)
    (a : A) (b : B) (i1 i2 : list Z) :
  runs m a i1 -> runs (k a) b i2 -> runs (bind m k) b (i1 ++ i2).
Proof.
  intros H1 H2 pre mid post e Hlen Hroom.
  rewrite len_app in Hlen, Hroom.
  pose proof (len_nonneg i1) as Hi1. pose proof (len_nonneg i2) as Hi2.
  set (n := Z.to_nat (len i1)).
  assert (Hm1 : len (firstn n mid) = len i1).
  { unfold len at 1. rewrite length_firstn. unfold len in *. lia. }
  assert (Hm2 : len (skipn n mid) = len i2).
  { unfold len at 1. rewrite length_skipn. unfold len in *. lia. }
  unfold bind.
  rewrite <- (firstn_skipn n mid), <- app_assoc.
  rewrite (H1 pre (firstn n mid) (skipn n mid ++ post) e Hm1) by lia.
  replace (len pre + len i1) with (len (pre ++ i1)) by apply len_app.
  rewrite (app_assoc pre i1).
  rewrite (H2 (pre ++ i1) (skipn n mid) post e Hm2)
    by (rewrite len_app; lia).
  rewrite !len_app, <- !app_assoc, Z.add_assoc. reflexivity.
Qed.

Lemma OStream_next_runs (t : ty) (v : denote t) :
  specialised t = true -> wf_val t v -> wire_size t v < 2 ^ 32 ->
  runs (OStream_next t v) v (wire_image t v).
Proof.
  intros Hs Hv Hsz. unfold OStream_next.
  rewrite <- (app_nil_r (wire_image t v)).
  apply runs_bind with (a := tt).
  - apply (codec_writes t Hs v Hv Hsz).
  - apply runs_ret.
Qed.

Lemma fields_image_head (t : ty) (ts : list ty)
    (m : denote_fields (t :: ts)) :
  len (wire_image t (fst m)) <= len (fields_image (t :: ts) m)
  /\ len (fields_image ts (snd m)) <= len (fields_image (t :: ts) m).
Proof.
  cbn [fields_image]. rewrite len_app.
  pose proof (len_nonneg (wire_image t (fst m))).
  pose proof (len_nonneg (fields_image ts (snd m))). lia.
Qed.

Lemma allinone_runs (ts : list ty) :
  forallb specialised ts = true ->
  forall m, fields_wf ts m -> len (fields_image ts m) < 2 ^ 32 ->
  runs (allinone OStream_next ts m) m (fields_image ts m).
Proof.
  induction ts as [|t ts IH]; intros Hs m Hwf Hsz.
  - cbn [allinone fields_image]. apply runs_ret.
  - cbn [forallb] in Hs. apply andb_true_iff in Hs. destruct Hs as [Ht Hts].
    destruct (fields_image_head t ts m) as [H1 H2].
    destruct Hwf as [Hv Hrest]. destruct m as [a r]. cbn [fst snd] in *.
    cbn [allinone fields_image fst snd].
    apply runs_bind with (a := a).
    + apply OStream_next_runs; [exact Ht | exact Hv | unfold wire_size; lia].
    + rewrite <- (app_nil_r (fields_image ts r)).
      apply runs_bind with (a := r).
      * apply IH; [exact Hts | exact Hrest | lia].
      * apply runs_ret.
Qed.

Lemma allinone_reads (ts : list ty) :
  forallb specialised ts = true ->
  forall m old, fields_wf ts m -> fields_wf ts old ->
  len (fields_image ts m) < 2 ^ 32 ->
  reads (allinone IStream_next ts old) (fields_image ts m) m.
Proof.
  induction ts as [|t ts IH]; intros Hs m old Hwf Hold Hsz.
  - cbn [allinone fields_image]. destruct m, old. apply reads_ret.
  - cbn [forallb] in Hs. apply andb_true_iff in Hs. destruct Hs as [Ht Hts].
    destruct (fields_image_head t ts m) as [H1 H2].
    destruct Hwf as [Hv Hrest]. destruct Hold as [Hov Horest].
    destruct m as [a r]. destruct old as [oa or]. cbn [fst snd] in *.
    cbn [allinone fields_image fst snd].
    apply reads_bind with (a := a).
    + unfold IStream_next, deserialize.
      apply codec_reads; [exact Ht | exact Hv | exact Hov | unfold wire_size; lia].
    + rewrite <- (app_nil_r (fields_image ts r)).
      apply reads_bind with (a := r).
      * apply IH; [exact Hts | exact Hrest | exact Horest | lia].
      * apply reads_ret.
Qed.

Lemma allinone_measures (ts : list ty) :
  forallb specialised ts = true ->
  forall m, fields_wf ts m ->
  forall ls, 0 <= count_ ls < 2 ^ 32 ->
  allinone LStream_next ts m ls
  = (Ok m, mkLStream (to_u32 (count_ ls + len (fields_image ts m)))).
Proof.
  induction ts as [|t ts IH]; intros Hs m Hwf ls Hls.
  - cbn [allinone fields_image]. unfold ret. destruct ls as [c].
    cbn [count_] in *. rewrite len_nil, Z.add_0_r, to_u32_small by exact Hls.
    reflexivity.
  - cbn [forallb] in Hs. apply andb_true_iff in Hs. destruct Hs as [Ht Hts].
    destruct Hwf as [Hv Hrest]. destruct m as [a r]. cbn [fst snd] in *.
    cbn [allinone fields_image fst snd]. unfold bind at 1.
    unfold LStream_next at 1, serializationLength_into, bind at 1.
    rewrite (codec_measures t Ht a Hv ls Hls). unfold ret at 1.
    unfold bind.
    rewrite (IH Hts r Hrest) by (cbn [count_]; apply to_u32_range).
    unfold ret. cbn [count_].
    rewrite to_u32_add_l, len_app. unfold wire_size.
    rewrite Z.add_assoc. reflexivity.
Qed.

Lemma fields_default_wf (ts : list ty) : fields_wf ts (fields_default ts).
Proof.
  induction ts as [|t ts IH]; cbn [fields_wf fields_default fst snd];
    [exact I | split; [apply wf_default | exact IH]].
Qed.

(** X10.  A message whose serializer is declared with
    [ROS_DECLARE_ALLINONE_SERIALIZER], its [allinone] calling
    [stream.next] on each field in turn, the fields being of types served
    by the specialised codecs and holding no [std::vector<bool>].  When
    the fields' wire images together fit the output stream, a view of
    fewer than 2^32 bytes over the whole buffer: [write] returns, having
    put the fields' wire images one after the other; [serializedLength]
    advances a fresh length stream by exactly the distance the write
    cursor moved; and [read], from the bytes written, into a
    value-initialised message, yields the message. *)
Theorem allinone_message (ts : list ty) (m : denote_fields ts)
    (mem : list Z) (count : Z) :
  forallb specialised ts = true -> forallb has_read ts = true ->
  fields_wf ts m ->
  0 <= count < 2 ^ 32 -> len mem = count ->
  len (fields_image ts m) <= count ->
  exists s',
    write (AllInOneSerializer ts) m (OStream_new mem 0 count) = (Ok tt, s')
    /\ bytes_between (buf s') 0 (data_ s') = fields_image ts m
    /\ serializedLength (AllInOneSerializer ts) m LStream_new
       = (Ok tt, mkLStream (data_ s'))
    /\ fst (read (AllInOneSerializer ts) (fields_default ts)
              (IStream_new (bytes_between (buf s') 0 (data_ s')) 0 (data_ s')))
       = Ok m.
Proof.
  intros Hs _ Hwf Hcount Hmem Hfit.
  pose proof (len_nonneg (fields_image ts m)) as Hnn.
  set (L := len (fields_image ts m)) in *.
  destruct (buffer_split mem 0 L)
    as (pre & mid & post & Hbuf & Hpre & Hmid); [lia | lia | lia |].
  apply len_zero_nil in Hpre. subst pre. cbn [app] in Hbuf.
  pose proof (allinone_runs ts Hs m Hwf ltac:(fold L; lia) [] mid post count
                Hmid ltac:(fold L; change (len []) with 0; lia)) as Hrun.
  cbn [app] in Hrun. change (len []) with 0 in Hrun. fold L in Hrun.
  rewrite Z.add_0_l in Hrun.
  exists (mkStream (fields_image ts m ++ post) L count).
  assert (Hbytes : bytes_between (fields_image ts m ++ post) 0 L
                   = fields_image ts m).
  { pose proof (bytes_between_splice [] (fields_image ts m) post) as Hb.
    exact Hb. }
  cbn [buf data_]. split; [|split; [exact Hbytes|split]].
  - cbn [write AllInOneSerializer]. unfold bind, OStream_new, Stream_new.
    rewrite (to_u32_small count Hcount), Z.add_0_l, Hbuf, Hrun. reflexivity.
  - cbn [serializedLength AllInOneSerializer]. unfold bind.
    rewrite (allinone_measures ts Hs m Hwf LStream_new) by (cbn; lia).
    unfold ret. cbn [count_]. fold L. rewrite Z.add_0_l, to_u32_small by lia.
    reflexivity.
  - rewrite Hbytes. cbn [read AllInOneSerializer].
    pose proof (allinone_reads ts Hs m (fields_default ts) Hwf
                  (fields_default_wf ts) ltac:(fold L; lia) [] [] L) as Hr.
    cbn [app] in Hr. rewrite app_nil_r in Hr. change (len []) with 0 in Hr.
    fold L in Hr. unfold IStream_new, Stream_new.
    rewrite to_u32_small, Z.add_0_l by lia. rewrite Hr by lia. reflexivity.
Qed.

(** ** What a write changes, and where a read can be made *)

(** X11.  What [serialize] touches.  For every value of a type served by
    the specialised codecs whose wire image, of fewer than 2^32 bytes,
    fits the room of an output stream that lies inside its buffer:
    [serialize] returns, the bytes between the old
    and the new cursor are the wire image, the new cursor is the old one
    plus the size of the image, and every other byte of the buffer, before
    the old cursor and from the new cursor on, is what it was. *)
Theorem serialize_frame (t : ty) (v : denote t) (s : OStream) :
  specialised t = true -> wf_val t v -> mem_ok s ->
  wire_size t v <= end_ s - data_ s -> wire_size t v < 2 ^ 32 ->
  exists s',
    serialize t v s = (Ok tt, s')
    /\ data_ s' = data_ s + wire_size t v /\ end_ s' = end_ s
    /\ bytes_between (buf s') (data_ s) (data_ s') = wire_image t v
    /\ firstn (Z.to_nat (data_ s)) (buf s') = firstn (Z.to_nat (data_ s)) (buf s)
    /\ skipn (Z.to_nat (data_ s')) (buf s') = skipn (Z.to_nat (data_ s')) (buf s)
    /\ len (buf s') = len (buf s).
Proof.
  intros Hs Hv [Hd He] Hroom Hsz.
  destruct (serialize_image t v s Hs Hv Hd He Hroom Hsz)
    as (pre & mid & post & Hbuf & Hpre & Hmid & Hw).
  eexists. split; [exact Hw|]. cbn [buf data_ end_].
  split; [reflexivity|]. split; [reflexivity|].
  rewrite Hbuf, <- Hpre. unfold wire_size in *.
  split; [apply bytes_between_splice|].
  split; [rewrite !firstn_len_app; reflexivity|].
  split.
  - replace (len pre + len (wire_image t v))
      with (len (pre ++ wire_image t v)) at 1 by apply len_app.
    rewrite (app_assoc pre (wire_image t v) post), skipn_len_app.
    replace (len pre + len (wire_image t v)) with (len (pre ++ mid))
      by (rewrite len_app; lia).
    rewrite (app_assoc pre mid post), skipn_len_app. reflexivity.
  - rewrite !len_app. lia.
Qed.

(** X12.  Where and into what [deserialize] reads.  For every value of a
    type served by the specialised codecs and holding no
    [std::vector<bool>] (wire image of fewer than 2^32 bytes): wherever the wire image lies in a buffer, whatever precedes
    and follows it, and whatever well-formed object is read into,
    [deserialize] from a stream whose cursor is at the image, with the
    image inside its view, yields the value, moves the cursor past the
    image and changes nothing else. *)
Theorem deserialize_at (t : ty) (v old : denote t) (pre post : list Z) (e : Z) :
  specialised t = true -> has_read t = true -> wf_val t v -> wf_val t old ->
  wire_size t v < 2 ^ 32 -> len pre + wire_size t v <= e ->
  deserialize t old (mkStream (pre ++ wire_image t v ++ post) (len pre) e)
  = (Ok v, mkStream (pre ++ wire_image t v ++ post)
             (len pre + wire_size t v) e).
Proof.
  intros Hs _ Hv Hold Hsz Hroom. unfold deserialize.
  apply (codec_reads t Hs v old Hv Hold Hsz). exact Hroom.
Qed.

(** ** The remaining length *)

(** X13.  [getLength] of a buffered stream.  A stream constructed over
    [count] bytes reports [count].  An [advance] by [n] that returns
    leaves [n] less.  After an [advance] that raised, the cursor is
    beyond the bound and the length reported has wrapped around: it is
    2^32 less the excess. *)
Theorem getLength_accounting (s : Stream) (n : Z) :
  0 <= n < 2 ^ 32 -> 0 <= end_ s - data_ s < 2 ^ 32 ->
  (forall mem d count,
     0 <= count < 2 ^ 32 -> fst (getLength (Stream_new mem d count)) = Ok count)
  /\ fst (getLength s) = Ok (end_ s - data_ s)
  /\ (n <= end_ s - data_ s ->
      fst (getLength (snd (advance n s))) = Ok (end_ s - data_ s - n))
  /\ (end_ s - data_ s < n ->
      fst (advance n s) = Fail StreamOverrunException
      /\ fst (getLength (snd (advance n s)))
         = Ok (2 ^ 32 - (n - (end_ s - data_ s)))).
Proof.
  intros Hn Hroom. pose proof (to_u32_small n Hn) as Hu.
  split; [|split; [|split]].
  - intros mem d count Hc. cbn [getLength Stream_ops]. unfold Stream_getLength, Stream_new.
    cbn [fst data_ end_]. rewrite (to_u32_small count Hc).
    f_equal. replace (d + count - d) with count by lia.
    apply to_u32_small. exact Hc.
  - cbn [getLength Stream_ops]. unfold Stream_getLength. cbn [fst]. f_equal.
    apply to_u32_small. exact Hroom.
  - intros Hfit. rewrite advance_ok by lia. cbn [snd].
    cbn [getLength Stream_ops]. unfold Stream_getLength. cbn [fst data_ end_]. f_equal.
    rewrite Hu. replace (end_ s - (data_ s + n)) with (end_ s - data_ s - n) by lia.
    apply to_u32_small. lia.
  - intros Hover. rewrite advance_overrun by lia. cbn [fst snd].
    split; [reflexivity|].
    cbn [getLength Stream_ops]. unfold Stream_getLength. cbn [fst data_ end_]. f_equal.
    rewrite Hu, to_u32_negative by lia. lia.
Qed.

(** ** A string of 4 GiB or more *)

(** X14.  The string codec hands [advance] the size of the string as a
    [uint32_t] and [memcpy] the size as it is.  So for a string of 2^32
    bytes or more, written to a stream that ends with its buffer and has
    room for the count and for the size modulo 2^32: the bounds check
    passes, no [StreamOverrunException] is raised, and the copy of the
    whole string runs beyond the end of the buffer. *)
Theorem serialize_giant_string (str : list Z) (s : OStream) :
  2 ^ 32 <= len str -> stream_ok s -> end_ s = len (buf s) ->
  4 + to_u32 (len str) <= end_ s - data_ s ->
  fst (serialize TString str s) = Fail UndefinedBehaviour.
Proof.
  intros Hbig (Hd & He & Hroom) Hend Hfit.
  pose proof (to_u32_range (len str)) as Hu.
  destruct (buffer_split (buf s) (data_ s) 4)
    as (pre & mid & post & Hbuf & Hpre & Hmid); try lia.
  unfold serialize. cbn [codec write StringSerializer]. unfold bind at 1.
  rewrite (writes_run _ _ _ pre mid post
             (Simple_writes U32 (to_u32 (len str))) Hbuf);
    rewrite ?prim_bytes_len; change (sizeof U32) with 4; try lia.
  destruct (Z.ltb_spec 0 (len str)) as [_|Hbad]; [|lia].
  unfold bind. rewrite advance_ok by (cbn [data_ end_]; lia).
  cbn [data_ end_ buf]. unfold store, in_buffer. cbn [buf].
  replace ((0 <=? data_ s + 4) && (0 <=? len str)
           && (data_ s + 4 + len str
               <=? len (pre ++ prim_bytes U32 (to_u32 (len str)) ++ post)))
    with false; [reflexivity|].
  symmetry. rewrite !andb_false_iff. right. apply Z.leb_gt.
  pose proof (f_equal len Hbuf) as Hl.
  rewrite !len_app, prim_bytes_len in *. change (sizeof U32) with 4. lia.
Qed.

(** ** Reading a service reply back *)

Lemma serializeServiceResponse_image (t : ty) (message : denote t) :
  specialised t = true -> wf_val t message ->
  wire_size t message + 5 < 2 ^ 32 ->
  serializeServiceResponse true t message
  = Ok (mkSerializedMessage
          ([1] ++ prim_bytes U32 (wire_size t message) ++ wire_image t message)
          (wire_size t message + 5) None).
Proof.
  intros Hs Hv Hsz.
  pose proof (len_nonneg (wire_image t message)) as Hnn.
  fold (wire_size t message) in Hnn.
  pose proof (codec_writes t Hs message Hv ltac:(lia)) as Hwrites.
  pose proof (length_pass t message Hs Hv) as Hpass.
  assert (Himg : len (wire_image t message) = wire_size t message)
    by reflexivity.
  remember (wire_size t message) as L eqn:HLdef.
  assert (HL : to_u32 L = L) by (apply to_u32_small; lia).
  rewrite HL in Hpass.
  unfold serializeServiceResponse. rewrite Hpass.
  rewrite !(to_u32_small (L + 5)) by lia.
  replace (L + 5 - 5) with L by lia. rewrite HL.
  assert (Hw : writes (serialize (TPrim U8) 1 ;; serialize (TPrim U32) L ;;
                       serialize t message)
                 (prim_bytes U8 1 ++ prim_bytes U32 L ++ wire_image t message)).
  { apply writes_bind; [apply Simple_writes|].
    apply writes_bind; [apply Simple_writes | exact Hwrites]. }
  unfold OStream_new, Stream_new. rewrite (to_u32_small (L + 5)) by lia.
  rewrite (writes_run _ _ _ [] (new_uint8 (L + 5)) [] Hw);
    cbn [buf data_ end_ app]; rewrite ?app_nil_r, ?len_nil;
    rewrite ?new_uint8_length, ?len_app, ?prim_bytes_len, ?Himg by lia;
    change (sizeof U32) with 4; change (sizeof U8) with 1;
    try reflexivity; try lia.
  rewrite prim_bytes_byte by lia. reflexivity.
Qed.

(** X15.  A successful service reply is the message's envelope behind a
    status byte, and reads back.  For every message of a type served by
    the specialised codecs and holding no [std::vector<bool>], whose wire
    image has fewer than [2^32 - 5] bytes: the buffer of [serializeServiceResponse(true, message)] is the
    byte 1 followed by the buffer of [serializeMessage(message)], one
    byte longer; and a reader that takes from it a [uint8_t], a
    [uint32_t] and the message obtains 1, the size of the message's wire
    image, and the message, ending at the end of the buffer. *)
Theorem service_response_roundtrip (t : ty) (message old : denote t)
    (ok0 len0 : Z) :
  specialised t = true -> has_read t = true ->
  wf_val t message -> wf_val t old ->
  wire_size t message + 5 < 2 ^ 32 ->
  exists r m,
    serializeServiceResponse true t message = Ok r
    /\ serializeMessage t message = Ok m
    /\ sm_buf r = 1 :: sm_buf m
    /\ num_bytes r = num_bytes m + 1
    /\ (ok <- deserialize (TPrim U8) ok0 ;;
        l <- deserialize (TPrim U32) len0 ;;
        v <- deserialize t old ;;
        ret (ok, l, v)) (IStream_new (sm_buf r) 0 (num_bytes r))
       = (Ok (1, wire_size t message, message),
          mkStream (sm_buf r) (num_bytes r) (num_bytes r)).
Proof.
  intros Hs _ Hv Hold Hsz.
  pose proof (len_nonneg (wire_image t message)) as Hnn.
  fold (wire_size t message) in Hnn.
  assert (Himg : len (wire_image t message) = wire_size t message)
    by reflexivity.
  eexists. eexists.
  split; [apply serializeServiceResponse_image; assumption|].
  split; [apply serializeMessage_image; [assumption | assumption | lia]|].
  cbn [sm_buf num_bytes].
  split; [reflexivity|]. split; [lia|].
  assert (Hr : reads (ok <- deserialize (TPrim U8) ok0 ;;
                      l <- deserialize (TPrim U32) len0 ;;
                      v <- deserialize t old ;;
                      ret (ok, l, v))
                 (prim_bytes U8 1 ++ prim_bytes U32 (wire_size t message)
                  ++ wire_image t message ++ [])
                 (1, wire_size t message, message)).
  { apply reads_bind with (a := 1).
    { apply (Simple_reads U8). cbv. split; congruence. }
    apply reads_bind with (a := wire_size t message).
    { apply U32_reads_small. lia. }
    apply reads_bind with (a := message).
    { unfold deserialize. apply (codec_reads t Hs); [assumption | assumption | lia]. }
    apply reads_ret. }
  specialize (Hr [] [] (wire_size t message + 5)).
  rewrite prim_bytes_byte in Hr by lia.
  rewrite !app_nil_r in Hr. cbn [app] in Hr. change (len []) with 0 in Hr.
  unfold IStream_new, Stream_new. rewrite to_u32_small by lia.
  cbn [app]. rewrite Z.add_0_l in *.
  rewrite Hr.
  - f_equal. f_equal. rewrite len_cons, len_app, prim_bytes_len, Himg.
    change (sizeof U32) with 4. lia.
  - rewrite len_cons, len_app, prim_bytes_len, Himg.
    change (sizeof U32) with 4. lia.
Qed.

End Codecs.

(** ** The statements at sample inputs *)

Lemma fresh_storage_length (n : Z) : 0 <= n -> len (fresh_storage n) = n.
Proof.
  intros Hn. unfold fresh_storage, len. rewrite repeat_length. lia.
Qed.

Lemma Word_writes_from_pointer : writes_from_pointer Word.
Proof.
  intros t p seq mem mem' H.
  change (u_serialize Word t p seq mem)
    with (if in_buffer mem p 4
          then Some (firstn (Z.to_nat p) mem ++ le_bytes 4 t
                       ++ skipn (Z.to_nat (p + 4)) mem)
          else None) in H.
  destruct (in_buffer mem p 4) eqn:Hin; [|discriminate H].
  injection H as <-. unfold in_buffer in Hin.
  apply andb_true_iff in Hin. destruct Hin as [Hin Hfit].
  apply andb_true_iff in Hin. destruct Hin as [Hp _].
  apply Z.leb_le in Hp, Hfit. unfold len in *.
  split.
  - rewrite !length_app, length_firstn. cbn [length].
    rewrite length_skipn. lia.
  - rewrite firstn_app, firstn_firstn, Nat.min_id, length_firstn.
    replace (Z.to_nat p - Nat.min (Z.to_nat p) (length mem))%nat with 0%nat
      by lia.
    rewrite firstn_O, app_nil_r. reflexivity.
Qed.

Lemma advance_overrun_iff_witness :
  0 <= 3 < 2 ^ 32
  /\ advance 3 (Stream_new [0; 0; 0; 0] 0 4) = (Ok 0, mkStream [0; 0; 0; 0] 3 4)
  /\ (fst (advance 5 (Stream_new [0; 0; 0; 0] 0 4)) = Fail StreamOverrunException).
Proof.
  assert (H3 : 0 <= 3 < 2 ^ 32) by lia.
  assert (H5 : 0 <= 5 < 2 ^ 32) by lia.
  split; [exact H3|]. split.
  - destruct (advance_overrun_iff (Stream_new [0; 0; 0; 0] 0 4) 3 H3)
      as (_ & Hok & _).
    apply Hok. vm_compute. discriminate.
  - destruct (advance_overrun_iff (Stream_new [0; 0; 0; 0] 0 4) 5 H5)
      as ((_ & Hover) & _).
    apply Hover. vm_compute. reflexivity.
Defined.

(** C4 as stated fails: an [advance] past the bound raises, and leaves
    the cursor beyond the bound.  Here a stream over 4 bytes is asked
    for 5. *)
Lemma failed_advance_leaves_cursor_past_end :
  let s := Stream_new [0; 0; 0; 0] 0 4 in
  cursor_in_bounds s
  /\ advance 5 s = (Fail StreamOverrunException, mkStream [0; 0; 0; 0] 5 4)
  /\ ~ cursor_in_bounds (snd (advance 5 s)).
Proof.
  cbv zeta. split; [|split].
  - vm_compute. discriminate.
  - reflexivity.
  - vm_compute. intros H. apply H. reflexivity.
Qed.

Lemma cursor_bound_invariant_witness :
  let s := Stream_new [0; 0; 0; 0] 0 4 in
  let s' := mkStream [7; 0; 0; 0] 2 4 in
  cursor_in_bounds s
  /\ serialize false Word (TPrim U16) 7 s = (Ok tt, s')
  /\ cursor_in_bounds s' /\ end_ s' = end_ s.
Proof.
  cbv zeta.
  assert (H1 : cursor_in_bounds (Stream_new [0; 0; 0; 0] 0 4))
    by (vm_compute; discriminate).
  assert (H2 : serialize false Word (TPrim U16) 7 (Stream_new [0; 0; 0; 0] 0 4)
               = (Ok tt, mkStream [7; 0; 0; 0] 2 4)) by reflexivity.
  split; [exact H1|]. split; [exact H2|].
  destruct (cursor_bound_invariant false Word) as (_ & _ & _ & Hser & _).
  exact (Hser (TPrim U16) 7 _ _ H1 H2).
Defined.


(** C1 as stated fails for a type served by the primary template: the
    length pass advances by the 4 bytes the message reports, the write
    pass hands the message the data pointer and leaves the cursor where it
    was.  For a vector of two such messages the computed length is 12;
    the write pass moves the cursor by the 4 bytes of the count and puts
    both messages at the same position, so that no more than 8 bytes of a
    16-byte buffer are written at all. *)
Lemma default_codec_length_is_not_displacement :
  (let s := OStream_new [0; 0; 0; 0; 0; 0; 0; 0] 0 8 in
   stream_ok s
   /\ exists s',
        serialize false Word TUser 7 s = (Ok tt, s')
        /\ data_ s' - data_ s = 0
        /\ serializationLength false Word TUser 7 = Ok 4
        /\ serializationLength false Word TUser 7 <> Ok (data_ s' - data_ s))
  /\ (let v : denote Word (TVector TUser) := [1; 2] in
      let s := OStream_new (fresh_storage 16) 0 16 in
      stream_ok s
      /\ exists s',
           serialize false Word (TVector TUser) v s = (Ok tt, s')
           /\ buf s' = [2; 0; 0; 0; 2; 0; 0; 0] ++ fresh_storage 8
           /\ data_ s' - data_ s = 4
           /\ serializationLength false Word (TVector TUser) v = Ok 12
           /\ serializationLength false Word (TVector TUser) v
              <> Ok (data_ s' - data_ s)).
Proof.
  split; cbv zeta; (split; [unfold stream_ok; vm_compute;
                            repeat split; (discriminate || reflexivity)|]).
  - eexists. split; [reflexivity|]. split; [reflexivity|].
    split; [reflexivity|]. vm_compute. discriminate.
  - eexists. split; [reflexivity|]. split; [reflexivity|].
    split; [reflexivity|]. split; [reflexivity|]. vm_compute. discriminate.
Qed.

Lemma length_equals_write_witness :
  let t := TVector TString in
  let v : denote Word t := [[104; 105]; []] in
  let s := OStream_new (repeat 0 16%nat) 0 16 in
  specialised t = true /\ wf_val Word t v /\ stream_ok s
  /\ serialize false Word t v s
     = (Ok tt,
        mkStream [2; 0; 0; 0; 2; 0; 0; 0; 104; 105; 0; 0; 0; 0; 0; 0] 14 16)
  /\ serializationLength false Word t v = Ok (14 - 0).
Proof.
  cbv zeta.
  assert (H1 : specialised (TVector TString) = true) by reflexivity.
  assert (H2 : wf_val Word (TVector TString) [[104; 105]; []])
    by (simpl; repeat constructor).
  assert (H3 : stream_ok (OStream_new (repeat 0 16%nat) 0 16))
    by (unfold stream_ok; vm_compute; repeat split; discriminate).
  assert (H4 : serialize false Word (TVector TString) [[104; 105]; []]
                 (OStream_new (repeat 0 16%nat) 0 16)
               = (Ok tt,
                  mkStream [2; 0; 0; 0; 2; 0; 0; 0; 104; 105; 0; 0; 0; 0; 0; 0]
                    14 16)) by reflexivity.
  repeat (split; [assumption|]).
  exact (proj1 (length_equals_write false Word (TVector TString)
                  [[104; 105]; []] _ H1 H2 H3) _ H4).
Defined.

Lemma roundtrip_witness :
  let t := TVector TString in
  let v : denote Word t := [[104; 105]; []] in
  let mem := repeat 0 20%nat in
  specialised t = true /\ has_read t = true /\ wf_val Word t v
  /\ 0 + 16 <= len mem /\ wire_size false Word t v <= 16
  /\ exists s',
       serialize false Word t v (OStream_new mem 0 16) = (Ok tt, s')
       /\ let bytes := bytes_between (buf s') 0 (data_ s') in
          exists s'',
            deserialize false Word t (default_value Word t)
              (IStream_new bytes 0 (len bytes))
            = (Ok v, s'')
            /\ data_ s'' = end_ s''.
Proof.
  cbv zeta.
  assert (H1 : specialised (TVector TString) = true) by reflexivity.
  assert (H1' : has_read (TVector TString) = true) by reflexivity.
  assert (H2 : wf_val Word (TVector TString) [[104; 105]; []])
    by (simpl; repeat constructor).
  assert (H3 : 0 <= 0) by lia.
  assert (H4 : 0 <= 16 < 2 ^ 32) by lia.
  assert (H5 : 0 + 16 <= len (repeat 0 20%nat)) by (vm_compute; discriminate).
  assert (H6 : wire_size false Word (TVector TString) [[104; 105]; []] <= 16)
    by (vm_compute; discriminate).
  repeat (split; [assumption|]).
  exact (roundtrip false Word (TVector TString) [[104; 105]; []]
           (repeat 0 20%nat) 0 16 H1 H1' H2 H3 H4 H5 H6).
Defined.

(** C2 as stated fails in two ways.  A vector of two messages served by
    the primary template: both are written at the same position, since
    the cursor does not move, and the bytes between the old and the new
    cursor hold only the count; reading them back does not give the
    vector, and reading the whole buffer back gives the second message
    twice.  And a vector of [2^30] values of type [uint32_t], whose write
    pass returns after the 4 bytes of the count: reading them back does
    not give the vector. *)
Lemma roundtrip_fails :
  (let v : denote Word (TVector TUser) := [1; 2] in
   exists s',
     serialize false Word (TVector TUser) v (OStream_new (repeat 0 12%nat) 0 12)
     = (Ok tt, s')
     /\ (let bytes := bytes_between (buf s') 0 (data_ s') in
         fst (deserialize false Word (TVector TUser)
                (default_value Word (TVector TUser))
                (IStream_new bytes 0 (len bytes)))
         <> Ok v)
     /\ fst (deserialize false Word (TVector TUser)
               (default_value Word (TVector TUser))
               (IStream_new (buf s') 0 12))
        = Ok [2; 2])
  /\ (let v : denote Word (TVector (TPrim U32)) :=
        repeat 1 (S (Z.to_nat 1073741823)) in
      wf_val Word (TVector (TPrim U32)) v
      /\ exists s',
           serialize false Word (TVector (TPrim U32)) v
             (OStream_new [0; 0; 0; 0] 0 4)
           = (Ok tt, s')
           /\ let bytes := bytes_between (buf s') 0 (data_ s') in
              fst (deserialize false Word (TVector (TPrim U32))
                     (default_value Word (TVector (TPrim U32)))
                     (IStream_new bytes 0 (len bytes)))
              <> Ok v).
Proof.
  split.
  - cbv zeta. eexists. split; [reflexivity|]. split.
    + vm_compute. discriminate.
    + reflexivity.
  - apply (giant_vector_roundtrip_fails false Word (Z.to_nat 1073741823)).
    rewrite Nat2Z.inj_succ, Z2Nat.id by lia. reflexivity.
Qed.

Lemma serializeMessage_frame_witness :
  let t := TVector (TPrim I16) in
  let v : denote Word t := [-2; 3; 7] in
  specialised t = true /\ wf_val Word t v
  /\ wire_size false Word t v + 4 < 2 ^ 32
  /\ serializeMessage false Word fresh_storage t v
     = Ok (mkSerializedMessage
             [10; 0; 0; 0; 3; 0; 0; 0; 254; 255; 3; 0; 7; 0] 14 (Some 4))
  /\ to_u32 (u_serializationLength Word 7) + 4 < 2 ^ 32
  /\ writes_from_pointer Word
  /\ serializeMessage false Word fresh_storage TUser 7
     = Ok (mkSerializedMessage [4; 0; 0; 0; 7; 0; 0; 0] 8 (Some 4))
  /\ len [4; 0; 0; 0; 7; 0; 0; 0] = 4 + 4
  /\ firstn 4 [4; 0; 0; 0; 7; 0; 0; 0] = prim_bytes false U32 4.
Proof.
  cbv zeta.
  assert (U1 : to_u32 (u_serializationLength Word 7) + 4 < 2 ^ 32)
    by (vm_compute; reflexivity).
  assert (U2 : serializeMessage false Word fresh_storage TUser 7
               = Ok (mkSerializedMessage [4; 0; 0; 0; 7; 0; 0; 0] 8 (Some 4)))
    by reflexivity.
  assert (U3 : len [4; 0; 0; 0; 7; 0; 0; 0] = 4 + 4
               /\ firstn 4 [4; 0; 0; 0; 7; 0; 0; 0] = prim_bytes false U32 4)
    by exact (proj2 (proj2 (proj2 (proj2
                (proj2 (serializeMessage_frame false Word fresh_storage
                          fresh_storage_length) 7 U1)) _ U2))
                Word_writes_from_pointer).
  assert (H1 : specialised (TVector (TPrim I16)) = true) by reflexivity.
  assert (H2 : wf_val Word (TVector (TPrim I16)) [-2; 3; 7])
    by (simpl;
        repeat (apply Forall_cons;
                  [vm_compute; split; [discriminate | reflexivity]|]);
        apply Forall_nil).
  assert (H3 : wire_size false Word (TVector (TPrim I16)) [-2; 3; 7] + 4 < 2 ^ 32)
    by (vm_compute; reflexivity).
  repeat (split; [assumption|]).
  split; [|split; [exact U1|]; split; [exact Word_writes_from_pointer|];
           split; [exact U2 | exact U3]].
  destruct (proj1 (serializeMessage_frame false Word fresh_storage
                     fresh_storage_length)
              (TVector (TPrim I16)) [-2; 3; 7] H1 H2 H3)
    as (L & payload & HL & Hp & _ & Hm & _).
  assert (HL' : L = 10) by (vm_compute in HL; congruence).
  subst L. vm_compute in Hp.
  assert (Hpay : payload = [3; 0; 0; 0; 254; 255; 3; 0; 7; 0]) by congruence.
  subst payload. exact Hm.
Defined.

(** C5 as stated fails at the top of the 32-bit range: a string of
    [2^32 - 8] bytes has the computed length [L = 2^32 - 4], and
    [serializeMessage] raises instead of returning [L + 4] bytes. *)
Lemma serializeMessage_overruns :
  let str : denote Word TString := repeat 65 (Z.to_nat 4294967288) in
  serializationLength false Word TString str = Ok 4294967292
  /\ serializeMessage false Word fresh_storage TString str
     = Fail StreamOverrunException.
Proof.
  cbv zeta.
  apply (serializeMessage_wraps false Word fresh_storage
           (repeat 65 (Z.to_nat 4294967288))).
  unfold len. rewrite repeat_length, Z2Nat.id by lia. reflexivity.
Qed.

Lemma serializeServiceResponse_frame_witness :
  let t := TVector (TPrim I16) in
  let v : denote Word t := [-2; 3; 7] in
  serializeServiceResponse false Word fresh_storage false t v
  = Ok (mkSerializedMessage [0; 0; 0; 0; 0] 5 None)
  /\ specialised t = true /\ wf_val Word t v
  /\ wire_size false Word t v + 5 < 2 ^ 32
  /\ serializeServiceResponse false Word fresh_storage true t v
     = Ok (mkSerializedMessage
             [1; 10; 0; 0; 0; 3; 0; 0; 0; 254; 255; 3; 0; 7; 0] 15 None)
  /\ to_u32 (u_serializationLength Word 7) + 5 < 2 ^ 32
  /\ writes_from_pointer Word
  /\ serializeServiceResponse false Word fresh_storage true TUser 7
     = Ok (mkSerializedMessage [1; 4; 0; 0; 0; 7; 0; 0; 0] 9 None)
  /\ len [1; 4; 0; 0; 0; 7; 0; 0; 0] = 4 + 5
  /\ firstn 5 [1; 4; 0; 0; 0; 7; 0; 0; 0] = [1] ++ prim_bytes false U32 4.
Proof.
  cbv zeta.
  destruct (serializeServiceResponse_frame false Word fresh_storage
              fresh_storage_length) as (Hfail & Hok & Huser).
  assert (U1 : to_u32 (u_serializationLength Word 7) + 5 < 2 ^ 32)
    by (vm_compute; reflexivity).
  assert (U2 : serializeServiceResponse false Word fresh_storage true TUser 7
               = Ok (mkSerializedMessage [1; 4; 0; 0; 0; 7; 0; 0; 0] 9 None))
    by reflexivity.
  assert (U3 : len [1; 4; 0; 0; 0; 7; 0; 0; 0] = 4 + 5
               /\ firstn 5 [1; 4; 0; 0; 0; 7; 0; 0; 0]
                  = [1] ++ prim_bytes false U32 4)
    by exact (proj2 (proj2 (proj2 (Huser 7 U1)) _ U2)
                Word_writes_from_pointer).
  split; [apply Hfail|].
  assert (H1 : specialised (TVector (TPrim I16)) = true) by reflexivity.
  assert (H2 : wf_val Word (TVector (TPrim I16)) [-2; 3; 7])
    by (simpl;
        repeat (apply Forall_cons;
                  [vm_compute; split; [discriminate | reflexivity]|]);
        apply Forall_nil).
  assert (H3 : wire_size false Word (TVector (TPrim I16)) [-2; 3; 7] + 5 < 2 ^ 32)
    by (vm_compute; reflexivity).
  repeat (split; [assumption|]).
  split; [|split; [exact U1|]; split; [exact Word_writes_from_pointer|];
           split; [exact U2 | exact U3]].
  destruct (Hok (TVector (TPrim I16)) [-2; 3; 7] H1 H2 H3)
    as (L & payload & HL & Hp & _ & Hm & _).
  assert (HL' : L = 10) by (vm_compute in HL; congruence).
  subst L. vm_compute in Hp.
  assert (Hpay : payload = [3; 0; 0; 0; 254; 255; 3; 0; 7; 0]) by congruence.
  subst payload. exact Hm.
Defined.

(** C6 as stated fails, in its second half, at the top of the 32-bit
    range: for a string of [2^32 - 9] bytes the computed length is
    [L = 2^32 - 5], and the successful reply raises instead of returning
    [L + 5] bytes. *)
Lemma serializeServiceResponse_overruns :
  let str : denote Word TString := repeat 65 (Z.to_nat 4294967287) in
  serializationLength false Word TString str = Ok 4294967291
  /\ serializeServiceResponse false Word fresh_storage true TString str
     = Fail StreamOverrunException.
Proof.
  cbv zeta.
  apply (serializeServiceResponse_wraps false Word fresh_storage
           (repeat 65 (Z.to_nat 4294967287))).
  unfold len. rewrite repeat_length, Z2Nat.id by lia. reflexivity.
Qed.

Lemma representative_element_length_witness :
  let v : list (denote Word TTime) := [mkTime 1 2; mkTime 3 4; mkTime 5 6] in
  Forall (wf_val Word TTime) v /\ v <> [] /\ 0 <= count_ LStream_new < 2 ^ 32
  /\ serializedLength
       (VectorSerializer_fixed false (codec false Word TTime) (default_value Word TTime))
       v LStream_new
     = (Ok tt, mkLStream 28)
  /\ serializedLength
       (VectorSerializer_nonfixed false (codec false Word TTime)
          (default_value Word TTime))
       v LStream_new
     = (Ok tt, mkLStream 28).
Proof.
  cbv zeta.
  assert (H0 : forall x y : denote Word TTime,
             wf_val Word TTime x -> wf_val Word TTime y ->
             serializationLength false Word TTime x
             = serializationLength false Word TTime y)
    by (intros; reflexivity).
  assert (H1 : Forall (wf_val Word TTime) [mkTime 1 2; mkTime 3 4; mkTime 5 6])
    by (repeat (apply Forall_cons;
                  [vm_compute; repeat split; (discriminate || reflexivity)|]);
        apply Forall_nil).
  assert (H2 : [mkTime 1 2; mkTime 3 4; mkTime 5 6] <> []) by discriminate.
  assert (H3 : 0 <= count_ LStream_new < 2 ^ 32) by (simpl; lia).
  repeat (split; [assumption|]).
  destruct (representative_element_length false Word TTime
              [mkTime 1 2; mkTime 3 4; mkTime 5 6] LStream_new H0 H1 H2 H3)
    as (L & HL & Hvec & Heq & _).
  split; [|rewrite <- Heq]; rewrite Hvec;
    vm_compute in HL; injection HL as <-; reflexivity.
Defined.



(** ** Overruns, truncated input and envelopes at sample inputs *)

Ltac by_computation :=
  vm_compute; repeat split; (discriminate || reflexivity || exact I).

Ltac all_in_range :=
  repeat (apply Forall_cons; [by_computation|]); apply Forall_nil.

Lemma serialize_overruns_when_short_witness :
  let t := TVector TString in
  let v : denote Word t := [[104; 105]; []] in
  let s := OStream_new (repeat 0 10%nat) 0 10 in
  specialised t = true /\ wf_val Word t v
  /\ wire_size false Word t v < 2 ^ 32 /\ mem_ok s /\ cursor_in_bounds s
  /\ end_ s - data_ s < wire_size false Word t v
  /\ fst (serialize false Word t v s) = Fail StreamOverrunException.
Proof.
  cbv zeta.
  assert (H1 : specialised (TVector TString) = true) by reflexivity.
  assert (H2 : wf_val Word (TVector TString) [[104; 105]; []])
    by (simpl; repeat constructor).
  assert (H3 : wire_size false Word (TVector TString) [[104; 105]; []] < 2 ^ 32)
    by by_computation.
  assert (H4 : mem_ok (OStream_new (repeat 0 10%nat) 0 10))
    by (unfold mem_ok; by_computation).
  assert (H5 : cursor_in_bounds (OStream_new (repeat 0 10%nat) 0 10))
    by (unfold cursor_in_bounds; by_computation).
  assert (H6 : end_ (OStream_new (repeat 0 10%nat) 0 10)
               - data_ (OStream_new (repeat 0 10%nat) 0 10)
               < wire_size false Word (TVector TString) [[104; 105]; []])
    by by_computation.
  repeat (split; [assumption|]).
  exact (proj1 (serialize_overruns_when_short false Word (TVector TString)
                  [[104; 105]; []] _ H1 H2 H3 H4 H5) H6).
Defined.

Lemma deserialize_truncated_overruns_witness :
  let t := TVector TString in
  let v : denote Word t := [[104; 105]; []] in
  let old : denote Word t := [[1]] in
  specialised t = true /\ has_read t = true
  /\ wf_val Word t v /\ wf_val Word t old
  /\ wire_size false Word t v < 2 ^ 32
  /\ 0 <= 9 < wire_size false Word t v
  /\ fst (deserialize false Word t old
            (IStream_new (firstn (Z.to_nat 9) (wire_image false Word t v)) 0 9))
     = Fail StreamOverrunException.
Proof.
  cbv zeta.
  assert (H1 : specialised (TVector TString) = true) by reflexivity.
  assert (H1' : has_read (TVector TString) = true) by reflexivity.
  assert (H2 : wf_val Word (TVector TString) [[104; 105]; []])
    by (simpl; repeat constructor).
  assert (H3 : wf_val Word (TVector TString) [[1]])
    by (simpl; repeat constructor).
  assert (H4 : wire_size false Word (TVector TString) [[104; 105]; []] < 2 ^ 32)
    by by_computation.
  assert (H5 : 0 <= 9 < wire_size false Word (TVector TString) [[104; 105]; []])
    by by_computation.
  repeat (split; [assumption|]).
  exact (deserialize_truncated_overruns false Word (TVector TString)
           [[104; 105]; []] [[1]] 9 H1 H1' H2 H3 H4 H5).
Defined.

Lemma deserialize_stays_in_buffer_witness :
  let t := TArray TString 2 in
  let old : denote Word t := [[]; []] in
  let s := mkStream [1; 0; 0; 0; 104; 255; 255; 255; 255; 1; 2] 0 11 in
  specialised t = true /\ vector_free t = true
  /\ mem_ok s /\ Forall is_byte (buf s)
  /\ ((exists v, fst (deserialize false Word t old s) = Ok v)
      \/ fst (deserialize false Word t old s) = Fail StreamOverrunException)
  /\ buf (snd (deserialize false Word t old s)) = buf s
  /\ end_ (snd (deserialize false Word t old s)) = end_ s.
Proof.
  cbv zeta.
  assert (H1 : specialised (TArray TString 2) = true) by reflexivity.
  assert (H1' : vector_free (TArray TString 2) = true) by reflexivity.
  assert (H2 : mem_ok (mkStream [1; 0; 0; 0; 104; 255; 255; 255; 255; 1; 2]
                         0 11))
    by (unfold mem_ok; by_computation).
  assert (H3 : Forall is_byte
                 (buf (mkStream [1; 0; 0; 0; 104; 255; 255; 255; 255; 1; 2]
                         0 11)))
    by (cbn [buf]; all_in_range).
  repeat (split; [assumption|]).
  exact (deserialize_stays_in_buffer false Word (TArray TString 2) [[]; []] _
           H1 H1' H2 H3).
Defined.

Lemma empty_vector_witness :
  len [1; 2; 3; 4] = 4 /\ len [7] + 4 <= 5
  /\ has_read (TVector TUser) = true
  /\ serialize false Word (TVector TUser) []
       (mkStream ([7] ++ [1; 2; 3; 4] ++ [9]) (len [7]) 5)
     = (Ok tt, mkStream ([7] ++ [0; 0; 0; 0] ++ [9]) (len [7] + 4) 5)
  /\ deserialize false Word (TVector TUser) [5; 6]
       (mkStream ([7] ++ [0; 0; 0; 0] ++ [9]) (len [7]) 5)
     = (Ok [], mkStream ([7] ++ [0; 0; 0; 0] ++ [9]) (len [7] + 4) 5).
Proof.
  assert (H1 : len [1; 2; 3; 4] = 4) by reflexivity.
  assert (H2 : len [7] + 4 <= 5) by by_computation.
  assert (H3 : has_read (TVector TUser) = true) by reflexivity.
  repeat (split; [assumption|]).
  split.
  - exact (proj1 (empty_vector false Word TUser) [7] [1; 2; 3; 4] [9] 5 H1 H2).
  - exact (proj2 (proj2 (empty_vector false Word TUser)) H3 [5; 6] [7] [9] 5
             H2).
Defined.

Lemma bulk_write_equals_elementwise_witness :
  let v := [-2; 3; 7] in
  let s := OStream_new (repeat 0 12%nat) 0 12 in
  4 + len v * sizeof I16 < 2 ^ 32 /\ mem_ok s /\ cursor_in_bounds s
  /\ 4 + len v * sizeof I16 <= end_ s - data_ s
  /\ write (VectorSerializer_simple false I16) v s
     = write (VectorSerializer_nonfixed false (SimpleSerializer false I16) 0) v s
  /\ fst (write (VectorSerializer_simple false I16) v s) = Ok tt.
Proof.
  cbv zeta.
  assert (H1 : 4 + len [-2; 3; 7] * sizeof I16 < 2 ^ 32) by by_computation.
  assert (H2 : mem_ok (OStream_new (repeat 0 12%nat) 0 12))
    by (unfold mem_ok; by_computation).
  assert (H3 : cursor_in_bounds (OStream_new (repeat 0 12%nat) 0 12))
    by (unfold cursor_in_bounds; by_computation).
  assert (H4 : 4 + len [-2; 3; 7] * sizeof I16
               <= end_ (OStream_new (repeat 0 12%nat) 0 12)
                  - data_ (OStream_new (repeat 0 12%nat) 0 12))
    by by_computation.
  repeat (split; [assumption|]).
  exact (proj1 (proj1 (bulk_write_equals_elementwise false Word I16
                         [-2; 3; 7] _ H1 H2 H3)) H4).
Defined.

Lemma bulk_read_equals_elementwise_witness :
  let v := [-2; 3; 7] in
  let s := mkStream ([9] ++ (prim_bytes false U32 (len v)
                             ++ raw_bytes false I16 v) ++ []) (len [9]) 11 in
  Forall (in_range I16) v /\ 4 + len v * sizeof I16 < 2 ^ 32
  /\ len [9] + (4 + len v * sizeof I16) <= 11
  /\ read (VectorSerializer_simple false I16) [5] s
     = read (VectorSerializer_nonfixed false (SimpleSerializer false I16) 0) [5] s
  /\ fst (read (VectorSerializer_simple false I16) [5] s) = Ok v.
Proof.
  cbv zeta.
  assert (H1 : Forall (in_range I16) [-2; 3; 7]) by all_in_range.
  assert (H2 : 4 + len [-2; 3; 7] * sizeof I16 < 2 ^ 32) by by_computation.
  assert (H3 : len [9] + (4 + len [-2; 3; 7] * sizeof I16) <= 11)
    by by_computation.
  repeat (split; [assumption|]).
  exact (proj1 (bulk_read_equals_elementwise false I16 [-2; 3; 7] [5] [9] []
                  11 H1 H2) H3).
Defined.

Lemma bool_normalisation_witness :
  is_byte 2 /\ len [9] + 1 <= 2
  /\ deserialize false Word TBool false (mkStream ([9] ++ [2] ++ [8]) (len [9]) 2)
     = (Ok true, mkStream ([9] ++ [2] ++ [8]) (len [9] + 1) 2)
  /\ serialize false Word TBool true (mkStream ([9] ++ [2] ++ [8]) (len [9]) 2)
     = (Ok tt, mkStream ([9] ++ [1] ++ [8]) (len [9] + 1) 2).
Proof.
  assert (H1 : is_byte 2) by (unfold is_byte; lia).
  assert (H2 : len [9] + 1 <= 2) by by_computation.
  repeat (split; [assumption|]).
  exact (bool_normalisation false Word 2 false [9] [8] 2 H1 H2).
Defined.


Lemma deserializeMessage_short_envelope_witness :
  let m := mkSerializedMessage [1; 2] 2 None in
  0 <= num_bytes m < 4 /\ len (sm_buf m) = num_bytes m
  /\ deserializeMessage false Word m (TPrim U8) 0 true = Fail UndefinedBehaviour.
Proof.
  cbv zeta.
  assert (H1 : 0 <= num_bytes (mkSerializedMessage [1; 2] 2 None) < 4)
    by by_computation.
  assert (H2 : len (sm_buf (mkSerializedMessage [1; 2] 2 None))
               = num_bytes (mkSerializedMessage [1; 2] 2 None)) by reflexivity.
  repeat (split; [assumption|]).
  exact (proj1 (deserializeMessage_short_envelope false Word _ H1 H2) U8 0).
Defined.

Lemma allinone_message_witness :
  let ts := [TPrim U16; TString; TBool; TVector (TPrim I16)] in
  let m : denote_fields Word ts :=
    (513, ([104; 105], (true, ([-2; 3], tt)))) in
  let mem := repeat 0 20%nat in
  forallb specialised ts = true /\ forallb has_read ts = true
  /\ fields_wf Word ts m
  /\ 0 <= 20 < 2 ^ 32 /\ len mem = 20
  /\ len (fields_image false Word ts m) <= 20
  /\ exists s',
       write (AllInOneSerializer false Word ts) m (OStream_new mem 0 20)
       = (Ok tt, s')
       /\ bytes_between (buf s') 0 (data_ s') = fields_image false Word ts m
       /\ serializedLength (AllInOneSerializer false Word ts) m LStream_new
          = (Ok tt, mkLStream (data_ s'))
       /\ fst (read (AllInOneSerializer false Word ts) (fields_default Word ts)
                 (IStream_new (bytes_between (buf s') 0 (data_ s')) 0 (data_ s')))
          = Ok m.
Proof.
  cbv zeta.
  assert (H1 : forallb specialised
                 [TPrim U16; TString; TBool; TVector (TPrim I16)] = true)
    by reflexivity.
  assert (H1' : forallb has_read
                  [TPrim U16; TString; TBool; TVector (TPrim I16)] = true)
    by reflexivity.
  assert (H2 : fields_wf Word [TPrim U16; TString; TBool; TVector (TPrim I16)]
                 (513, ([104; 105], (true, ([-2; 3], tt))))).
  { cbn [fields_wf wf_val fst snd].
    split; [by_computation|]. split; [exact I|]. split; [exact I|].
    split; [all_in_range | exact I]. }
  assert (H3 : 0 <= 20 < 2 ^ 32) by lia.
  assert (H4 : len (repeat 0 20%nat) = 20) by reflexivity.
  assert (H5 : len (fields_image false Word
                      [TPrim U16; TString; TBool; TVector (TPrim I16)]
                      (513, ([104; 105], (true, ([-2; 3], tt))))) <= 20)
    by by_computation.
  repeat (split; [assumption|]).
  exact (allinone_message false Word
           [TPrim U16; TString; TBool; TVector (TPrim I16)]
           (513, ([104; 105], (true, ([-2; 3], tt)))) (repeat 0 20%nat) 20
           H1 H1' H2 H3 H4 H5).
Defined.

Lemma serialize_frame_witness :
  let v : denote Word TString := [104; 105] in
  let s := mkStream [9; 9; 0; 0; 0; 0; 0; 0; 7; 7] 2 8 in
  specialised TString = true /\ wf_val Word TString v /\ mem_ok s
  /\ wire_size false Word TString v <= end_ s - data_ s
  /\ wire_size false Word TString v < 2 ^ 32
  /\ exists s',
       serialize false Word TString v s = (Ok tt, s')
       /\ data_ s' = data_ s + wire_size false Word TString v
       /\ end_ s' = end_ s
       /\ bytes_between (buf s') (data_ s) (data_ s')
          = wire_image false Word TString v
       /\ firstn (Z.to_nat (data_ s)) (buf s')
          = firstn (Z.to_nat (data_ s)) (buf s)
       /\ skipn (Z.to_nat (data_ s')) (buf s')
          = skipn (Z.to_nat (data_ s')) (buf s)
       /\ len (buf s') = len (buf s).
Proof.
  cbv zeta.
  assert (H1 : specialised TString = true) by reflexivity.
  assert (H2 : wf_val Word TString [104; 105]) by exact I.
  assert (H3 : mem_ok (mkStream [9; 9; 0; 0; 0; 0; 0; 0; 7; 7] 2 8))
    by (unfold mem_ok; by_computation).
  assert (H4 : wire_size false Word TString [104; 105]
               <= end_ (mkStream [9; 9; 0; 0; 0; 0; 0; 0; 7; 7] 2 8)
                  - data_ (mkStream [9; 9; 0; 0; 0; 0; 0; 0; 7; 7] 2 8))
    by by_computation.
  assert (H5 : wire_size false Word TString [104; 105] < 2 ^ 32)
    by by_computation.
  repeat (split; [assumption|]).
  exact (serialize_frame false Word TString [104; 105] _ H1 H2 H3 H4 H5).
Defined.

Lemma deserialize_at_witness :
  let v : denote Word TString := [104; 105] in
  let old : denote Word TString := [1; 2; 3] in
  specialised TString = true /\ has_read TString = true
  /\ wf_val Word TString v
  /\ wf_val Word TString old /\ wire_size false Word TString v < 2 ^ 32
  /\ len [9; 9] + wire_size false Word TString v <= 8
  /\ deserialize false Word TString old
       (mkStream ([9; 9] ++ wire_image false Word TString v ++ [7]) (len [9; 9]) 8)
     = (Ok v,
        mkStream ([9; 9] ++ wire_image false Word TString v ++ [7])
          (len [9; 9] + wire_size false Word TString v) 8).
Proof.
  cbv zeta.
  assert (H1 : specialised TString = true) by reflexivity.
  assert (H1' : has_read TString = true) by reflexivity.
  assert (H2 : wf_val Word TString [104; 105]) by exact I.
  assert (H3 : wf_val Word TString [1; 2; 3]) by exact I.
  assert (H4 : wire_size false Word TString [104; 105] < 2 ^ 32)
    by by_computation.
  assert (H5 : len [9; 9] + wire_size false Word TString [104; 105] <= 8)
    by by_computation.
  split; [exact H1|]. split; [exact H1'|]. split; [exact H2|].
  split; [exact H3|]. split; [exact H4|]. split; [exact H5|].
  exact (deserialize_at false Word TString [104; 105] [1; 2; 3] [9; 9] [7] 8
           H1 H1' H2 H3 H4 H5).
Defined.

Lemma getLength_accounting_witness :
  let s := mkStream [0; 0; 0; 0] 1 4 in
  0 <= 5 < 2 ^ 32 /\ 0 <= end_ s - data_ s < 2 ^ 32
  /\ end_ s - data_ s < 5
  /\ fst (advance 5 s) = Fail StreamOverrunException
  /\ fst (getLength (snd (advance 5 s))) = Ok 4294967294.
Proof.
  cbv zeta.
  assert (H1 : 0 <= 5 < 2 ^ 32) by lia.
  assert (H2 : 0 <= end_ (mkStream [0; 0; 0; 0] 1 4)
                    - data_ (mkStream [0; 0; 0; 0] 1 4) < 2 ^ 32)
    by by_computation.
  assert (H3 : end_ (mkStream [0; 0; 0; 0] 1 4)
               - data_ (mkStream [0; 0; 0; 0] 1 4) < 5) by by_computation.
  repeat (split; [assumption|]).
  exact (proj2 (proj2 (proj2 (getLength_accounting
                                (mkStream [0; 0; 0; 0] 1 4) 5 H1 H2))) H3).
Defined.

Lemma serialize_giant_string_witness :
  let str : denote Word TString := repeat 65 (Z.to_nat 4294967297) in
  let s := mkStream [0; 0; 0; 0; 0; 0; 0; 0] 0 8 in
  2 ^ 32 <= len str /\ stream_ok s /\ end_ s = len (buf s)
  /\ 4 + to_u32 (len str) <= end_ s - data_ s
  /\ fst (serialize false Word TString str s) = Fail UndefinedBehaviour.
Proof.
  cbv zeta.
  assert (Hlen : len (repeat 65 (Z.to_nat 4294967297)) = 4294967297)
    by (unfold len; rewrite repeat_length; apply Z2Nat.id; discriminate).
  assert (H1 : 2 ^ 32 <= len (repeat 65 (Z.to_nat 4294967297)))
    by (rewrite Hlen; by_computation).
  assert (H2 : stream_ok (mkStream [0; 0; 0; 0; 0; 0; 0; 0] 0 8))
    by (unfold stream_ok; by_computation).
  assert (H3 : end_ (mkStream [0; 0; 0; 0; 0; 0; 0; 0] 0 8)
               = len (buf (mkStream [0; 0; 0; 0; 0; 0; 0; 0] 0 8)))
    by reflexivity.
  assert (H4 : 4 + to_u32 (len (repeat 65 (Z.to_nat 4294967297)))
               <= end_ (mkStream [0; 0; 0; 0; 0; 0; 0; 0] 0 8)
                  - data_ (mkStream [0; 0; 0; 0; 0; 0; 0; 0] 0 8))
    by (rewrite Hlen; by_computation).
  split; [exact H1|]. split; [exact H2|]. split; [exact H3|].
  split; [exact H4|].
  exact (serialize_giant_string false Word (repeat 65 (Z.to_nat 4294967297))
           _ H1 H2 H3 H4).
Defined.

Lemma service_response_roundtrip_witness :
  let t := TVector (TPrim I16) in
  let message : denote Word t := [-2; 3; 7] in
  let old : denote Word t := [1] in
  specialised t = true /\ has_read t = true
  /\ wf_val Word t message /\ wf_val Word t old
  /\ wire_size false Word t message + 5 < 2 ^ 32
  /\ exists r m,
       serializeServiceResponse false Word fresh_storage true t message = Ok r
       /\ serializeMessage false Word fresh_storage t message = Ok m
       /\ sm_buf r = 1 :: sm_buf m
       /\ num_bytes r = num_bytes m + 1
       /\ (ok <- deserialize false Word (TPrim U8) 0 ;;
           l <- deserialize false Word (TPrim U32) 0 ;;
           v <- deserialize false Word t old ;;
           ret (ok, l, v))%stream (IStream_new (sm_buf r) 0 (num_bytes r))
          = (Ok (1, wire_size false Word t message, message),
             mkStream (sm_buf r) (num_bytes r) (num_bytes r)).
Proof.
  cbv zeta.
  assert (H1 : specialised (TVector (TPrim I16)) = true) by reflexivity.
  assert (H1' : has_read (TVector (TPrim I16)) = true) by reflexivity.
  assert (H2 : wf_val Word (TVector (TPrim I16)) [-2; 3; 7])
    by (cbn [wf_val]; all_in_range).
  assert (H3 : wf_val Word (TVector (TPrim I16)) [1])
    by (cbn [wf_val]; all_in_range).
  assert (H4 : wire_size false Word (TVector (TPrim I16)) [-2; 3; 7] + 5 < 2 ^ 32)
    by by_computation.
  repeat (split; [assumption|]).
  exact (service_response_roundtrip false Word fresh_storage
           fresh_storage_length (TVector (TPrim I16)) [-2; 3; 7] [1] 0 0
           H1 H1' H2 H3 H4).
Defined.
